(** * Container-terminal simulation (main.py) over a model of the SimPy kernel

    The program under verification is [src/main.py]: vessels arrive at a
    terminal, queue for a berth ([simpy.Resource]), take a quay crane from a
    plain Python list and unload their containers one at a time.

    The development has three layers.
    - The SimPy kernel the program runs on: the environment's clock and heap
      of scheduled events, events with their callback lists, processes
      (generators that are resumed by the callbacks of the event they wait
      for) and the [Resource] with its [users] list and its request queue.
    - The program itself: the module constants, [Terminal], [Vessel.arrive],
      [QuayCrane.load_container], [Truck.transport_container],
      [vessel_on_the_terminal] and the module-level script.  A Python
      generator is embedded as a [frame]: the suspension point it stands at
      together with its live local variables; [send] runs it to its next
      [yield].
    - The properties: invariants of every reachable state, and runs of
      concrete configurations evaluated inside Rocq. *)

From Stdlib Require Import ZArith QArith Lia.
From Stdlib Require PrimFloat.
From stdpp Require Import base option list sorting gmap.

Open Scope nat_scope.

(** ** Module constants *)

(** The nine constants at the top of main.py.  The counts range over [nat]
    (a negative count would behave like zero in [range] and is rejected by
    [simpy.Resource]); durations are exact rationals; the container count
    is a Python [int] that the program decrements, hence [Z]. *)
Record config := Config {
  SIMULATION_TIME : Q;
  NUM_BERTHS : nat;
  NUM_QUAY_CRANES : nat;
  NUM_TRUCKS : nat;
  NUM_VESSEL : nat;
  AVERAGE_VESSEL_ARRIVAL_INTERVAL : Q;
  CONTAINERS_PER_VESSEL : Z;
  CRANE_CONTAINER_TIME : Q;
  TRUCK_TRANSPORT_TIME : Q
}.

(** The values main.py assigns (lines 5-13). *)
Definition main_config : config :=
  {| SIMULATION_TIME := 720;
     NUM_BERTHS := 2;
     NUM_QUAY_CRANES := 2;
     NUM_TRUCKS := 3;
     NUM_VESSEL := 4;
     AVERAGE_VESSEL_ARRIVAL_INTERVAL := 5 * 60;
     CONTAINERS_PER_VESSEL := 150;
     CRANE_CONTAINER_TIME := 3;
     TRUCK_TRANSPORT_TIME := 6 |}.

(** ** The [random] module

    [random.expovariate(lambd)] reads and advances the hidden state of
    Python's generator.  The state and the sampler are an interface: a
    seed is a value of [rng_state]. *)
Class Random := {
  rng_state : Type;
  expovariate : Q -> rng_state -> Q * rng_state
}.

(** A generator whose state is the list of the samples still to come
    (0 when the list runs out); it is used to run concrete scenarios. *)
Definition scripted : Random :=
  {| rng_state := list Q;
     expovariate := fun _ l => match l with [] => (0%Q, []) | x :: l' => (x, l') end |}.

(** ** Exceptions, events, processes *)

Inductive exn :=
| ValueError
| IndexError
| ZeroDivisionError
| RuntimeError
| EmptySchedule
| StopSimulation.

(** [Event._value] together with [Event._ok]. *)
Inductive outcome :=
| PENDING
| Succeeded
| Failed (exc : exn).

(** The bound methods that the program's events carry in [callbacks]:
    [Process._resume] of a process, the resource's [_trigger_put] and
    [_trigger_get], and [StopSimulation.callback]. *)
Inductive callback :=
| CbResume (proc : nat)
| CbTriggerPut
| CbTriggerGet
| CbStopSimulation.

(** The classes of the event objects the program creates: the plain
    [Event] that [env.run] waits for, [Timeout], [Initialize], [Process],
    the resource's [Request] and its [Release] (with the request it
    gives back). *)
Inductive kind :=
| KEvent
| KTimeout
| KInitialize
| KProcess
| KRequest
| KRelease (request : nat).

(** An event object.  [callbacks = None] once the event was processed. *)
Record event := Event {
  class_of : kind;
  callbacks : option (list callback);
  ev_value : outcome;
  defused : bool
}.

(** The lines main.py prints through [Terminal.log], without the time. *)
Inductive message :=
| VesselArrives (v : nat)       (* Vessel V{v} arrives at the terminal. *)
| VesselBerths (v : nat)        (* Vessel V{v} berths. *)
| VesselLeaves (v : nat)        (* Vessel V{v} leaves the terminal. *)
| CraneStarts (qc v : nat)      (* Quay Crane QC{qc} starts loading container from Vessel V{v}. *)
| CraneLoads (qc v : nat)       (* Quay Crane QC{qc} loads container from Vessel V{v}. *)
| TruckStarts (t v : nat)       (* Truck T{t} starts transporting container from Vessel V{v} to yard. *)
| TruckDelivers (t v : nat).    (* Truck T{t} delivers container from Vessel V{v} to yard. *)

(** A suspended generator: where it stands, and its live locals. *)
Inductive frame :=
| ArrivalsStart                                   (* vessel_on_the_terminal, not started *)
| ArrivalsYield (i : nat)                         (* at the yield of line 149, iteration i *)
| ArriveStart (v : nat)                           (* Vessel.arrive, not started *)
| ArriveBerth (v berth_request : nat)             (* at the yield of line 63 *)
| ArriveUnload (v berth_request crane : nat)      (* at the yield of line 73 *)
| LoadStart (crane v : nat)                       (* QuayCrane.load_container, not started *)
| LoadYield (crane v : nat)                       (* at the yield of line 105 *)
| TransportStart (truck v : nat)                  (* Truck.transport_container, not started *)
| TransportYield (truck v : nat)                  (* at the yield of line 132 *)
| Exhausted.

(** A [simpy.Process]: its generator and the event it waits for.  The
    process is an event too, stored under the same id in [events]. *)
Record process_obj := Process {
  generator : frame;
  target : option nat
}.

(** An entry of the environment's heap: [(time, priority, eid, event)]. *)
Record entry := Entry {
  time : Q;
  priority : nat;
  seq_no : nat;
  event_of : nat
}.

Definition URGENT : nat := 0.
Definition NORMAL : nat := 1.

(** [simpy.Resource]: [queue] is the list of pending requests
    ([put_queue]), [get_queue] the list of pending releases. *)
Record Resource := MkResource {
  capacity : nat;
  users : list nat;
  queue : list nat;
  get_queue : list nat
}.

(** A [Vessel] object; its name is its key in [vessels]. *)
Record Vessel := MkVessel {
  containers_left : Z;
  action : nat
}.

(** Tuple comparison of heap entries. *)
Definition entry_ltb (a b : entry) : bool :=
  match Qcompare (time a) (time b) with
  | Lt => true
  | Gt => false
  | Eq => (priority a <? priority b)
          || ((priority a =? priority b) && (seq_no a <? seq_no b))
  end.

Definition heappush (q : list entry) (x : entry) : list entry := q ++ [x].

(** [heapq.heappop]: the least entry and the remaining ones. *)
Fixpoint heappop (q : list entry) : option (entry * list entry) :=
  match q with
  | [] => None
  | x :: q' =>
      match heappop q' with
      | None => Some (x, [])
      | Some (m, r) => if entry_ltb m x then Some (m, x :: r) else Some (x, q')
      end
  end.

(** [list.remove]: drops the first occurrence, if any. *)
Fixpoint remove_first (x : nat) (l : list nat) : list nat :=
  match l with
  | [] => []
  | y :: l' => if decide (x = y) then l' else y :: remove_first x l'
  end.

Definition is_pending (o : outcome) : bool :=
  match o with PENDING => true | _ => false end.

(** Is the line one of the two a truck prints? *)
Definition truck_message (m : message) : bool :=
  match m with TruckStarts _ _ | TruckDelivers _ _ => true | _ => false end.

Definition transport_frame (g : frame) : bool :=
  match g with TransportStart _ _ | TransportYield _ _ => true | _ => false end.

Section Simulation.
Context `{Random}.
Context (cfg : config).

(** ** The state of a run *)
Record state := State {
  now : Q;                        (* env._now *)
  _queue : list entry;            (* env._queue *)
  _eid : nat;                     (* env._eid *)
  next_obj : nat;                 (* identity of the next event object *)
  events : gmap nat event;
  procs : gmap nat process_obj;
  berths : Resource;              (* terminal.berths *)
  quay_cranes : list nat;         (* terminal.quay_cranes, QC{i} as i *)
  trucks : list nat;              (* terminal.trucks *)
  vessels : gmap nat Vessel;
  stdout : list (Q * message);    (* the printed lines, oldest first *)
  rng : rng_state
}.

Definition upd_now (f : Q -> Q) (s : state) : state :=
  State (f (now s)) (_queue s) (_eid s) (next_obj s) (events s) (procs s)
        (berths s) (quay_cranes s) (trucks s) (vessels s) (stdout s) (rng s).
Definition upd_queue (f : list entry -> list entry) (s : state) : state :=
  State (now s) (f (_queue s)) (_eid s) (next_obj s) (events s) (procs s)
        (berths s) (quay_cranes s) (trucks s) (vessels s) (stdout s) (rng s).
Definition upd_eid (f : nat -> nat) (s : state) : state :=
  State (now s) (_queue s) (f (_eid s)) (next_obj s) (events s) (procs s)
        (berths s) (quay_cranes s) (trucks s) (vessels s) (stdout s) (rng s).
Definition upd_next_obj (f : nat -> nat) (s : state) : state :=
  State (now s) (_queue s) (_eid s) (f (next_obj s)) (events s) (procs s)
        (berths s) (quay_cranes s) (trucks s) (vessels s) (stdout s) (rng s).
Definition upd_events (f : gmap nat event -> gmap nat event) (s : state) : state :=
  State (now s) (_queue s) (_eid s) (next_obj s) (f (events s)) (procs s)
        (berths s) (quay_cranes s) (trucks s) (vessels s) (stdout s) (rng s).
Definition upd_procs (f : gmap nat process_obj -> gmap nat process_obj) (s : state) : state :=
  State (now s) (_queue s) (_eid s) (next_obj s) (events s) (f (procs s))
        (berths s) (quay_cranes s) (trucks s) (vessels s) (stdout s) (rng s).
Definition upd_berths (f : Resource -> Resource) (s : state) : state :=
  State (now s) (_queue s) (_eid s) (next_obj s) (events s) (procs s)
        (f (berths s)) (quay_cranes s) (trucks s) (vessels s) (stdout s) (rng s).
Definition upd_quay_cranes (f : list nat -> list nat) (s : state) : state :=
  State (now s) (_queue s) (_eid s) (next_obj s) (events s) (procs s)
        (berths s) (f (quay_cranes s)) (trucks s) (vessels s) (stdout s) (rng s).
Definition upd_trucks (f : list nat -> list nat) (s : state) : state :=
  State (now s) (_queue s) (_eid s) (next_obj s) (events s) (procs s)
        (berths s) (quay_cranes s) (f (trucks s)) (vessels s) (stdout s) (rng s).
Definition upd_vessels (f : gmap nat Vessel -> gmap nat Vessel) (s : state) : state :=
  State (now s) (_queue s) (_eid s) (next_obj s) (events s) (procs s)
        (berths s) (quay_cranes s) (trucks s) (f (vessels s)) (stdout s) (rng s).
Definition upd_stdout (f : list (Q * message) -> list (Q * message)) (s : state) : state :=
  State (now s) (_queue s) (_eid s) (next_obj s) (events s) (procs s)
        (berths s) (quay_cranes s) (trucks s) (vessels s) (f (stdout s)) (rng s).
Definition upd_rng (f : rng_state -> rng_state) (s : state) : state :=
  State (now s) (_queue s) (_eid s) (next_obj s) (events s) (procs s)
        (berths s) (quay_cranes s) (trucks s) (vessels s) (stdout s) (f (rng s)).

(** Dereferencing an object id.  Every id the program holds was returned
    by an allocation, so the defaults are never read. *)
Definition the_event (s : state) (e : nat) : event :=
  default (Event KEvent None PENDING false) (events s !! e).
Definition the_proc (s : state) (p : nat) : process_obj :=
  default (Process Exhausted None) (procs s !! p).
Definition the_vessel (s : state) (v : nat) : Vessel :=
  default (MkVessel 0 0) (vessels s !! v).

(** ** Computations that may raise

    A Python call changes the state and either returns or raises; what it
    changed before raising stays changed. *)
Definition M (A : Type) : Type := state -> (exn + A) * state.

Definition ret {A} (a : A) : M A := fun s => (inr a, s).
Definition raise {A} (exc : exn) : M A := fun s => (inl exc, s).
Definition bind {A B} (m : M A) (k : A -> M B) : M B :=
  fun s => match m s with
           | (inl exc, s') => (inl exc, s')
           | (inr a, s') => k a s'
           end.
Definition get : M state := fun s => (inr s, s).
Definition modify (f : state -> state) : M unit := fun s => (inr tt, f s).
(** [try: ... except BaseException] *)
Definition try {A} (m : M A) : M (exn + A) :=
  fun s => (inr (fst (m s)), snd (m s)).

Notation "x <- m ;; k" := (bind m (fun x => k))
  (at level 100, m at next level, right associativity).
Notation "m ;; k" := (bind m (fun _ => k))
  (at level 100, right associativity).

(** ** The SimPy kernel *)

(** [Event(env)], with the callbacks and value its constructor sets. *)
Definition new_event (k : kind) (cbs : list callback) (v : outcome) : M nat :=
  fun s => (inr (next_obj s),
            upd_events <[next_obj s := Event k (Some cbs) v false]>
                       (upd_next_obj S s)).

(** [event.callbacks.append(cb)] *)
Definition add_callback (e : nat) (cb : callback) : M unit :=
  modify (upd_events (alter (fun ev =>
    Event (class_of ev) (option_map (fun l => l ++ [cb]) (callbacks ev))
          (ev_value ev) (defused ev)) e)).

Definition set_value (e : nat) (v : outcome) : M unit :=
  modify (upd_events (alter (fun ev => Event (class_of ev) (callbacks ev) v (defused ev)) e)).

Definition set_defused (e : nat) : M unit :=
  modify (upd_events (alter (fun ev =>
    Event (class_of ev) (callbacks ev) (ev_value ev) true) e)).

Definition set_proc (p : nat) (pr : process_obj) : M unit :=
  modify (upd_procs <[p := pr]>).

(** [Environment.schedule(event, priority, delay)].  The entry is stamped
    with [now + delay], which is computed exactly here; Python computes it
    in binary64 as soon as the clock or the delay is a float. *)
Definition schedule (e : nat) (prio : nat) (delay : Q) : M unit :=
  modify (fun s =>
    upd_eid S (upd_queue (fun q => heappush q (Entry (now s + delay) prio (_eid s) e)) s)).

(** [Event.succeed()] *)
Definition succeed (e : nat) : M unit :=
  s <- get ;;
  if is_pending (ev_value (the_event s e))
  then set_value e Succeeded ;; schedule e NORMAL 0
  else raise RuntimeError.

(** [env.timeout(delay)]: a [Timeout] is triggered when it is created. *)
Definition timeout (delay : Q) : M nat :=
  if Qlt_le_dec delay 0 then raise ValueError
  else e <- new_event KTimeout [] Succeeded ;;
       schedule e NORMAL delay ;;
       ret e.

(** [env.process(generator)]: the [Process] and its [Initialize] event,
    which is scheduled as urgent and will start the generator. *)
Definition process (g : frame) : M nat :=
  p <- new_event KProcess [] PENDING ;;
  init <- new_event KInitialize [CbResume p] Succeeded ;;
  schedule init URGENT 0 ;;
  set_proc p (Process g (Some init)) ;;
  ret p.

(** [Resource._do_put] *)
Definition _do_put (e : nat) : M unit :=
  s <- get ;;
  if length (users (berths s)) <? capacity (berths s)
  then modify (upd_berths (fun r =>
         MkResource (capacity r) (users r ++ [e]) (queue r) (get_queue r))) ;;
       succeed e
  else ret tt.

(** [BaseResource._trigger_put]: [_do_put] returns [None], so the loop
    leaves after the request at index 0. *)
Definition _trigger_put : M unit :=
  s <- get ;;
  match queue (berths s) with
  | [] => ret tt
  | put_event :: rest =>
      _do_put put_event ;;
      s' <- get ;;
      if is_pending (ev_value (the_event s' put_event)) then ret tt
      else modify (upd_berths (fun r =>
             MkResource (capacity r) (users r) (tail (queue r)) (get_queue r)))
  end.

(** [Resource._do_get]: [users.remove(event.request)], a missing request
    is ignored. *)
Definition _do_get (e : nat) : M unit :=
  s <- get ;;
  match class_of (the_event s e) with
  | KRelease request =>
      modify (upd_berths (fun r =>
        MkResource (capacity r) (remove_first request (users r)) (queue r) (get_queue r)))
  | _ => ret tt
  end ;;
  succeed e.

(** [BaseResource._trigger_get] *)
Definition _trigger_get : M unit :=
  s <- get ;;
  match get_queue (berths s) with
  | [] => ret tt
  | get_event :: rest =>
      _do_get get_event ;;
      s' <- get ;;
      if is_pending (ev_value (the_event s' get_event)) then ret tt
      else modify (upd_berths (fun r =>
             MkResource (capacity r) (users r) (queue r) (tail (get_queue r))))
  end.

(** [resource.request()] *)
Definition request : M nat :=
  e <- new_event KRequest [] PENDING ;;
  modify (upd_berths (fun r =>
    MkResource (capacity r) (users r) (queue r ++ [e]) (get_queue r))) ;;
  add_callback e CbTriggerGet ;;
  _trigger_put ;;
  ret e.

(** [resource.release(request)] *)
Definition release (req : nat) : M nat :=
  e <- new_event (KRelease req) [] PENDING ;;
  modify (upd_berths (fun r =>
    MkResource (capacity r) (users r) (queue r) (get_queue r ++ [e]))) ;;
  add_callback e CbTriggerPut ;;
  _trigger_get ;;
  ret e.

(** ** main.py *)

(** [Terminal.log]: prints the clock and the message. *)
Definition log (msg : message) : M unit :=
  modify (fun s => upd_stdout (fun out => out ++ [(now s, msg)]) s).

(** [Vessel.__init__] *)
Definition Vessel_init (name : nat) : M unit :=
  modify (upd_vessels <[name := MkVessel (CONTAINERS_PER_VESSEL cfg) 0]>) ;;
  p <- process (ArriveStart name) ;;
  modify (upd_vessels (alter (fun v => MkVessel (containers_left v) p) name)).

(** [quay_cranes.pop(0)] *)
Definition pop_crane : M nat :=
  fun s => match quay_cranes s with
           | [] => (inl IndexError, s)
           | crane :: rest => (inr crane, upd_quay_cranes (fun _ => rest) s)
           end.

(** Lines 72-82 of [Vessel.arrive]: the test of the [while], then either
    the next service step or the way out. *)
Definition arrive_loop (v berth_request crane : nat) : M (option (nat * frame)) :=
  s <- get ;;
  if (0 <? containers_left (the_vessel s v))%Z
  then p <- process (LoadStart crane v) ;;
       ret (Some (p, ArriveUnload v berth_request crane))
  else modify (upd_quay_cranes (fun l => l ++ [crane])) ;;
       release berth_request ;;
       log (VesselLeaves v) ;;
       ret None.

(** [Vessel.arrive], from the suspension point [pc] to the next one. *)
Definition arrive (v : nat) (pc : frame) : M (option (nat * frame)) :=
  match pc with
  | ArriveStart _ =>
      log (VesselArrives v) ;;
      berth_request <- request ;;
      ret (Some (berth_request, ArriveBerth v berth_request))
  | ArriveBerth _ berth_request =>
      log (VesselBerths v) ;;
      crane <- pop_crane ;;
      arrive_loop v berth_request crane
  | ArriveUnload _ berth_request crane =>
      arrive_loop v berth_request crane
  | _ => ret None
  end.

(** [QuayCrane.load_container] *)
Definition load_container (crane v : nat) (pc : frame) : M (option (nat * frame)) :=
  match pc with
  | LoadStart _ _ =>
      log (CraneStarts crane v) ;;
      e <- timeout (CRANE_CONTAINER_TIME cfg) ;;
      ret (Some (e, LoadYield crane v))
  | _ =>
      modify (upd_vessels (alter (fun x =>
        MkVessel (containers_left x - 1) (action x)) v)) ;;
      log (CraneLoads crane v) ;;
      ret None
  end.

(** [Truck.transport_container] *)
Definition transport_container (truck v : nat) (pc : frame) : M (option (nat * frame)) :=
  match pc with
  | TransportStart _ _ =>
      log (TruckStarts truck v) ;;
      e <- timeout (TRUCK_TRANSPORT_TIME cfg) ;;
      ret (Some (e, TransportYield truck v))
  | _ =>
      log (TruckDelivers truck v) ;;
      ret None
  end.

(** [random.expovariate(lambd)] *)
Definition random_expovariate (lambd : Q) : M Q :=
  fun s => (inr (fst (expovariate lambd (rng s))),
            upd_rng (fun _ => snd (expovariate lambd (rng s))) s).

(** The head of the [for] loop of [vessel_on_the_terminal] for index [i]:
    leave the loop, or draw the interval and suspend on its timeout. *)
Definition arrivals_loop (i : nat) : M (option (nat * frame)) :=
  if i <=? NUM_VESSEL cfg then
    lambd <- (if Qeq_bool (AVERAGE_VESSEL_ARRIVAL_INTERVAL cfg) 0
              then raise ZeroDivisionError
              else ret (1 / AVERAGE_VESSEL_ARRIVAL_INTERVAL cfg)%Q) ;;
    interval <- random_expovariate lambd ;;
    e <- timeout interval ;;
    ret (Some (e, ArrivalsYield i))
  else ret None.

(** [vessel_on_the_terminal] *)
Definition vessel_on_the_terminal (pc : frame) : M (option (nat * frame)) :=
  match pc with
  | ArrivalsStart => arrivals_loop 1
  | ArrivalsYield i =>
      s <- get ;;
      (if length (queue (berths s)) <? NUM_BERTHS cfg
       then Vessel_init i
       else ret tt) ;;
      arrivals_loop (S i)
  | _ => ret None
  end.

(** [generator.send(None)]: run the generator to its next [yield]
    ([Some] of the yielded event and the new frame) or to its end
    ([None], Python's StopIteration). *)
Definition send (g : frame) : M (option (nat * frame)) :=
  match g with
  | ArrivalsStart | ArrivalsYield _ => vessel_on_the_terminal g
  | ArriveStart v | ArriveBerth v _ | ArriveUnload v _ _ => arrive v g
  | LoadStart crane v | LoadYield crane v => load_container crane v g
  | TransportStart truck v | TransportYield truck v => transport_container truck v g
  | Exhausted => ret None
  end.

(** [Process._resume(event)].  None of the generators of main.py catches
    an exception, so an exception thrown into one comes straight back.
    Every event these generators yield was created in the segment that
    yields it, so its callbacks are still a list and the process
    registers and suspends. *)
Definition _resume (p : nat) (e : nat) : M unit :=
  s <- get ;;
  r <- try (match ev_value (the_event s e) with
            | Failed exc => set_defused e ;; raise exc
            | _ => send (generator (the_proc s p))
            end) ;;
  match r with
  | inr (Some (ev, g')) =>
      add_callback ev (CbResume p) ;;
      set_proc p (Process g' (Some ev))
  | inr None =>
      set_value p Succeeded ;;
      schedule p NORMAL 0 ;;
      set_proc p (Process Exhausted None)
  | inl exc =>
      set_value p (Failed exc) ;;
      schedule p NORMAL 0 ;;
      set_proc p (Process Exhausted None)
  end.

Definition run_callback (e : nat) (cb : callback) : M unit :=
  match cb with
  | CbResume p => _resume p e
  | CbTriggerPut => _trigger_put
  | CbTriggerGet => _trigger_get
  | CbStopSimulation => raise StopSimulation
  end.

Fixpoint run_callbacks (e : nat) (cbs : list callback) : M unit :=
  match cbs with
  | [] => ret tt
  | cb :: rest => run_callback e cb ;; run_callbacks e rest
  end.

(** [Environment.step()] *)
Definition step : M unit :=
  s <- get ;;
  match heappop (_queue s) with
  | None => raise EmptySchedule
  | Some (x, q') =>
      let e := event_of x in
      modify (fun s => upd_now (fun _ => time x) (upd_queue (fun _ => q') s)) ;;
      modify (upd_events (alter (fun ev =>
        Event (class_of ev) None (ev_value ev) (defused ev)) e)) ;;
      run_callbacks e (default [] (callbacks (the_event s e))) ;;
      s' <- get ;;
      match ev_value (the_event s' e) with
      | Failed exc => if defused (the_event s' e) then ret tt else raise exc
      | _ => ret tt
      end
  end.

(** [Terminal.__init__]; [simpy.Resource] rejects a capacity of zero. *)
Definition Terminal_init : M unit :=
  (if NUM_BERTHS cfg =? 0 then raise ValueError else ret tt) ;;
  modify (upd_berths (fun _ => MkResource (NUM_BERTHS cfg) [] [] [])) ;;
  modify (upd_quay_cranes (fun _ => seq 1 (NUM_QUAY_CRANES cfg))) ;;
  modify (upd_trucks (fun _ => seq 1 (NUM_TRUCKS cfg))).

(** The part of [env.run(until=...)] before its loop: the until event is
    scheduled as urgent and stops the simulation when it is processed. *)
Definition run_until (at_ : Q) : M unit :=
  s <- get ;;
  if Qle_bool at_ (now s) then raise ValueError
  else until <- new_event KEvent [] Succeeded ;;
       schedule until URGENT (at_ - now s) ;;
       add_callback until CbStopSimulation.

(** The module-level script up to the loop of [env.run] (lines 158-168). *)
Definition boot : M unit :=
  Terminal_init ;;
  process ArrivalsStart ;;
  run_until (SIMULATION_TIME cfg).

Fixpoint steps (n : nat) : M unit :=
  match n with
  | 0 => ret tt
  | S n' => step ;; steps n'
  end.

(** [simpy.Environment()] before anything is created. *)
Definition fresh (seed : rng_state) : state :=
  State 0 [] 0 0 ∅ ∅ (MkResource 0 [] [] []) [] [] ∅ [] seed.

(** The state after [n] iterations of the loop of [env.run], or the state
    in which an exception left the loop earlier. *)
Definition after (n : nat) (seed : rng_state) : (exn + unit) * state :=
  (boot ;; steps n) (fresh seed).

(** How the program ends. *)
Inductive ending :=
| Returned                (* env.run returned at the horizon *)
| Crashed (exc : exn)     (* an exception reached the top level *)
| Running.                (* the loop is still going *)

Definition main (n : nat) (seed : rng_state) : ending * state :=
  match after n seed with
  | (inl StopSimulation, s) => (Returned, s)
  | (inl exc, s) => (Crashed exc, s)
  | (inr _, s) => (Running, s)
  end.

End Simulation.

Arguments state {_}.

Notation "x <- m ;; k" := (bind m (fun x => k))
  (at level 100, m at next level, right associativity).
Notation "m ;; k" := (bind m (fun _ => k))
  (at level 100, right associativity).

(** ** Reasoning about computations *)

Section Logic.
Context `{Random}.

(** [m] started in a state satisfying [P] ends, normally or with an
    exception, in a state and with a result satisfying [Q]. *)
Definition hoare {A} (P : state -> Prop) (m : M A)
    (Q : exn + A -> state -> Prop) : Prop :=
  forall s, P s -> Q (fst (m s)) (snd (m s)).

(** [m] keeps the state property [I], however it ends. *)
Definition preserves {A} (I : state -> Prop) (m : M A) : Prop :=
  hoare I m (fun _ => I).

Lemma hoare_bind {A B} P (m : M A) (k : A -> M B) R Q :
  hoare P m R ->
  (forall exc s, R (inl exc) s -> Q (inl exc) s) ->
  (forall a, hoare (R (inr a)) (k a) Q) ->
  hoare P (bind m k) Q.
Proof.
  intros Hm Hexc Hk s HP. specialize (Hm s HP). unfold bind.
  destruct (m s) as [[exc|a] s']; simpl in *.
  - by apply Hexc.
  - by apply Hk.
Qed.

Lemma hoare_conseq {A} (P P' : state -> Prop) (m : M A) (Q Q' : exn + A -> state -> Prop) :
  hoare P' m Q' -> (forall s, P s -> P' s) -> (forall r s, Q' r s -> Q r s) ->
  hoare P m Q.
Proof. intros Hm HP HQ s Hs. apply HQ, Hm, HP, Hs. Qed.

Lemma preserves_bind {A B} I (m : M A) (k : A -> M B) :
  preserves I m -> (forall a, preserves I (k a)) -> preserves I (bind m k).
Proof. intros Hm Hk. eapply hoare_bind; eauto. Qed.

Lemma preserves_ret {A} I (a : A) : preserves I (ret a).
Proof. by intros s HI. Qed.

Lemma preserves_raise {A} I exc : preserves I (@raise _ A exc).
Proof. by intros s HI. Qed.

Lemma preserves_get I : preserves I get.
Proof. by intros s HI. Qed.

Lemma preserves_try {A} I (m : M A) : preserves I m -> preserves I (try m).
Proof. intros Hm s HI. apply (Hm s HI). Qed.

Lemma preserves_modify I f : (forall s, I s -> I (f s)) -> preserves I (modify f).
Proof. intros Hf s HI. by apply Hf. Qed.

(** [m] keeps [I], and what it returns satisfies [F]. *)
Definition preserves_and {A} (I : state -> Prop) (F : A -> Prop) (m : M A) : Prop :=
  hoare I m (fun r s => I s /\ forall a, r = inr a -> F a).

Lemma preserves_and_bind {A B} I F (m : M A) (k : A -> M B) :
  preserves I m -> (forall a, preserves_and I F (k a)) -> preserves_and I F (bind m k).
Proof.
  intros Hm Hk. eapply hoare_bind; [exact Hm| |exact Hk].
  intros exc s HI. split; [done|]. by intros a [=].
Qed.

Lemma preserves_and_ret {A} I (F : A -> Prop) (a : A) : F a -> preserves_and I F (ret a).
Proof. intros Ha s HI. split; [done|]. by intros a' [= <-]. Qed.

Lemma preserves_and_raise {A} I (F : A -> Prop) exc : preserves_and I F (raise exc).
Proof. intros s HI. split; [done|]. by intros a' [=]. Qed.

Lemma preserves_and_weaken {A} I (F : A -> Prop) (m : M A) :
  preserves_and I F m -> preserves I m.
Proof. intros Hm s HI. apply (Hm s HI). Qed.

(** [try] hands the result, exception or not, to the continuation. *)
Lemma preserves_try_bind {A B} I (F : A -> Prop) (m : M A) (k : exn + A -> M B) :
  preserves_and I F m ->
  (forall r, (forall a, r = inr a -> F a) -> preserves I (k r)) ->
  preserves I (bind (try m) k).
Proof.
  intros Hm Hk s HI. destruct (Hm s HI) as [HI' HF].
  unfold bind, try. simpl. by apply Hk.
Qed.

(** Reading the state first: the continuation may use what it read. *)
Lemma preserves_get_bind {A} I (k : state -> M A) :
  (forall s, I s -> I (snd (k s s))) -> preserves I (bind get k).
Proof. intros Hk s HI. by apply Hk. Qed.

End Logic.

(** One layer of a computation: binds, returns and case distinctions. *)
Ltac pres_step :=
  match goal with
  | |- preserves _ (bind _ _) => apply preserves_bind; [|intros ?]
  | |- preserves _ (ret _) => apply preserves_ret
  | |- preserves _ (raise _) => apply preserves_raise
  | |- preserves _ get => apply preserves_get
  | |- preserves _ (try _) => apply preserves_try
  | |- preserves _ (if ?b then _ else _) => destruct b
  | |- preserves _ (match ?x with _ => _ end) => destruct x
  end.

Ltac pres_and_step :=
  match goal with
  | |- preserves_and _ _ (bind _ _) => apply preserves_and_bind; [|intros ?]
  | |- preserves_and _ _ (ret _) => apply preserves_and_ret
  | |- preserves_and _ _ (raise _) => apply preserves_and_raise
  | |- preserves_and _ _ (if ?b then _ else _) => destruct b
  | |- preserves_and _ _ (match ?x with _ => _ end) => destruct x
  end.

Create HintDb pres.

(** An update that the property does not look at. *)
Ltac untouched :=
  unfold add_callback, set_value, set_defused, set_proc, schedule, log,
    new_event, pop_crane, random_expovariate;
  let HI := fresh "HI" in
  first [ apply preserves_modify; intros ? HI; exact HI
        | intros ? HI; exact HI
        | intros [? ? ? ? ? ? ? [|? ?] ? ? ? ?] HI; exact HI ].

Ltac pres := repeat (first [pres_step | solve [eauto with pres] | solve [untouched]]).
Ltac pres_and :=
  repeat (first [pres_and_step | pres_step | solve [eauto with pres] | solve [untouched]]).

(** ** The capacity of the berth resource *)

Section Capacity.
Context `{Random} (cfg : config).

(** [in_use] is at most the capacity, which is the configured number of
    berths (or still 0 before [Terminal.__init__]). *)
Definition within_capacity (s : state) : Prop :=
  length (users (berths s)) <= capacity (berths s) /\
  capacity (berths s) <= NUM_BERTHS cfg.

Lemma length_remove_first x l : length (remove_first x l) <= length l.
Proof. induction l as [|y l IH]; simpl; [lia|]. case_decide; simpl; lia. Qed.

Lemma capacity_succeed e : preserves within_capacity (succeed e).
Proof. unfold succeed. pres. Qed.

Lemma capacity_do_put e : preserves within_capacity (_do_put e).
Proof.
  apply preserves_get_bind. intros s HI.
  destruct (length (users (berths s)) <? capacity (berths s)) eqn:Hlt; [|done].
  apply Nat.ltb_lt in Hlt. unfold bind at 1, modify.
  apply capacity_succeed. unfold within_capacity in *. destruct s; cbn in *.
  rewrite length_app. simpl. lia.
Qed.
Hint Resolve capacity_succeed capacity_do_put : pres.

Lemma capacity_trigger_put : preserves within_capacity _trigger_put.
Proof. unfold _trigger_put. pres. Qed.

Lemma capacity_do_get e : preserves within_capacity (_do_get e).
Proof.
  unfold _do_get. pres.
  apply preserves_modify. intros s HI. unfold within_capacity in *.
  destruct s; cbn in *. split; [|apply HI].
  etrans; [apply length_remove_first|apply HI].
Qed.
Hint Resolve capacity_trigger_put capacity_do_get : pres.

Lemma capacity_trigger_get : preserves within_capacity _trigger_get.
Proof. unfold _trigger_get. pres. Qed.
Hint Resolve capacity_trigger_get : pres.

Lemma capacity_request : preserves within_capacity request.
Proof. unfold request. pres. Qed.

Lemma capacity_release r : preserves within_capacity (release r).
Proof. unfold release. pres. Qed.
Hint Resolve capacity_request capacity_release : pres.

Lemma capacity_send g : preserves within_capacity (send cfg g).
Proof.
  destruct g; cbn; unfold arrivals_loop, arrive_loop, Vessel_init, timeout, process; pres.
Qed.
Hint Resolve capacity_send : pres.

Lemma capacity_resume p e : preserves within_capacity (_resume cfg p e).
Proof. unfold _resume. pres. Qed.
Hint Resolve capacity_resume : pres.

Lemma capacity_run_callbacks e cbs : preserves within_capacity (run_callbacks cfg e cbs).
Proof. induction cbs as [|cb cbs IH]; simpl; pres. destruct cb; simpl; pres. Qed.
Hint Resolve capacity_run_callbacks : pres.

Lemma capacity_step : preserves within_capacity (step cfg).
Proof. unfold step. pres. Qed.
Hint Resolve capacity_step : pres.

Lemma capacity_steps n : preserves within_capacity (steps cfg n).
Proof. induction n; simpl; pres. Qed.

Lemma capacity_boot : preserves within_capacity (boot cfg).
Proof.
  unfold boot, Terminal_init, run_until, process. pres.
  apply preserves_modify. intros s _. unfold within_capacity. simpl. lia.
Qed.

Lemma capacity_after n seed : within_capacity (snd (after cfg n seed)).
Proof.
  unfold after. apply (preserves_bind within_capacity (boot cfg) (fun _ => steps cfg n)).
  - apply capacity_boot.
  - intros _. apply capacity_steps.
  - unfold within_capacity. simpl. lia.
Qed.

End Capacity.

(** ** Trucks are never started *)

Section NoTruck.
Context `{Random} (cfg : config).

(** No process runs [Truck.transport_container], and no printed line is
    one of its two messages. *)
Definition no_truck (s : state) : Prop :=
  (forall p pr, procs s !! p = Some pr -> transport_frame (generator pr) = false) /\
  (forall x, x ∈ stdout s -> truck_message (snd x) = false).

Lemma no_truck_set_proc p g t :
  transport_frame g = false -> preserves no_truck (set_proc p (Process g t)).
Proof.
  intros Hg. apply preserves_modify. intros s [Hp Hout]. split; [|exact Hout].
  intros q pr. cbn. rewrite lookup_insert. case_decide; [|by apply Hp].
  by intros [= <-].
Qed.

Lemma no_truck_log msg : truck_message msg = false -> preserves no_truck (log msg).
Proof.
  intros Hm. apply preserves_modify. intros s [Hp Hout]. split; [exact Hp|].
  intros x. cbn. rewrite elem_of_app, list_elem_of_singleton.
  intros [Hx| ->]; [by apply Hout|done].
Qed.
Hint Resolve no_truck_set_proc no_truck_log : pres.

Lemma no_truck_succeed e : preserves no_truck (succeed e).
Proof. unfold succeed. pres. Qed.
Hint Resolve no_truck_succeed : pres.

Lemma no_truck_timeout d : preserves no_truck (timeout d).
Proof. unfold timeout. pres. Qed.

Lemma no_truck_process g : transport_frame g = false -> preserves no_truck (process g).
Proof. intros Hg. unfold process. pres. Qed.
Hint Resolve no_truck_timeout no_truck_process : pres.

Lemma no_truck_trigger_put : preserves no_truck _trigger_put.
Proof. unfold _trigger_put, _do_put. pres. Qed.

Lemma no_truck_trigger_get : preserves no_truck _trigger_get.
Proof. unfold _trigger_get, _do_get. pres. Qed.
Hint Resolve no_truck_trigger_put no_truck_trigger_get : pres.

Lemma no_truck_request : preserves no_truck request.
Proof. unfold request. pres. Qed.

Lemma no_truck_release r : preserves no_truck (release r).
Proof. unfold release. pres. Qed.
Hint Resolve no_truck_request no_truck_release : pres.

Lemma no_truck_Vessel_init i : preserves no_truck (Vessel_init cfg i).
Proof. unfold Vessel_init. pres. Qed.
Hint Resolve no_truck_Vessel_init : pres.

(** What [send] yields is again a frame of the generator it ran. *)
Definition yields_no_truck (r : option (nat * frame)) : Prop :=
  forall ev g, r = Some (ev, g) -> transport_frame g = false.

Lemma no_truck_send g :
  transport_frame g = false -> preserves_and no_truck yields_no_truck (send cfg g).
Proof.
  intros Hg. destruct g; try discriminate Hg; cbn;
    unfold arrivals_loop, arrive_loop; pres_and;
    try (intros ? ? [=]; by subst).
Qed.

Lemma no_truck_resume p e : preserves no_truck (_resume cfg p e).
Proof.
  apply preserves_get_bind. intros s HI.
  refine (preserves_try_bind no_truck yields_no_truck _ _ _ _ s HI).
  - assert (transport_frame (generator (the_proc s p)) = false) as Hg.
    { unfold the_proc. destruct (procs s !! p) as [pr|] eqn:Hp; [|done].
      by apply (proj1 HI p). }
    destruct (ev_value _); try by apply no_truck_send.
    pres_and.
  - intros r Hr. destruct r as [exc|[[ev g]|]]; pres.
    apply no_truck_set_proc. by eapply Hr.
Qed.
Hint Resolve no_truck_resume : pres.

Lemma no_truck_run_callbacks e cbs : preserves no_truck (run_callbacks cfg e cbs).
Proof. induction cbs as [|cb cbs IH]; simpl; pres. destruct cb; simpl; pres. Qed.
Hint Resolve no_truck_run_callbacks : pres.

Lemma no_truck_step : preserves no_truck (step cfg).
Proof. unfold step. pres. Qed.
Hint Resolve no_truck_step : pres.

Lemma no_truck_steps n : preserves no_truck (steps cfg n).
Proof. induction n; simpl; pres. Qed.

Lemma no_truck_boot : preserves no_truck (boot cfg).
Proof. unfold boot, Terminal_init, run_until. pres. Qed.

Lemma no_truck_fresh seed : no_truck (fresh seed).
Proof. split; [intros p pr Hp|intros x Hx]; cbn in *; [done|]. by apply elem_of_nil in Hx. Qed.

Lemma no_truck_after n seed : no_truck (snd (after cfg n seed)).
Proof.
  unfold after. apply (preserves_bind no_truck (boot cfg) (fun _ => steps cfg n)).
  - apply no_truck_boot.
  - intros _. apply no_truck_steps.
  - apply no_truck_fresh.
Qed.

(** C9: in every state the program reaches, no process runs
    [Truck.transport_container] and the log has no line of a truck. *)
Theorem trucks_never_run n seed :
  (forall p pr, procs (snd (after cfg n seed)) !! p = Some pr ->
     transport_frame (generator pr) = false) /\
  (forall x, x ∈ stdout (snd (after cfg n seed)) -> truck_message (snd x) = false).
Proof. apply no_truck_after. Qed.

End NoTruck.

(** ** One step of the scheduler, case by case

    The state changes that the segments of main.py are made of, as plain
    functions on states. *)

Section Segments.
Context `{Random} (cfg : config).

Definition alloc (k : kind) (cbs : list callback) (v : outcome) (s : state) : state :=
  upd_events <[next_obj s := Event k (Some cbs) v false]> (upd_next_obj S s).

Definition sched (e prio : nat) (d : Q) (s : state) : state :=
  upd_eid S (upd_queue (fun q => heappush q (Entry (now s + d) prio (_eid s) e)) s).

Definition hooked (e : nat) (cb : callback) (s : state) : state :=
  upd_events (alter (fun ev =>
    Event (class_of ev) (option_map (fun l => l ++ [cb]) (callbacks ev))
          (ev_value ev) (defused ev)) e) s.

Definition valued (e : nat) (v : outcome) (s : state) : state :=
  upd_events (alter (fun ev => Event (class_of ev) (callbacks ev) v (defused ev)) e) s.

Definition logged (msg : message) (s : state) : state :=
  upd_stdout (fun out => out ++ [(now s, msg)]) s.

(** The process waits for [ev] with the frame [g]. *)
Definition suspended (p ev : nat) (g : frame) (s : state) : state :=
  upd_procs <[p := Process g (Some ev)]> (hooked ev (CbResume p) s).

(** The generator of the process ended, by [return] or by an exception. *)
Definition ended (p : nat) (v : outcome) (s : state) : state :=
  upd_procs <[p := Process Exhausted None]> (sched p NORMAL 0 (valued p v s)).

(** [env.process(g)]; the new process is [next_obj s]. *)
Definition spawned (g : frame) (s : state) : state :=
  upd_procs <[next_obj s := Process g (Some (S (next_obj s)))]>
    (sched (S (next_obj s)) URGENT 0
      (alloc KInitialize [CbResume (next_obj s)] Succeeded
        (alloc KProcess [] PENDING s))).

(** [step] has taken [x] off the heap. *)
Definition taken (x : entry) (rest : list entry) (s : state) : state :=
  upd_events (alter (fun ev =>
      Event (class_of ev) None (ev_value ev) (defused ev)) (event_of x))
    (upd_now (fun _ => time x) (upd_queue (fun _ => rest) s)).

(** [_trigger_put]: the oldest pending request gets a berth if one is free. *)
Definition granting (s : state) : state :=
  match queue (berths s) with
  | [] => s
  | h :: _ =>
      if length (users (berths s)) <? capacity (berths s)
      then upd_berths (fun r =>
             MkResource (capacity r) (users r) (tail (queue r)) (get_queue r))
             (sched h NORMAL 0 (valued h Succeeded
               (upd_berths (fun r =>
                  MkResource (capacity r) (users r ++ [h]) (queue r) (get_queue r)) s)))
      else s
  end.

(** [berths.request()]; the request is [next_obj s]. *)
Definition requested (s : state) : state :=
  granting
    (hooked (next_obj s) CbTriggerGet
      (upd_berths (fun r =>
         MkResource (capacity r) (users r) (queue r ++ [next_obj s]) (get_queue r))
        (alloc KRequest [] PENDING s))).

(** [berths.release(r)] *)
Definition released (r : nat) (s : state) : state :=
  sched (next_obj s) NORMAL 0
    (valued (next_obj s) Succeeded
      (upd_berths (fun b =>
         MkResource (capacity b) (remove_first r (users b)) (queue b) (get_queue b))
        (hooked (next_obj s) CbTriggerPut
          (alloc (KRelease r) [] PENDING s)))).

(** [Vessel(env, f"V{i}", terminal)] *)
Definition launched (i : nat) (s : state) : state :=
  upd_vessels (alter (fun v => MkVessel (containers_left v) (next_obj s)) i)
    (spawned (ArriveStart i)
      (upd_vessels <[i := MkVessel (CONTAINERS_PER_VESSEL cfg) 0]> s)).

(** The loop head of [vessel_on_the_terminal] at index [j]. *)
Definition arrivals_next (j p : nat) (s : state) : state :=
  if j <=? NUM_VESSEL cfg then
    if Qeq_bool (AVERAGE_VESSEL_ARRIVAL_INTERVAL cfg) 0
    then ended p (Failed ZeroDivisionError) s
    else
      let d := fst (expovariate (1 / AVERAGE_VESSEL_ARRIVAL_INTERVAL cfg)%Q (rng s)) in
      let s1 := upd_rng (fun _ =>
                  snd (expovariate (1 / AVERAGE_VESSEL_ARRIVAL_INTERVAL cfg)%Q (rng s))) s in
      if Qlt_le_dec d 0 then ended p (Failed ValueError) s1
      else suspended p (next_obj s1) (ArrivalsYield j)
             (sched (next_obj s1) NORMAL d (alloc KTimeout [] Succeeded s1))
  else ended p Succeeded s.

(** Lines 72-82 of [Vessel.arrive]. *)
Definition unloading (p v r crane : nat) (s : state) : state :=
  if (0 <? containers_left (the_vessel s v))%Z
  then suspended p (next_obj s) (ArriveUnload v r crane) (spawned (LoadStart crane v) s)
  else ended p Succeeded
         (logged (VesselLeaves v)
           (released r (upd_quay_cranes (fun l => l ++ [crane]) s))).

(** Lines 66-69 of [Vessel.arrive], then the loop. *)
Definition berthing (p v r : nat) (s : state) : state :=
  match quay_cranes s with
  | [] => ended p (Failed IndexError) (logged (VesselBerths v) s)
  | crane :: pool =>
      unloading p v r crane
        (upd_quay_cranes (fun _ => pool) (logged (VesselBerths v) s))
  end.

(** What [step] raises after the callbacks of an event ran. *)
Definition verdict (ev : event) : exn + unit :=
  match ev_value ev with
  | Failed exc => if defused ev then inr tt else inl exc
  | _ => inr tt
  end.

(** The cases of [step]: which callbacks the event taken off the heap
    carries and where the process they resume stands. *)
Inductive transition (s : state) : state -> Prop :=
| T_empty :
    heappop (_queue s) = None ->
    transition s s
| T_stop x rest k v d :
    heappop (_queue s) = Some (x, rest) ->
    events s !! event_of x = Some (Event k (Some [CbStopSimulation]) v d) ->
    transition s (taken x rest s)
| T_release x rest r d :
    heappop (_queue s) = Some (x, rest) ->
    events s !! event_of x = Some (Event (KRelease r) (Some [CbTriggerPut]) Succeeded d) ->
    transition s (granting (taken x rest s))
| T_done x rest v d :
    heappop (_queue s) = Some (x, rest) ->
    events s !! event_of x = Some (Event KProcess (Some []) v d) ->
    transition s (taken x rest s)
| T_arrivals_start x rest k d p t :
    heappop (_queue s) = Some (x, rest) ->
    events s !! event_of x = Some (Event k (Some [CbResume p]) Succeeded d) ->
    procs s !! p = Some (Process ArrivalsStart t) ->
    transition s (arrivals_next 1 p (taken x rest s))
| T_arrivals_yield x rest k d p t i :
    heappop (_queue s) = Some (x, rest) ->
    events s !! event_of x = Some (Event k (Some [CbResume p]) Succeeded d) ->
    procs s !! p = Some (Process (ArrivalsYield i) t) ->
    transition s
      (arrivals_next (S i) p
         (if length (queue (berths s)) <? NUM_BERTHS cfg
          then launched i (taken x rest s)
          else taken x rest s))
| T_arrive_start x rest k d p t v :
    heappop (_queue s) = Some (x, rest) ->
    events s !! event_of x = Some (Event k (Some [CbResume p]) Succeeded d) ->
    procs s !! p = Some (Process (ArriveStart v) t) ->
    transition s
      (suspended p (next_obj s) (ArriveBerth v (next_obj s))
         (requested (logged (VesselArrives v) (taken x rest s))))
| T_arrive_berth x rest d p t v r :
    heappop (_queue s) = Some (x, rest) ->
    events s !! event_of x =
      Some (Event KRequest (Some [CbTriggerGet; CbResume p]) Succeeded d) ->
    procs s !! p = Some (Process (ArriveBerth v r) t) ->
    transition s (berthing p v r (taken x rest s))
| T_arrive_unload x rest d p t v r crane :
    heappop (_queue s) = Some (x, rest) ->
    events s !! event_of x = Some (Event KProcess (Some [CbResume p]) Succeeded d) ->
    procs s !! p = Some (Process (ArriveUnload v r crane) t) ->
    transition s (unloading p v r crane (taken x rest s))
| T_arrive_thrown x rest d p t v r crane exc :
    heappop (_queue s) = Some (x, rest) ->
    events s !! event_of x = Some (Event KProcess (Some [CbResume p]) (Failed exc) d) ->
    procs s !! p = Some (Process (ArriveUnload v r crane) t) ->
    transition s
      (ended p (Failed exc)
         (upd_events (alter (fun ev =>
            Event (class_of ev) (callbacks ev) (ev_value ev) true) (event_of x))
           (taken x rest s)))
| T_load_start x rest k d p t crane v :
    heappop (_queue s) = Some (x, rest) ->
    events s !! event_of x = Some (Event k (Some [CbResume p]) Succeeded d) ->
    procs s !! p = Some (Process (LoadStart crane v) t) ->
    transition s
      (let s1 := logged (CraneStarts crane v) (taken x rest s) in
       if Qlt_le_dec (CRANE_CONTAINER_TIME cfg) 0
       then ended p (Failed ValueError) s1
       else suspended p (next_obj s1) (LoadYield crane v)
              (sched (next_obj s1) NORMAL (CRANE_CONTAINER_TIME cfg)
                 (alloc KTimeout [] Succeeded s1)))
| T_load_yield x rest k d p t crane v :
    heappop (_queue s) = Some (x, rest) ->
    events s !! event_of x = Some (Event k (Some [CbResume p]) Succeeded d) ->
    procs s !! p = Some (Process (LoadYield crane v) t) ->
    transition s
      (ended p Succeeded
         (logged (CraneLoads crane v)
           (upd_vessels (alter (fun x =>
              MkVessel (containers_left x - 1) (action x)) v)
             (taken x rest s)))).


(** *** The shape of a reachable state

    Which callbacks an unprocessed event carries is determined by the
    process that waits for it. *)

(** The class, callbacks and value of the event object [e], if any. *)
Definition cls (s : state) (e : nat) : option kind :=
  class_of <$> events s !! e.
Definition cbs (s : state) (e : nat) : option (option (list callback)) :=
  callbacks <$> events s !! e.
Definition val (s : state) (e : nat) : option outcome :=
  ev_value <$> events s !! e.

Definition scheduled (s : state) (e : nat) : Prop :=
  e ∈ event_of <$> _queue s.

(** [e] is the [Initialize] or [Timeout] event that will resume [p]. *)
Definition wakes (s : state) (e p : nat) : Prop :=
  (cls s e = Some KInitialize \/ cls s e = Some KTimeout) /\
  cbs s e = Some (Some [CbResume p]) /\
  val s e = Some Succeeded.

(** The process [p] has not ended: as an event it is pending, unscheduled,
    and carries the callbacks [c]. *)
Definition own_pending (s : state) (p : nat) (c : list callback) : Prop :=
  cls s p = Some KProcess /\ cbs s p = Some (Some c) /\
  val s p = Some PENDING /\ ~ scheduled s p.

Definition proc_ok (s : state) (p : nat) (pr : process_obj) : Prop :=
  match generator pr with
  | Exhausted => target pr = None
  | TransportStart _ _ | TransportYield _ _ => False
  | ArrivalsStart | ArrivalsYield _ | ArriveStart _ =>
      exists e, target pr = Some e /\ wakes s e p /\ own_pending s p []
  | ArriveBerth v r =>
      target pr = Some r /\ own_pending s p [] /\
      cls s r = Some KRequest /\ cbs s r = Some (Some [CbTriggerGet; CbResume p])
  | ArriveUnload v r crane =>
      exists l, target pr = Some l /\ own_pending s p [] /\
        cls s l = Some KProcess /\ cbs s l = Some (Some [CbResume p]) /\
        (exists gl tl, procs s !! l = Some (Process gl tl) /\
           (gl = LoadStart crane v \/ gl = LoadYield crane v \/ gl = Exhausted))
  | LoadStart crane v | LoadYield crane v =>
      exists e q r, target pr = Some e /\ wakes s e p /\
        own_pending s p [CbResume q] /\
        procs s !! q = Some (Process (ArriveUnload v r crane) (Some p))
  end.

Definition heap_ok (s : state) (e : nat) : Prop :=
  exists k c, cls s e = Some k /\ cbs s e = Some (Some c) /\
    match k with
    | KEvent => c = [CbStopSimulation]
    | KRelease _ => c = [CbTriggerPut] /\ val s e = Some Succeeded
    | KTimeout | KInitialize =>
        val s e = Some Succeeded /\
        exists q g, c = [CbResume q] /\ procs s !! q = Some (Process g (Some e))
    | KRequest =>
        val s e = Some Succeeded /\
        exists q u, c = [CbTriggerGet; CbResume q] /\
          procs s !! q = Some (Process (ArriveBerth u e) (Some e))
    | KProcess =>
        val s e <> Some PENDING /\ procs s !! e = Some (Process Exhausted None) /\
        (c = [] \/
         exists q u r crane, c = [CbResume q] /\
           procs s !! q = Some (Process (ArriveUnload u r crane) (Some e)))
    end.

(** What a step leaves alone: the objects that existed before, apart from
    the event [e] taken off the heap and the objects in [D] (the process
    that ran, the request that was granted). *)
Record footprint (s s' : state) (e : nat) (D : nat -> Prop) : Prop := {
  fp_next : next_obj s <= next_obj s';
  fp_cls : forall a, a < next_obj s -> cls s' a = cls s a;
  fp_cbs : forall a, a < next_obj s -> a <> e -> cbs s' a = cbs s a;
  fp_val : forall a, a < next_obj s -> ~ D a -> val s' a = val s a;
  fp_procs : forall a, a < next_obj s -> ~ D a -> procs s' !! a = procs s !! a;
  fp_sched : forall a, scheduled s' a -> a < next_obj s -> ~ D a ->
             scheduled s a /\ a <> e
}.

(** The same for a part of a step, for the objects below [n]. *)
Record changes (n : nat) (D : nat -> Prop) (s s' : state) : Prop := {
  c_next : next_obj s <= next_obj s';
  c_cls : forall a, a < n -> cls s' a = cls s a;
  c_cbs : forall a, a < n -> cbs s' a = cbs s a;
  c_val : forall a, a < n -> ~ D a -> val s' a = val s a;
  c_procs : forall a, a < n -> ~ D a -> procs s' !! a = procs s !! a;
  c_sched : forall a, a < n -> ~ D a -> scheduled s' a -> scheduled s a
}.

Definition waiting_ok (s : state) (r : nat) : Prop :=
  exists p v,
    cls s r = Some KRequest /\ cbs s r = Some (Some [CbTriggerGet; CbResume p]) /\
    val s r = Some PENDING /\
    procs s !! p = Some (Process (ArriveBerth v r) (Some r)) /\
    ~ scheduled s r.

Record kernel (s : state) : Prop := {
  k_fresh : forall e, next_obj s <= e -> events s !! e = None /\ procs s !! e = None;
  k_nodup : NoDup (event_of <$> _queue s);
  k_heap : forall x, x ∈ _queue s -> heap_ok s (event_of x);
  k_procs : forall p pr, procs s !! p = Some pr -> proc_ok s p pr;
  k_proc_cls : forall p pr, procs s !! p = Some pr -> cls s p = Some KProcess;
  k_waiting : forall r, r ∈ queue (berths s) -> waiting_ok s r;
  k_waiting_nodup : NoDup (queue (berths s));
  k_get : get_queue (berths s) = []
}.

End Segments.

Section Execution.
Context `{Random} (cfg : config).

Local Arguments _trigger_put : simpl never.
Local Arguments _trigger_get : simpl never.
Local Arguments request : simpl never.
Local Arguments release : simpl never.
Local Arguments granting : simpl never.

Lemma heappop_elem q x rest :
  heappop q = Some (x, rest) -> exists l1 l2, q = l1 ++ x :: l2 /\ rest = l1 ++ l2.
Proof.
  revert x rest. induction q as [|y q IH]; intros x rest; simpl; [done|].
  destruct (heappop q) as [[m r]|] eqn:Hq.
  - destruct (entry_ltb m y).
    + intros [= <- <-]. destruct (IH m r eq_refl) as (l1 & l2 & -> & ->).
      by exists (y :: l1), l2.
    + intros [= <- <-]. by exists [], q.
  - intros [= <- <-]. destruct q; [|simpl in Hq; by destruct (heappop q) as [[? ?]|]; [destruct (entry_ltb _ _)|]].
    by exists [], [].
Qed.

Lemma trigger_put_granting (s : state) :
  (forall h rest, queue (berths s) = h :: rest ->
     exists ev, events s !! h = Some ev /\ ev_value ev = PENDING) ->
  _trigger_put s = (inr tt, granting s).
Proof.
  intros Hhead. unfold _trigger_put, granting, bind, get.
  destruct (queue (berths s)) as [|h rest] eqn:Hq; [done|].
  destruct (Hhead h rest eq_refl) as (ev & Hev & Hval).
  unfold _do_put, bind, get.
  destruct (length (users (berths s)) <? capacity (berths s)) eqn:Hcap.
  - unfold modify, succeed, bind, get. cbn.
    unfold the_event in *. cbn. rewrite Hev. cbn. rewrite Hval. cbn.
    unfold the_event. cbn. rewrite lookup_alter_eq, Hev. cbn. done.
  - cbn. unfold the_event. rewrite Hev. cbn. by rewrite Hval.
Qed.

Lemma process_eq g (s : state) : process g s = (inr (next_obj s), spawned g s).
Proof. reflexivity. Qed.

Lemma request_eq (s : state) :
  (forall h rest, queue (berths s) = h :: rest ->
     exists ev, events s !! h = Some ev /\ ev_value ev = PENDING) ->
  request s = (inr (next_obj s), requested s).
Proof.
  intros Hhead. unfold request, requested, bind. cbn.
  rewrite trigger_put_granting; [done|].
  intros h rest. cbn. rewrite lookup_alter.
  destruct (queue (berths s)) as [|h' rest'] eqn:Hq; cbn.
  - intros [= <- <-]. rewrite decide_True by done. rewrite lookup_insert_eq.
    eexists; split; [done|done].
  - intros [= <- <-]. destruct (Hhead h' rest' eq_refl) as (ev & Hev & Hval).
    case_decide as Hd.
    + subst h'. rewrite lookup_insert_eq. eexists; split; [done|done].
    + rewrite lookup_insert_ne by done. by exists ev.
Qed.

Lemma release_eq r (s : state) :
  get_queue (berths s) = [] ->
  release r s = (inr (next_obj s), released r s).
Proof.
  intros Hg. unfold release, released, bind. cbn.
  unfold _trigger_get, bind, get. cbn. rewrite Hg. cbn.
  unfold _do_get, bind, get. cbn. unfold the_event. cbn.
  rewrite lookup_alter_eq, lookup_insert_eq. cbn.
  unfold succeed, bind, get. cbn. unfold the_event. cbn.
  rewrite lookup_alter_eq, lookup_insert_eq. cbn.
  unfold the_event. cbn. rewrite lookup_alter_eq, lookup_alter_eq, lookup_insert_eq. cbn.
  destruct s as [? ? ? ? ? ? [? ? ? ?] ? ? ? ? ?]. cbn in *. subst. reflexivity.
Qed.

(** What [_resume] does with the outcome of the generator. *)
Definition settle (p : nat) (r : (exn + option (nat * frame)) * state) : state :=
  match r with
  | (inr (Some (ev, g)), s') => suspended p ev g s'
  | (inr None, s') => ended p Succeeded s'
  | (inl exc, s') => ended p (Failed exc) s'
  end.

Lemma resume_send p e g t (s : state) :
  procs s !! p = Some (Process g t) ->
  (forall exc, ev_value (the_event s e) <> Failed exc) ->
  _resume cfg p e s = (inr tt, settle p (send cfg g s)).
Proof.
  intros Hp Hv. unfold _resume, bind, get, try. unfold the_proc. rewrite Hp. cbn.
  destruct (ev_value (the_event s e)) eqn:Hval; [| |by destruct (Hv exc)].
  - destruct (send cfg g s) as [[exc|[[ev g']|]] s']; reflexivity.
  - destruct (send cfg g s) as [[exc|[[ev g']|]] s']; reflexivity.
Qed.

Lemma resume_throw p e exc (s : state) :
  ev_value (the_event s e) = Failed exc ->
  _resume cfg p e s =
  (inr tt, ended p (Failed exc)
     (upd_events (alter (fun ev =>
        Event (class_of ev) (callbacks ev) (ev_value ev) true) e) s)).
Proof. intros Hv. unfold _resume, bind, get, try. rewrite Hv. reflexivity. Qed.

Lemma arrivals_loop_eq j p (s : state) :
  settle p (arrivals_loop cfg j s) = arrivals_next cfg j p s.
Proof.
  unfold arrivals_loop, arrivals_next. destruct (j <=? NUM_VESSEL cfg); [|done].
  unfold bind. destruct (Qeq_bool _ _); [done|]. cbn.
  unfold timeout. destruct (Qlt_le_dec _ _); reflexivity.
Qed.

Lemma arrive_loop_eq p v r crane (s : state) :
  get_queue (berths s) = [] ->
  settle p (arrive_loop v r crane s) = unloading p v r crane s.
Proof.
  intros Hg. unfold arrive_loop, unloading, bind, get.
  destruct (0 <? containers_left (the_vessel s v))%Z; [reflexivity|].
  cbn. rewrite release_eq by done. reflexivity.
Qed.

(** [step] runs the callbacks in the state [taken], then looks at the
    event once more. *)
Lemma step_unfold (s : state) x rest :
  heappop (_queue s) = Some (x, rest) ->
  step cfg s =
  match run_callbacks cfg (event_of x)
          (default [] (callbacks (the_event s (event_of x)))) (taken x rest s) with
  | (inl exc, s') => (inl exc, s')
  | (inr _, s') => (verdict (the_event s' (event_of x)), s')
  end.
Proof.
  intros Hpop. unfold step, bind at 1, get. rewrite Hpop.
  unfold bind, modify. fold (taken x rest s).
  destruct (run_callbacks _ _ _ _) as [[exc|[]] s']; [done|].
  unfold get, verdict.
  destruct (ev_value (the_event s' (event_of x))); try done.
  by destruct (defused (the_event s' (event_of x))).
Qed.

Lemma taken_event (s : state) x rest k cbs v d :
  events s !! event_of x = Some (Event k cbs v d) ->
  the_event (taken x rest s) (event_of x) = Event k None v d.
Proof. intros Hev. unfold the_event. cbn. by rewrite lookup_alter_eq, Hev. Qed.

Lemma scheduled_taken (s : state) x rest e :
  heappop (_queue s) = Some (x, rest) ->
  scheduled (taken x rest s) e -> scheduled s e.
Proof.
  intros Hpop. destruct (heappop_elem _ _ _ Hpop) as (l1 & l2 & Hq & ->).
  unfold scheduled. cbn. rewrite Hq, !fmap_app, fmap_cons, !elem_of_app, elem_of_cons.
  tauto.
Qed.

Lemma waiting_head_pending (s : state) x rest :
  kernel s -> forall h tl, queue (berths (taken x rest s)) = h :: tl ->
  exists ev, events (taken x rest s) !! h = Some ev /\ ev_value ev = PENDING.
Proof.
  intros K h tl Hq. cbn in Hq.
  destruct (k_waiting _ K h) as (p & v & _ & _ & Hval & _); [rewrite Hq; left|].
  unfold val in Hval. destruct (events s !! h) as [ev|] eqn:Hev; [|done].
  injection Hval as Hval.
  cbn. rewrite lookup_alter. case_decide as Hd; [rewrite Hd in *|];
    rewrite Hev; eexists; split; done.
Qed.

Lemma step_snd (s : state) x rest k cbs v d :
  heappop (_queue s) = Some (x, rest) ->
  events s !! event_of x = Some (Event k (Some cbs) v d) ->
  snd (step cfg s) = snd (run_callbacks cfg (event_of x) cbs (taken x rest s)).
Proof.
  intros Hpop Hev. rewrite (step_unfold _ _ _ Hpop).
  unfold the_event at 1. rewrite Hev. cbn.
  by destruct (run_callbacks _ _ _ _) as [[exc|[]] s'].
Qed.

Lemma run_resume e p (s : state) :
  snd (run_callbacks cfg e [CbResume p] s) = snd (_resume cfg p e s).
Proof.
  unfold run_callbacks, run_callback, bind, ret.
  by destruct (_resume cfg p e s) as [[exc|[]] s'].
Qed.

Lemma Vessel_init_eq i (s : state) : Vessel_init cfg i s = (inr tt, launched cfg i s).
Proof.
  unfold Vessel_init, launched, bind, modify. rewrite process_eq.
  cbv beta iota. reflexivity.
Qed.

Lemma event_fields (s : state) e k c v :
  cls s e = Some k -> cbs s e = Some c -> val s e = Some v ->
  exists d, events s !! e = Some (Event k c v d).
Proof.
  unfold cls, cbs, val. destruct (events s !! e) as [[k' c' v' d]|]; [|done].
  cbn. intros [= ->] [= ->] [= ->]. by exists d.
Qed.

Lemma event_fields_any (s : state) e k c :
  cls s e = Some k -> cbs s e = Some c ->
  exists v d, events s !! e = Some (Event k c v d) /\ val s e = Some v.
Proof.
  unfold cls, cbs, val. destruct (events s !! e) as [[k' c' v' d]|]; [|done].
  cbn. intros [= ->] [= ->]. by exists v', d.
Qed.

(** An [Initialize] or [Timeout] event resumes the process it belongs to. *)
Lemma wake_transition (s : state) x rest k d q g :
  kernel s ->
  heappop (_queue s) = Some (x, rest) ->
  events s !! event_of x = Some (Event k (Some [CbResume q]) Succeeded d) ->
  k = KTimeout \/ k = KInitialize ->
  procs s !! q = Some (Process g (Some (event_of x))) ->
  transition cfg s (settle q (send cfg g (taken x rest s))).
Proof.
  intros K Hpop Hev Hk Hq.
  pose proof (k_procs _ K q _ Hq) as Hok. unfold proc_ok in Hok. cbn in Hok.
  destruct g.
  - cbn [send vessel_on_the_terminal]. rewrite arrivals_loop_eq.
    eapply T_arrivals_start; eauto.
  - cbn [send vessel_on_the_terminal]. unfold bind at 1, get. unfold bind at 1.
    change (berths (taken x rest s)) with (berths s).
    destruct (length (queue (berths s)) <? NUM_BERTHS cfg) eqn:Hlen.
    + rewrite Vessel_init_eq, arrivals_loop_eq.
      pose proof (T_arrivals_yield cfg s x rest _ _ _ _ _ Hpop Hev Hq) as HT.
      by rewrite Hlen in HT.
    + unfold ret. rewrite arrivals_loop_eq.
      pose proof (T_arrivals_yield cfg s x rest _ _ _ _ _ Hpop Hev Hq) as HT.
      by rewrite Hlen in HT.
  - cbn [send arrive]. unfold bind at 1. cbn [log modify].
    fold (logged (VesselArrives v) (taken x rest s)).
    unfold bind. rewrite request_eq.
    + exact (T_arrive_start cfg s x rest _ _ _ _ _ Hpop Hev Hq).
    + exact (waiting_head_pending s x rest K).
  - destruct Hok as ([= <-] & _ & Hr & _). unfold cls in Hr. rewrite Hev in Hr.
    destruct Hk as [->| ->]; discriminate.
  - destruct Hok as (l & [= <-] & _ & Hl & _). unfold cls in Hl. rewrite Hev in Hl.
    destruct Hk as [->| ->]; discriminate.
  - cbn [send load_container]. unfold bind at 1. cbn [log modify].
    fold (logged (CraneStarts crane v) (taken x rest s)).
    pose proof (T_load_start cfg s x rest _ _ _ _ _ _ Hpop Hev Hq) as HT.
    cbn zeta in HT. unfold bind, timeout.
    destruct (Qlt_le_dec (CRANE_CONTAINER_TIME cfg) 0); exact HT.
  - exact (T_load_yield cfg s x rest _ _ _ _ _ _ Hpop Hev Hq).
  - done.
  - done.
  - done.
Qed.

Lemma berthing_eq p v r (s : state) :
  get_queue (berths s) = [] ->
  settle p (send cfg (ArriveBerth v r) s) = berthing p v r s.
Proof.
  intros Hg. cbn [send arrive]. unfold bind at 1. cbn [log modify].
  fold (logged (VesselBerths v) s). unfold bind at 1, pop_crane, berthing.
  change (quay_cranes (logged (VesselBerths v) s)) with (quay_cranes s).
  destruct (quay_cranes s) as [|crane pool]; [reflexivity|].
  by rewrite arrive_loop_eq.
Qed.

Lemma run_request e p (s : state) :
  get_queue (berths s) = [] ->
  snd (run_callbacks cfg e [CbTriggerGet; CbResume p] s) = snd (_resume cfg p e s).
Proof.
  intros Hg.
  assert (_trigger_get s = (inr tt, s)) as Hget.
  { unfold _trigger_get, bind, get. by rewrite Hg. }
  unfold run_callbacks, run_callback, bind, ret. rewrite Hget.
  by destruct (_resume cfg p e s) as [[exc|[]] s'].
Qed.

Lemma run_release e (s : state) :
  (forall h rest, queue (berths s) = h :: rest ->
     exists ev, events s !! h = Some ev /\ ev_value ev = PENDING) ->
  snd (run_callbacks cfg e [CbTriggerPut] s) = granting s.
Proof.
  intros Hhead. unfold run_callbacks, run_callback, bind, ret.
  by rewrite trigger_put_granting.
Qed.

(** Under the kernel invariant a step is one of the transitions. *)
Theorem step_transition (s : state) :
  kernel s -> transition cfg s (snd (step cfg s)).
Proof.
  intros K.
  destruct (heappop (_queue s)) as [[x rest]|] eqn:Hpop.
  2:{ unfold step, bind, get. rewrite Hpop. apply T_empty; done. }
  destruct (heappop_elem _ _ _ Hpop) as (l1 & l2 & Hq & Hrest).
  assert (x ∈ _queue s) as Hx by (rewrite Hq, elem_of_app, elem_of_cons; tauto).
  destruct (k_heap _ K x Hx) as (k & c & Hcls & Hcbs & Hshape).
  destruct (event_fields_any _ _ _ _ Hcls Hcbs) as (v & d & Hev & Hval).
  rewrite (step_snd _ _ _ _ _ _ _ Hpop Hev).
  pose proof (taken_event _ _ rest _ _ _ _ Hev) as Htaken.
  destruct k.
  - (* the until event *)
    subst c. exact (T_stop cfg s x rest _ _ _ Hpop Hev).
  - (* a timeout *)
    destruct Hshape as (Hv & q & g & -> & Hq'). rewrite Hv in Hval. injection Hval as <-.
    rewrite run_resume.
    erewrite resume_send; [|exact Hq'|by rewrite Htaken].
    eapply wake_transition; eauto.
  - (* the start of a process *)
    destruct Hshape as (Hv & q & g & -> & Hq'). rewrite Hv in Hval. injection Hval as <-.
    rewrite run_resume.
    erewrite resume_send; [|exact Hq'|by rewrite Htaken].
    eapply wake_transition; eauto.
  - (* a process that ended *)
    destruct Hshape as (Hv & Hp & [->|(q & u & r & crane & -> & Hq')]).
    + exact (T_done cfg s x rest _ _ Hpop Hev).
    + rewrite run_resume. destruct v as [| |exc]; [by rewrite Hval in Hv| |].
      * erewrite resume_send; [|exact Hq'|by rewrite Htaken].
        cbn [send arrive]. rewrite arrive_loop_eq by apply (k_get _ K).
        eapply T_arrive_unload; eauto.
      * rewrite resume_throw with (exc := exc) by (by rewrite Htaken).
        eapply T_arrive_thrown; eauto.
  - (* a granted request *)
    destruct Hshape as (Hv & q & u & -> & Hq'). rewrite Hv in Hval. injection Hval as <-.
    rewrite run_request by apply (k_get _ K).
    erewrite resume_send; [|exact Hq'|by rewrite Htaken].
    rewrite berthing_eq by apply (k_get _ K).
    eapply T_arrive_berth; eauto.
  - (* a release *)
    destruct Hshape as (-> & Hv). rewrite Hv in Hval. injection Hval as <-.
    rewrite run_release by apply (waiting_head_pending s x rest K).
    eapply T_release; eauto.
Qed.

End Execution.

Section KernelInvariant.
Context `{Random} (cfg : config).

Lemma fmap_alter_same {A B} (proj : A -> B) (f : A -> A) (a e : nat) (m : gmap nat A) :
  (forall x, proj (f x) = proj x) ->
  proj <$> alter f a m !! e = proj <$> m !! e.
Proof.
  intros Hf. rewrite lookup_alter. case_decide; [subst|done].
  destruct (m !! e); cbn; [by rewrite Hf|done].
Qed.

(** [rest] is the heap [q] without its entry [x]. *)
Definition removal (q : list entry) (x : entry) (rest : list entry) : Prop :=
  exists l1 l2, q = l1 ++ x :: l2 /\ rest = l1 ++ l2.

Lemma heappop_removal q x rest : heappop q = Some (x, rest) -> removal q x rest.
Proof. apply heappop_elem. Qed.

Lemma heappop_rest (s : state) x rest :
  NoDup (event_of <$> _queue s) ->
  removal (_queue s) x rest ->
  x ∈ _queue s /\ NoDup (event_of <$> rest) /\
  (forall y, y ∈ rest -> y ∈ _queue s) /\
  (forall e, e ∈ event_of <$> rest -> e ∈ event_of <$> _queue s /\ e <> event_of x).
Proof.
  intros Hnd (l1 & l2 & Hq & ->).
  rewrite Hq in *. rewrite fmap_app, fmap_cons in Hnd.
  apply NoDup_app in Hnd as (Hnd1 & Hdis & Hnd2).
  apply NoDup_cons in Hnd2 as (Hx2 & Hnd2).
  split; [rewrite elem_of_app, elem_of_cons; tauto|].
  split.
  { rewrite fmap_app. apply NoDup_app. split; [done|]. split; [|done].
    intros e He1 He2. apply (Hdis e He1). by right. }
  split.
  { intros y. rewrite !elem_of_app, elem_of_cons. tauto. }
  intros e. rewrite !fmap_app, fmap_cons, !elem_of_app, elem_of_cons.
  intros [He|He]; (split; [tauto|]); intros ->.
  - apply (Hdis _ He). by left.
  - done.
Qed.

Ltac ev_norm :=
  repeat first
    [ rewrite fmap_alter_same by (intros []; reflexivity)
    | rewrite lookup_alter
    | rewrite lookup_insert ].

Ltac ev_norm_in H :=
  repeat first
    [ rewrite fmap_alter_same in H by (intros []; reflexivity)
    | rewrite lookup_alter in H
    | rewrite lookup_insert in H ].

Lemma old_event (s : state) a :
  kernel s -> events s !! a <> None -> a < next_obj s.
Proof.
  intros K Ha. destruct (decide (a < next_obj s)) as [|Hge]; [done|].
  destruct (k_fresh _ K a); [lia|done].
Qed.

Lemma old_cls (s : state) a k : kernel s -> cls s a = Some k -> a < next_obj s.
Proof.
  intros K Ha. apply (old_event s a K). unfold cls in Ha.
  by destruct (events s !! a).
Qed.

Lemma old_proc (s : state) a pr : kernel s -> procs s !! a = Some pr -> a < next_obj s.
Proof.
  intros K Ha. destruct (decide (a < next_obj s)) as [|Hge]; [done|].
  destruct (k_fresh _ K a) as [_ Hn]; [lia|congruence].
Qed.

Lemma scheduled_sched a prio d (s : state) b :
  scheduled (sched a prio d s) b <-> scheduled s b \/ b = a.
Proof.
  unfold scheduled.
  change (_queue (sched a prio d s))
    with (_queue s ++ [Entry (now s + d) prio (_eid s) a]).
  rewrite fmap_app, elem_of_app. cbn. by rewrite list_elem_of_singleton.
Qed.

Lemma scheduled_ended p v (s : state) b :
  scheduled (ended p v s) b <-> scheduled s b \/ b = p.
Proof. apply (scheduled_sched p NORMAL 0 (valued p v s) b). Qed.

Lemma scheduled_spawned g (s : state) b :
  scheduled (spawned g s) b <-> scheduled s b \/ b = S (next_obj s).
Proof.
  apply (scheduled_sched (S (next_obj s)) URGENT 0
           (alloc KInitialize [CbResume (next_obj s)] Succeeded
              (alloc KProcess [] PENDING s)) b).
Qed.

Lemma scheduled_released r (s : state) b :
  scheduled (released r s) b <-> scheduled s b \/ b = next_obj s.
Proof. unfold released. by rewrite scheduled_sched. Qed.

Lemma scheduled_granting (s : state) b :
  scheduled (granting s) b ->
  scheduled s b \/
  (exists tl, queue (berths s) = b :: tl /\
     length (users (berths s)) < capacity (berths s)).
Proof.
  unfold granting. destruct (queue (berths s)) as [|h tl]; [tauto|].
  destruct (_ <? _) eqn:Hlt; [|tauto]. apply Nat.ltb_lt in Hlt.
  intros Hb.
  apply (scheduled_sched h NORMAL 0 (valued h Succeeded
           (upd_berths (fun r =>
              MkResource (capacity r) (users r ++ [h]) (queue r) (get_queue r)) s)) b)
    in Hb as [Hb| ->]; [by left|].
  right. by exists tl.
Qed.

Section Changes.
Context (n : nat) (D : nat -> Prop).

Lemma changes_refl (s : state) : changes n D s s.
Proof. by split. Qed.

Lemma changes_trans (s1 s2 s3 : state) :
  changes n D s1 s2 -> changes n D s2 s3 -> changes n D s1 s3.
Proof.
  intros [] []. split; intros.
  - lia.
  - by rewrite c_cls1, c_cls0.
  - by rewrite c_cbs1, c_cbs0.
  - by rewrite c_val1, c_val0.
  - by rewrite c_procs1, c_procs0.
  - eauto.
Qed.

Lemma changes_alloc k c v (s : state) : n <= next_obj s -> changes n D s (alloc k c v s).
Proof.
  intros Hn. split; cbn; try done; try lia; intros a Ha;
    unfold cls, cbs, val; cbn; rewrite lookup_insert_ne by lia; done.
Qed.

Lemma changes_sched a prio d (s : state) :
  n <= a \/ D a -> changes n D s (sched a prio d s).
Proof.
  intros Ha. split; cbn; try done. intros b Hb HD.
  rewrite scheduled_sched. intros [Hs| ->]; [done|].
  destruct Ha; [lia|done].
Qed.

Lemma changes_hooked a cb (s : state) : n <= a -> changes n D s (hooked a cb s).
Proof.
  intros Ha. split; cbn; try done; intros b Hb; unfold cls, cbs, val; cbn;
    intros; rewrite lookup_alter_ne by lia; done.
Qed.

Lemma changes_valued a v (s : state) : n <= a \/ D a -> changes n D s (valued a v s).
Proof.
  intros Ha. split; cbn; try done; intros b Hb; unfold cls, cbs, val; cbn.
  - by rewrite fmap_alter_same by (intros []; reflexivity).
  - by rewrite fmap_alter_same by (intros []; reflexivity).
  - intros HD. rewrite lookup_alter_ne; [done|]. intros ->. destruct Ha; [lia|done].
Qed.

Lemma changes_defused a (s : state) :
  changes n D s (upd_events (alter (fun ev =>
     Event (class_of ev) (callbacks ev) (ev_value ev) true) a) s).
Proof.
  split; cbn; try done; intros b Hb; unfold cls, cbs, val; cbn; intros;
    by rewrite fmap_alter_same by (intros []; reflexivity).
Qed.

Lemma changes_logged msg (s : state) : changes n D s (logged msg s).
Proof. by split. Qed.

Lemma changes_set_proc a pr (s : state) :
  n <= a \/ D a -> changes n D s (upd_procs <[a := pr]> s).
Proof.
  intros Ha. split; cbn; try done. intros b Hb HD.
  rewrite lookup_insert_ne; [done|]. intros ->. destruct Ha; [lia|done].
Qed.

Lemma changes_berths f (s : state) : changes n D s (upd_berths f s).
Proof. by split. Qed.

Lemma changes_vessels f (s : state) : changes n D s (upd_vessels f s).
Proof. by split. Qed.

Lemma changes_cranes f (s : state) : changes n D s (upd_quay_cranes f s).
Proof. by split. Qed.

Lemma changes_rng f (s : state) : changes n D s (upd_rng f s).
Proof. by split. Qed.

(** Peeling the outermost update off. *)
Lemma changes_last (s1 s2 s3 : state) :
  changes n D s2 s3 -> changes n D s1 s2 -> changes n D s1 s3.
Proof. intros H23 H12. by eapply changes_trans. Qed.

Lemma changes_suspended p ev g (s : state) :
  n <= ev -> D p -> changes n D s (suspended p ev g s).
Proof.
  intros Hev Hp. unfold suspended.
  eapply changes_last; [apply changes_set_proc; by right|].
  by apply changes_hooked.
Qed.

Lemma changes_ended p v (s : state) : D p -> changes n D s (ended p v s).
Proof.
  intros Hp. unfold ended.
  eapply changes_last; [apply changes_set_proc; by right|].
  eapply changes_last; [apply changes_sched; by right|].
  apply changes_valued; by right.
Qed.

Lemma changes_spawned g (s : state) : n <= next_obj s -> changes n D s (spawned g s).
Proof.
  intros Hn. unfold spawned.
  eapply changes_last; [apply changes_set_proc; left; lia|].
  eapply changes_last; [apply changes_sched; left; lia|].
  eapply changes_last; [apply changes_alloc; cbn; lia|].
  by apply changes_alloc.
Qed.

Lemma changes_granting (s : state) :
  (forall h tl, queue (berths s) = h :: tl -> n <= h \/ D h) ->
  changes n D s (granting s).
Proof.
  intros Hh. unfold granting. destruct (queue (berths s)) as [|h tl]; [apply changes_refl|].
  destruct (_ <? _); [|apply changes_refl].
  specialize (Hh h tl eq_refl).
  eapply changes_last; [apply changes_berths|].
  eapply changes_last; [by apply changes_sched|].
  eapply changes_last; [by apply changes_valued|].
  apply changes_berths.
Qed.

Lemma changes_released r (s : state) : n <= next_obj s -> changes n D s (released r s).
Proof.
  intros Hn. unfold released.
  eapply changes_last; [apply changes_sched; left; cbn; lia|].
  eapply changes_last; [apply changes_valued; left; cbn; lia|].
  eapply changes_last; [apply changes_berths|].
  eapply changes_last; [apply changes_hooked; cbn; lia|].
  by apply changes_alloc.
Qed.

End Changes.

Section Frame.
Context (s s' : state) (e : nat) (D : nat -> Prop).
Hypothesis K : kernel s.
Hypothesis He : scheduled s e \/ next_obj s <= e.
Hypothesis Hcb : forall c q, cbs s e = Some (Some c) -> CbResume q ∈ c -> D q.
Hypothesis HDsched : forall a, D a -> ~ scheduled s a.
Hypothesis HDrun : forall a g t, D a -> procs s !! a = Some (Process g t) -> t = Some e.
Hypothesis HDcls : forall a, D a -> cls s a = Some KProcess \/ cls s a = Some KRequest.
Hypothesis HDdec : forall a, D a \/ ~ D a.
Hypothesis F : footprint s s' e D.
Hypothesis Hadv : forall a g t crane v,
  D a -> procs s !! a = Some (Process g t) ->
  g = LoadStart crane v \/ g = LoadYield crane v \/ g = Exhausted ->
  exists g' t', procs s' !! a = Some (Process g' t') /\
    (g' = LoadStart crane v \/ g' = LoadYield crane v \/ g' = Exhausted).

Lemma frame_own_pending q c : own_pending s q c -> ~ D q -> own_pending s' q c.
Proof.
  intros (Hc & Hb & Hv & Hn) HD.
  pose proof (old_cls _ _ _ K Hc) as Hold.
  assert (q <> e) as Hqe by (intros ->; destruct He; [done|lia]).
  unfold own_pending.
  rewrite (fp_cls _ _ _ _ F), (fp_cbs _ _ _ _ F), (fp_val _ _ _ _ F) by done.
  repeat split; try done.
  intros Hs. by destruct (fp_sched _ _ _ _ F q Hs Hold HD).
Qed.

Lemma frame_wakes a q : wakes s a q -> ~ D q -> wakes s' a q.
Proof.
  intros (Hc & Hb & Hv) HD.
  assert (a < next_obj s) as Hold by (destruct Hc as [Hc|Hc]; eapply old_cls; eauto).
  assert (a <> e) as Hae.
  { intros ->. apply HD. eapply Hcb; [exact Hb|]. by left. }
  assert (~ D a) as HDa.
  { intros [Hk|Hk]%HDcls; destruct Hc as [Hc|Hc]; congruence. }
  unfold wakes.
  by rewrite (fp_cls _ _ _ _ F), (fp_cbs _ _ _ _ F), (fp_val _ _ _ _ F).
Qed.

Lemma frame_proc_ok q pr :
  procs s !! q = Some pr -> ~ D q -> proc_ok s' q pr.
Proof.
  intros Hq HD. pose proof (k_procs _ K q pr Hq) as Hok.
  unfold proc_ok in *. destruct pr as [g t]. cbn in *.
  destruct g; try done.
  - destruct Hok as (a & -> & Hw & Ho). exists a.
    eauto using frame_wakes, frame_own_pending.
  - destruct Hok as (a & -> & Hw & Ho). exists a.
    eauto using frame_wakes, frame_own_pending.
  - destruct Hok as (a & -> & Hw & Ho). exists a.
    eauto using frame_wakes, frame_own_pending.
  - destruct Hok as (-> & Ho & Hc & Hb).
    pose proof (old_cls _ _ _ K Hc) as Hold.
    assert (berth_request <> e) as Hre.
    { intros ->. apply HD. eapply Hcb; [exact Hb|]. right. by left. }
    rewrite (fp_cls _ _ _ _ F), (fp_cbs _ _ _ _ F) by done.
    eauto using frame_own_pending.
  - destruct Hok as (l & -> & Ho & Hc & Hb & gl & tl & Hl & Hgl).
    pose proof (old_cls _ _ _ K Hc) as Hold.
    assert (l <> e) as Hle.
    { intros ->. apply HD. eapply Hcb; [exact Hb|]. by left. }
    exists l. rewrite (fp_cls _ _ _ _ F), (fp_cbs _ _ _ _ F) by done.
    split; [done|]. split; [by apply frame_own_pending|].
    split; [done|]. split; [done|].
    destruct (HDdec l) as [HDl|HDl].
    + eapply Hadv; eauto.
    + exists gl, tl. by rewrite (fp_procs _ _ _ _ F).
  - destruct Hok as (a & qq & r & -> & Hw & Ho & Hqq).
    exists a, qq, r. split; [done|]. split; [by apply frame_wakes|].
    split; [by apply frame_own_pending|].
    rewrite (fp_procs _ _ _ _ F); [done|by eapply old_proc|].
    intros HDq. pose proof (HDrun _ _ _ HDq Hqq) as [= ->].
    destruct Ho as (Hc' & _ & _ & Hn). destruct He; [done|].
    pose proof (old_cls _ _ _ K Hc'). lia.
  - destruct Hok as (a & qq & r & -> & Hw & Ho & Hqq).
    exists a, qq, r. split; [done|]. split; [by apply frame_wakes|].
    split; [by apply frame_own_pending|].
    rewrite (fp_procs _ _ _ _ F); [done|by eapply old_proc|].
    intros HDq. pose proof (HDrun _ _ _ HDq Hqq) as [= ->].
    destruct Ho as (Hc' & _ & _ & Hn). destruct He; [done|].
    pose proof (old_cls _ _ _ K Hc'). lia.
Qed.

Lemma frame_heap_ok a : scheduled s a -> a <> e -> heap_ok s' a.
Proof.
  intros Ha Hae.
  assert (exists y, y ∈ _queue s /\ a = event_of y) as (y & Hy & ->).
  { apply list_elem_of_fmap_1 in Ha as (y & -> & Hy). by exists y. }
  destruct (k_heap _ K y Hy) as (k & c & Hc & Hb & Hshape).
  pose proof (old_cls _ _ _ K Hc) as Hold.
  assert (~ D (event_of y)) as HDa by (intros HDa; by apply (HDsched _ HDa)).
  assert (forall q g, procs s !! q = Some (Process g (Some (event_of y))) ->
                      procs s' !! q = Some (Process g (Some (event_of y)))) as Hkeep.
  { intros q g Hq. rewrite (fp_procs _ _ _ _ F); [done|by eapply old_proc|].
    intros HDq. pose proof (HDrun _ _ _ HDq Hq) as [= Heq]. done. }
  exists k, c. rewrite (fp_cls _ _ _ _ F), (fp_cbs _ _ _ _ F) by done.
  split; [done|]. split; [done|].
  rewrite (fp_val _ _ _ _ F) by done. destruct k; try done.
  - destruct Hshape as (Hv & q & g & -> & Hq). split; [done|]. exists q, g. eauto.
  - destruct Hshape as (Hv & q & g & -> & Hq). split; [done|]. exists q, g. eauto.
  - destruct Hshape as (Hv & Hp & Hcb').
    split; [done|]. split; [by rewrite (fp_procs _ _ _ _ F)|].
    destruct Hcb' as [->|(q & u & r & crane & -> & Hq)]; [by left|].
    right. exists q, u, r, crane. eauto.
  - destruct Hshape as (Hv & q & u & -> & Hq). split; [done|]. exists q, u. eauto.
Qed.

Lemma frame_waiting_ok r : r ∈ queue (berths s) -> ~ D r -> waiting_ok s' r.
Proof.
  intros Hr HDr. destruct (k_waiting _ K r Hr) as (p & v & Hc & Hb & Hv & Hp & Hn).
  pose proof (old_cls _ _ _ K Hc) as Hold.
  assert (r <> e) as Hre by (intros ->; destruct He; [done|lia]).
  exists p, v. rewrite (fp_cls _ _ _ _ F), (fp_cbs _ _ _ _ F), (fp_val _ _ _ _ F) by done.
  split; [done|]. split; [done|]. split; [done|]. split.
  - rewrite (fp_procs _ _ _ _ F); [done|by eapply old_proc|].
    intros HDp. by pose proof (HDrun _ _ _ HDp Hp) as [= Heq].
  - intros Hs. by destruct (fp_sched _ _ _ _ F r Hs Hold HDr).
Qed.

(** The invariant after the step, from what the step touched. *)
Lemma kernel_frame :
  (forall a, next_obj s' <= a -> events s' !! a = None /\ procs s' !! a = None) ->
  NoDup (event_of <$> _queue s') ->
  (forall a, scheduled s' a -> (scheduled s a /\ a <> e) \/ heap_ok s' a) ->
  (forall q pr, procs s' !! q = Some pr ->
     (procs s !! q = Some pr /\ ~ D q) \/ (proc_ok s' q pr /\ cls s' q = Some KProcess)) ->
  (forall r, r ∈ queue (berths s') ->
     (r ∈ queue (berths s) /\ ~ D r) \/ waiting_ok s' r) ->
  NoDup (queue (berths s')) ->
  get_queue (berths s') = [] ->
  kernel s'.
Proof.
  intros Hfresh Hnd Hheap Hprocs Hwait Hwnd Hget. split; try done.
  - intros y Hy. destruct (Hheap (event_of y)) as [[Ha Hae]|Hok]; [|by apply frame_heap_ok|done].
    by apply list_elem_of_fmap_2.
  - intros q pr Hq. destruct (Hprocs q pr Hq) as [[Hq' HD]|[Hok _]]; [|done].
    by apply frame_proc_ok.
  - intros q pr Hq. destruct (Hprocs q pr Hq) as [[Hq' HD]|[_ Hc]]; [|done].
    rewrite (fp_cls _ _ _ _ F); [by eapply k_proc_cls|by eapply old_proc].
  - intros r Hr. destruct (Hwait r Hr) as [[Hr' HD]|Hok]; [|done].
    by apply frame_waiting_ok.
Qed.

End Frame.

(** A process that waits for an event has not ended. *)
Lemma running_own (s : state) a g t :
  kernel s -> procs s !! a = Some (Process g (Some t)) ->
  exists c, own_pending s a c.
Proof.
  intros K Ha. pose proof (k_procs _ K a _ Ha) as Hok.
  unfold proc_ok in Hok. cbn in Hok. destruct g; try done.
  - destruct Hok as (? & _ & _ & Ho). by eexists.
  - destruct Hok as (? & _ & _ & Ho). by eexists.
  - destruct Hok as (? & _ & _ & Ho). by eexists.
  - destruct Hok as (_ & Ho & _). by eexists.
  - destruct Hok as (? & _ & Ho & _). by eexists.
  - destruct Hok as (? & ? & ? & _ & _ & Ho & _). by eexists.
  - destruct Hok as (? & ? & ? & _ & _ & Ho & _). by eexists.
Qed.

Lemma footprint_taken (s s' : state) x rest D :
  kernel s ->
  removal (_queue s) x rest ->
  changes (next_obj s) D (taken x rest s) s' ->
  footprint s s' (event_of x) D.
Proof.
  intros K Hpop C.
  destruct (heappop_rest _ _ _ (k_nodup _ K) Hpop) as (Hx & Hnd & Hin & Hne).
  split.
  - apply (c_next _ _ _ _ C).
  - intros a Ha. rewrite (c_cls _ _ _ _ C) by done. unfold cls. cbn.
    by rewrite fmap_alter_same by (intros []; reflexivity).
  - intros a Ha Hae. rewrite (c_cbs _ _ _ _ C) by done. unfold cbs. cbn.
    by rewrite lookup_alter_ne.
  - intros a Ha HD. rewrite (c_val _ _ _ _ C) by done. unfold val. cbn.
    by rewrite fmap_alter_same by (intros []; reflexivity).
  - intros a Ha HD. by rewrite (c_procs _ _ _ _ C).
  - intros a Hs Ha HD. apply Hne. by apply (c_sched _ _ _ _ C a Ha HD).
Qed.

(** The invariant after a step that took [x] off the heap: what must be
    shown for the objects the step made or changed. *)
Lemma kernel_step (s s' : state) x rest (D : nat -> Prop) :
  kernel s ->
  removal (_queue s) x rest ->
  (forall a, D a ->
     (exists g, procs s !! a = Some (Process g (Some (event_of x)))) \/
     a ∈ queue (berths s)) ->
  (forall c q, cbs s (event_of x) = Some (Some c) -> CbResume q ∈ c -> D q) ->
  (forall a, D a \/ ~ D a) ->
  changes (next_obj s) D (taken x rest s) s' ->
  (forall a g t crane v,
     D a -> procs s !! a = Some (Process g t) ->
     g = LoadStart crane v \/ g = LoadYield crane v \/ g = Exhausted ->
     exists g' t', procs s' !! a = Some (Process g' t') /\
       (g' = LoadStart crane v \/ g' = LoadYield crane v \/ g' = Exhausted)) ->
  (forall a, next_obj s' <= a -> events s' !! a = None /\ procs s' !! a = None) ->
  NoDup (event_of <$> _queue s') ->
  (forall a, scheduled s' a ->
     (scheduled s a /\ a <> event_of x) \/ heap_ok s' a) ->
  (forall q pr, procs s' !! q = Some pr ->
     (procs s !! q = Some pr /\ ~ D q) \/ (proc_ok s' q pr /\ cls s' q = Some KProcess)) ->
  (forall r, r ∈ queue (berths s') ->
     (r ∈ queue (berths s) /\ ~ D r) \/ waiting_ok s' r) ->
  NoDup (queue (berths s')) ->
  get_queue (berths s') = [] ->
  kernel s'.
Proof.
  intros K Hpop HD Hcb Hdec C Hadv.
  destruct (heappop_rest _ _ _ (k_nodup _ K) Hpop) as (Hx & Hnd & Hin & Hne).
  assert (scheduled s (event_of x)) as He by (by apply list_elem_of_fmap_2).
  apply (kernel_frame s s' (event_of x) D K (or_introl He) Hcb); try done.
  - intros a [(g & Ha)|Ha]%HD.
    + destruct (running_own _ _ _ _ K Ha) as (c & _ & _ & _ & Hn). done.
    + by destruct (k_waiting _ K a Ha) as (? & ? & ? & ? & ? & ? & ?).
  - intros a g t [(g' & Ha)|Ha]%HD Hg; [congruence|].
    destruct (k_waiting _ K a Ha) as (? & ? & Hc & _).
    pose proof (k_proc_cls _ K a _ Hg). congruence.
  - intros a [(g & Ha)|Ha]%HD.
    + left. by eapply k_proc_cls.
    + right. by destruct (k_waiting _ K a Ha) as (? & ? & ? & _).
  - by apply (footprint_taken s s' x rest).
Qed.

(** The invariant after a part of a step that takes nothing off the heap. *)
Lemma kernel_grow (s s' : state) (D : nat -> Prop) :
  kernel s ->
  (forall a, D a -> a ∈ queue (berths s)) ->
  (forall a, D a \/ ~ D a) ->
  changes (next_obj s) D s s' ->
  (forall a, next_obj s' <= a -> events s' !! a = None /\ procs s' !! a = None) ->
  NoDup (event_of <$> _queue s') ->
  (forall a, scheduled s' a -> scheduled s a \/ heap_ok s' a) ->
  (forall q pr, procs s' !! q = Some pr ->
     procs s !! q = Some pr \/ (proc_ok s' q pr /\ cls s' q = Some KProcess)) ->
  (forall r, r ∈ queue (berths s') ->
     (r ∈ queue (berths s) /\ ~ D r) \/ waiting_ok s' r) ->
  NoDup (queue (berths s')) ->
  get_queue (berths s') = [] ->
  kernel s'.
Proof.
  intros K HD Hdec C Hfresh Hnd Hheap Hprocs Hwait Hwnd Hget.
  assert (forall a pr, D a -> procs s !! a = Some pr -> False) as Hnp.
  { intros a pr Ha%HD Hp. destruct (k_waiting _ K a Ha) as (? & ? & Hc & _).
    pose proof (k_proc_cls _ K a _ Hp). congruence. }
  assert (forall a, scheduled s a -> a < next_obj s) as Hold.
  { intros a (y & -> & Hy)%list_elem_of_fmap_1.
    destruct (k_heap _ K y Hy) as (k & c & Hc & _). by eapply old_cls. }
  apply (kernel_frame s s' (next_obj s) D K); try done.
  - by right.
  - intros c q Hc. unfold cbs in Hc. destruct (k_fresh _ K (next_obj s)) as [Hn _]; [lia|].
    by rewrite Hn in Hc.
  - intros a Ha%HD. by destruct (k_waiting _ K a Ha) as (? & ? & ? & ? & ? & ? & ?).
  - intros a g t Ha Hp. by destruct (Hnp _ _ Ha Hp).
  - intros a Ha%HD. right. by destruct (k_waiting _ K a Ha) as (? & ? & ? & _).
  - split.
    + apply (c_next _ _ _ _ C).
    + apply (c_cls _ _ _ _ C).
    + intros a Ha _. by apply (c_cbs _ _ _ _ C).
    + apply (c_val _ _ _ _ C).
    + apply (c_procs _ _ _ _ C).
    + intros a Hs Ha HDa. split; [|lia]. by apply (c_sched _ _ _ _ C a).
  - intros a g t crane v Ha Hp. by destruct (Hnp _ _ Ha Hp).
  - intros a Ha. destruct (Hheap a Ha) as [Hs|Hok]; [left|by right].
    split; [done|]. apply Hold in Hs. lia.
  - intros q pr Hq. destruct (Hprocs q pr Hq) as [Hp|Hok]; [left|by right].
    split; [done|]. intros HDq. by destruct (Hnp _ _ HDq Hp).
Qed.

(** The event taken off the heap resumes the process that waits for it. *)
Lemma popped_resume (s : state) x k p v d :
  kernel s -> x ∈ _queue s ->
  events s !! event_of x = Some (Event k (Some [CbResume p]) v d) ->
  exists g, procs s !! p = Some (Process g (Some (event_of x))).
Proof.
  intros K Hx Hev. destruct (k_heap _ K x Hx) as (k' & c & Hc & Hb & Hshape).
  unfold cls, cbs in Hc, Hb. rewrite Hev in Hc, Hb. cbn in Hc, Hb.
  injection Hc as <-. injection Hb as <-.
  destruct k; try done.
  - destruct Hshape as (_ & q & g & [= <-] & Hq). by exists g.
  - destruct Hshape as (_ & q & g & [= <-] & Hq). by exists g.
  - destruct Hshape as (_ & _ & [?|(q & u & r & crane & [= <-] & Hq)]); [done|].
    by eexists.
  - by destruct Hshape as (_ & q & u & ? & _).
  - by destruct Hshape as (? & _).
Qed.

(** An event that resumes no process was taken off the heap. *)
Lemma kernel_idle (s : state) x rest :
  kernel s -> removal (_queue s) x rest ->
  (forall c q, cbs s (event_of x) = Some (Some c) -> CbResume q ∉ c) ->
  kernel (taken x rest s).
Proof.
  intros K Hpop Hcb.
  destruct (heappop_rest _ _ _ (k_nodup _ K) Hpop) as (Hx & Hnd & Hin & Hne).
  eapply (kernel_step s _ x rest (fun _ => False) K Hpop); try done.
  - tauto.
  - cbn. intros a Ha. destruct (k_fresh _ K a Ha) as [He' Hp'].
    by rewrite lookup_alter_None.
  - intros a Ha. left. by apply Hne.
  - intros q pr Hq. left. split; [done|tauto].
  - intros r Hr. left. split; [done|tauto].
  - apply (k_waiting_nodup _ K).
  - apply (k_get _ K).
Qed.

(** A state that differs from [s0] in nothing the invariant reads. *)
Record inert (s0 s1 : state) : Prop := {
  i_next : next_obj s1 = next_obj s0;
  i_cls : forall a, cls s1 a = cls s0 a;
  i_cbs : forall a, cbs s1 a = cbs s0 a;
  i_val : forall a, val s1 a = val s0 a;
  i_none : forall a, events s1 !! a = None <-> events s0 !! a = None;
  i_procs : procs s1 = procs s0;
  i_queue : _queue s1 = _queue s0;
  i_berths : queue (berths s1) = queue (berths s0);
  i_get : get_queue (berths s1) = get_queue (berths s0)
}.

Lemma inert_refl (s : state) : inert s s.
Proof. by split. Qed.

Lemma inert_changes n D (s0 s1 : state) : inert s0 s1 -> changes n D s0 s1.
Proof.
  intros []. split; intros; try done.
  - lia.
  - by rewrite i_procs0.
  - unfold scheduled in *. by rewrite <- i_queue0.
Qed.

Lemma scheduled_old (s : state) a : kernel s -> scheduled s a -> a < next_obj s.
Proof.
  intros K (y & -> & Hy)%list_elem_of_fmap_1.
  destruct (k_heap _ K y Hy) as (k & c & Hc & _). by eapply old_cls.
Qed.

Lemma kernel_inert (s0 s1 : state) : kernel s0 -> inert s0 s1 -> kernel s1.
Proof.
  intros K I.
  apply (kernel_grow s0 s1 (fun _ => False) K); try done.
  - tauto.
  - by apply inert_changes.
  - intros a Ha. rewrite (i_next _ _ I) in Ha. destruct (k_fresh _ K a Ha) as [He Hp].
    by rewrite (i_procs _ _ I), (i_none _ _ I).
  - rewrite (i_queue _ _ I). apply (k_nodup _ K).
  - intros a. unfold scheduled. rewrite (i_queue _ _ I). tauto.
  - intros q pr. rewrite (i_procs _ _ I). tauto.
  - intros r. rewrite (i_berths _ _ I). tauto.
  - rewrite (i_berths _ _ I). apply (k_waiting_nodup _ K).
  - rewrite (i_get _ _ I). apply (k_get _ K).
Qed.

(** [_trigger_put] on its own: the oldest waiting request is granted if a
    berth is free. *)
Lemma kernel_granting (s : state) : kernel s -> kernel (granting s).
Proof.
  intros K. unfold granting.
  destruct (queue (berths s)) as [|h tl] eqn:Hq; [done|].
  destruct (_ <? _); [|done].
  assert (h ∈ queue (berths s)) as Hh by (rewrite Hq; left).
  destruct (k_waiting _ K h Hh) as (pp & u & Hhc & Hhb & Hhv & Hpp & Hhn).
  pose proof (old_cls _ _ _ K Hhc) as Hhold.
  pose proof (k_waiting_nodup _ K) as Hwnd. rewrite Hq in Hwnd.
  apply NoDup_cons in Hwnd as [Hhtl Hwnd].
  eapply (kernel_grow s _ (fun a => a = h) K).
  - by intros a ->.
  - intros a. destruct (decide (a = h)); tauto.
  - eapply changes_last; [apply changes_berths|].
    eapply changes_last; [apply changes_sched; by right|].
    eapply changes_last; [apply changes_valued; by right|].
    apply changes_berths.
  - cbn. intros a Ha. destruct (k_fresh _ K a Ha) as [He' Hp'].
    by rewrite !lookup_alter_None.
  - cbn. unfold heappush. rewrite fmap_app. apply NoDup_app.
    split; [apply (k_nodup _ K)|]. split; [|apply NoDup_singleton].
    intros e' He' Hp'%list_elem_of_singleton. cbn in Hp'. by subst e'.
  - intros a Ha.
    apply (scheduled_sched h NORMAL 0 (valued h Succeeded
             (upd_berths (fun r => MkResource (capacity r) (users r ++ [h])
                 (queue r) (get_queue r)) s)) a) in Ha.
    destruct Ha as [Ha| ->]; [by left|]. right.
    exists KRequest, [CbTriggerGet; CbResume pp]. unfold cls, cbs, val in *. cbn.
    rewrite !fmap_alter_same by (intros []; reflexivity).
    split; [done|]. split; [done|].
    rewrite lookup_alter_eq. split.
    { by destruct (events s !! h). }
    by exists pp, u.
  - intros q pr Hq'. by left.
  - intros r. cbn. rewrite Hq. cbn. intros Hr. left. split; [by right|].
    intros ->. done.
  - cbn. rewrite Hq. done.
  - cbn. apply (k_get _ K).
Qed.

(** [berths.release(r)] on its own. *)
Lemma kernel_released (s : state) r : kernel s -> kernel (released r s).
Proof.
  intros K. set (n := next_obj s).
  destruct (k_fresh _ K n) as [Hne Hnp]; [unfold n; lia|].
  eapply (kernel_grow s _ (fun _ => False) K); try done.
  - tauto.
  - by apply changes_released.
  - cbn. fold n. intros a Ha. destruct (k_fresh _ K a) as [He' Hp']; [unfold n in *; lia|].
    rewrite !lookup_alter_None. by rewrite lookup_insert_ne by lia.
  - cbn. unfold heappush. rewrite fmap_app. apply NoDup_app.
    split; [apply (k_nodup _ K)|]. split; [|apply NoDup_singleton].
    intros e' He' Hp'%list_elem_of_singleton. cbn in Hp'. subst e'.
    apply (scheduled_old _ _ K) in He'. lia.
  - intros a [Ha| ->]%scheduled_released; [by left|]. right.
    exists (KRelease r), [CbTriggerPut]. unfold cls, cbs, val. cbn. fold n.
    rewrite !fmap_alter_same by (intros []; reflexivity).
    rewrite !lookup_alter_eq, !lookup_insert_eq. cbn. tauto.
  - intros q pr Hq. by left.
  - intros r' Hr. left. split; [done|tauto].
  - apply (k_waiting_nodup _ K).
  - apply (k_get _ K).
Qed.

(** [Vessel(env, name, terminal)] on its own: a new process and the
    event that starts it. *)
Lemma kernel_launched (s : state) i : kernel s -> kernel (launched cfg i s).
Proof.
  intros K. set (n := next_obj s).
  destruct (k_fresh _ K n) as [Hne Hnp]; [unfold n; lia|].
  destruct (k_fresh _ K (S n)) as [Hne' Hnp']; [unfold n; lia|].
  assert (~ scheduled s n) as Hns.
  { intros Hs%(scheduled_old _ _ K). unfold n in Hs. lia. }
  assert (~ scheduled s (S n)) as Hns'.
  { intros Hs%(scheduled_old _ _ K). unfold n in Hs. lia. }
  eapply (kernel_grow s _ (fun _ => False) K); try done.
  - tauto.
  - unfold launched.
    eapply changes_last; [apply changes_vessels|].
    eapply changes_last; [apply changes_spawned; cbn; lia|].
    apply changes_vessels.
  - cbn. fold n. intros a Ha. destruct (k_fresh _ K a) as [He' Hp']; [unfold n in *; lia|].
    by rewrite !lookup_insert_ne by lia.
  - cbn. unfold heappush. rewrite fmap_app. apply NoDup_app.
    split; [apply (k_nodup _ K)|]. split; [|apply NoDup_singleton].
    intros e' He' Hp'%list_elem_of_singleton. cbn in Hp'. by subst e'.
  - intros a Ha.
    apply (scheduled_spawned (ArriveStart i)
             (upd_vessels <[i := MkVessel (CONTAINERS_PER_VESSEL cfg) 0]> s) a) in Ha.
    destruct Ha as [Ha| ->]; [by left|]. right.
    exists KInitialize, [CbResume n]. unfold cls, cbs, val. cbn. fold n.
    rewrite !lookup_insert_eq. cbn. split; [done|]. split; [done|]. split; [done|].
    exists n, (ArriveStart i). by rewrite lookup_insert_eq.
  - intros q pr. cbn. fold n. rewrite lookup_insert. case_decide as Hd; [|by left].
    subst q. intros [= <-]. right.
    assert (cls (launched cfg i s) n = Some KProcess) as Hc.
    { unfold cls. cbn. fold n. rewrite lookup_insert_ne by lia.
      by rewrite lookup_insert_eq. }
    split; [|done]. unfold proc_ok. cbn. fold n. exists (S n). split; [done|]. split.
    + unfold wakes, cls, cbs, val. cbn. fold n. rewrite !lookup_insert_eq. cbn. tauto.
    + split; [done|]. unfold cbs, val. cbn. fold n.
      rewrite !lookup_insert_ne by lia. rewrite !lookup_insert_eq. cbn.
      split; [done|]. split; [done|].
      intros Hs.
      apply (scheduled_spawned (ArriveStart i)
               (upd_vessels <[i := MkVessel (CONTAINERS_PER_VESSEL cfg) 0]> s) n) in Hs.
      destruct Hs as [Hs|Hs]; [done|]. cbn in Hs. unfold n in Hs. lia.
  - intros r' Hr. left. split; [done|tauto].
  - apply (k_waiting_nodup _ K).
  - apply (k_get _ K).
Qed.

(** A release event was taken off the heap. *)
Lemma kernel_release (s : state) x rest :
  kernel s -> removal (_queue s) x rest ->
  (forall c q, cbs s (event_of x) = Some (Some c) -> CbResume q ∉ c) ->
  kernel (granting (taken x rest s)).
Proof. intros K Hpop Hcb. by apply kernel_granting, kernel_idle. Qed.

(** The callbacks of a process that has not ended: none, or the resumption
    of the vessel that waits for this crane step. *)
Lemma running_cases (s : state) p g e :
  kernel s -> procs s !! p = Some (Process g (Some e)) ->
  own_pending s p [] \/
  exists q u r crane, own_pending s p [CbResume q] /\
    procs s !! q = Some (Process (ArriveUnload u r crane) (Some p)).
Proof.
  intros K Hp. pose proof (k_procs _ K p _ Hp) as Hok.
  unfold proc_ok in Hok. cbn in Hok. destruct g; try done.
  - destruct Hok as (? & _ & _ & Ho). by left.
  - destruct Hok as (? & _ & _ & Ho). by left.
  - destruct Hok as (? & _ & _ & Ho). by left.
  - destruct Hok as (_ & Ho & _). by left.
  - destruct Hok as (? & _ & Ho & _). by left.
  - destruct Hok as (? & q & r & _ & _ & Ho & Hq). right. by exists q, v, r, crane.
  - destruct Hok as (? & q & r & _ & _ & Ho & Hq). right. by exists q, v, r, crane.
Qed.

(** What the transitions that resume a process have in common. *)
Record resuming (s : state) (x : entry) (rest : list entry) (p : nat) (g : frame) : Prop := {
  r_kernel : kernel s;
  r_pop : removal (_queue s) x rest;
  r_callbacks : forall c q, cbs s (event_of x) = Some (Some c) -> CbResume q ∈ c -> q = p;
  r_proc : procs s !! p = Some (Process g (Some (event_of x)))
}.

Lemma resuming_wake (s : state) x rest k v d p g t :
  kernel s -> heappop (_queue s) = Some (x, rest) ->
  events s !! event_of x = Some (Event k (Some [CbResume p]) v d) ->
  procs s !! p = Some (Process g t) ->
  resuming s x rest p g.
Proof.
  intros K Hpop%heappop_removal Hev Hp.
  destruct (heappop_rest _ _ _ (k_nodup _ K) Hpop) as (Hx & _).
  destruct (popped_resume _ _ _ _ _ _ K Hx Hev) as (g' & Hp').
  rewrite Hp in Hp'. injection Hp' as <- ->.
  split; try done.
  intros c q. unfold cbs. rewrite Hev. cbn. intros [= <-].
  rewrite list_elem_of_singleton. by intros [= ->].
Qed.

Section Resuming.
Context (s : state) (x : entry) (rest : list entry) (p : nat) (g : frame).
Hypothesis R : resuming s x rest p g.

Lemma rs_old : p < next_obj s.
Proof. destruct R. by eapply old_proc. Qed.

Lemma rs_unscheduled : ~ scheduled s p.
Proof.
  destruct R. destruct (running_own _ _ _ _ r_kernel0 r_proc0) as (c & _ & _ & _ & Hn).
  done.
Qed.

Lemma rs_neq : event_of x <> p.
Proof.
  intros Heq. apply rs_unscheduled. rewrite <- Heq. destruct R.
  destruct (heappop_rest _ _ _ (k_nodup _ r_kernel0) r_pop0) as (Hx & _).
  by apply list_elem_of_fmap_2.
Qed.

Lemma rs_not_waiting : p ∉ queue (berths s).
Proof.
  destruct R. intros Hp. destruct (k_waiting _ r_kernel0 p Hp) as (? & ? & Hc & _).
  pose proof (k_proc_cls _ r_kernel0 p _ r_proc0). congruence.
Qed.

(** The process ends in a state that is otherwise as [step] left it. *)
Lemma kernel_ended (s1 : state) v :
  inert (taken x rest s) s1 -> v <> PENDING -> kernel (ended p v s1).
Proof.
  intros I Hv. pose proof R as [K Hpop Hcb Hp].
  destruct (heappop_rest _ _ _ (k_nodup _ K) Hpop) as (Hx & Hnd & Hin & Hne).
  pose proof rs_old as Hold. pose proof rs_unscheduled as Hns.
  pose proof rs_neq as Hep.
  pose proof (k_proc_cls _ K p _ Hp) as Hpc.
  eapply (kernel_step s _ x rest (fun a => a = p) K Hpop).
  - intros a ->. left. by eexists.
  - done.
  - intros a. destruct (decide (a = p)); tauto.
  - eapply changes_last; [by apply changes_ended|]. by apply inert_changes.
  - intros a g0 t crane' v' -> Hp'' Hg.
    eexists _, _. cbn. rewrite lookup_insert_eq. split; [done|]. tauto.
  - cbn. rewrite (i_next _ _ I). cbn. intros a Ha. destruct (k_fresh _ K a Ha) as [He' Hp'].
    rewrite lookup_insert_ne by lia. rewrite lookup_alter_None.
    rewrite (i_procs _ _ I), (i_none _ _ I). cbn. by rewrite lookup_alter_None.
  - cbn. rewrite (i_queue _ _ I). cbn.
    unfold heappush. rewrite fmap_app. apply NoDup_app. split; [done|].
    split; [|apply NoDup_singleton].
    intros e' He' Hp'%list_elem_of_singleton. cbn in Hp'. subst e'.
    apply Hns. by apply Hne.
  - intros a. rewrite scheduled_ended. unfold scheduled at 1. rewrite (i_queue _ _ I).
    intros [Ha| ->]; [left; by apply Hne|]. right.
    assert (cls (ended p v s1) p = Some KProcess) as Hc'.
    { unfold cls in *. cbn. rewrite fmap_alter_same by (intros []; reflexivity).
      fold (cls s1 p). rewrite (i_cls _ _ I). unfold cls. cbn.
      by rewrite fmap_alter_same by (intros []; reflexivity). }
    assert (forall c, cbs s p = Some (Some c) -> cbs (ended p v s1) p = Some (Some c)) as Hb'.
    { intros c Hc. unfold cbs in *. cbn. rewrite fmap_alter_same by (intros []; reflexivity).
      fold (cbs s1 p). rewrite (i_cbs _ _ I). unfold cbs. cbn.
      by rewrite lookup_alter_ne. }
    assert (val (ended p v s1) p = Some v) as Hv'.
    { unfold val, cls in *. cbn. rewrite lookup_alter_eq.
      destruct (events s1 !! p) eqn:Hs1; [done|].
      apply (i_none _ _ I) in Hs1. cbn in Hs1. apply lookup_alter_None in Hs1.
      by rewrite Hs1 in Hpc. }
    assert (procs (ended p v s1) !! p = Some (Process Exhausted None)) as Hp'.
    { cbn. by rewrite lookup_insert_eq. }
    destruct (running_cases _ _ _ _ K Hp) as
      [(_ & Hb & _)|(q & u & r & crane & (_ & Hb & _) & Hq)].
    + exists KProcess, []. split; [done|]. split; [by apply Hb'|].
      split; [congruence|]. split; [done|]. by left.
    + exists KProcess, [CbResume q]. split; [done|]. split; [by apply Hb'|].
      split; [congruence|]. split; [done|]. right. exists q, u, r, crane.
      split; [done|]. cbn. rewrite (i_procs _ _ I). cbn.
      rewrite lookup_insert_ne; [done|]. intros ->. congruence.
  - intros q' pr. cbn. rewrite (i_procs _ _ I). cbn.
    rewrite lookup_insert. case_decide as Hd.
    + subst q'. intros [= <-]. right. split; [done|].
      unfold cls in *. cbn. rewrite fmap_alter_same by (intros []; reflexivity).
      fold (cls s1 p). rewrite (i_cls _ _ I). unfold cls. cbn.
      by rewrite fmap_alter_same by (intros []; reflexivity).
    + intros Hq'. left. by split.
  - intros r'. cbn. rewrite (i_berths _ _ I). cbn. intros Hr'.
    left. split; [done|]. intros ->. by apply rs_not_waiting.
  - cbn. rewrite (i_berths _ _ I). apply (k_waiting_nodup _ K).
  - cbn. rewrite (i_get _ _ I). apply (k_get _ K).
Qed.

(** What a generator may become when it suspends on a timeout. *)
Definition timeout_frame (g g' : frame) : Prop :=
  match g' with
  | ArrivalsYield _ => g = ArrivalsStart \/ exists i, g = ArrivalsYield i
  | LoadYield crane v => g = LoadStart crane v
  | _ => False
  end.

(** The process suspends on a new timeout. *)
Lemma kernel_timeout (s1 : state) g' d :
  inert (taken x rest s) s1 -> timeout_frame g g' ->
  kernel (suspended p (next_obj s1) g'
            (sched (next_obj s1) NORMAL d (alloc KTimeout [] Succeeded s1))).
Proof.
  intros I Hfam. pose proof R as [K Hpop Hcb Hp].
  destruct (heappop_rest _ _ _ (k_nodup _ K) Hpop) as (Hx & Hnd & Hin & Hne).
  pose proof rs_old as Hold. pose proof rs_unscheduled as Hns.
  pose proof rs_neq as Hep.
  assert (scheduled s (event_of x)) as He by (by apply list_elem_of_fmap_2).
  pose proof (k_proc_cls _ K p _ Hp) as Hpc.
  pose proof (i_next _ _ I) as Ht. cbn in Ht.
  set (t := next_obj s1) in *.
  set (s_pre := hooked t (CbResume p)
                  (sched t NORMAL d (alloc KTimeout [] Succeeded s1))).
  assert (changes (next_obj s) (fun _ => False) (taken x rest s) s_pre) as Cpre.
  { eapply changes_last; [apply changes_hooked; lia|].
    eapply changes_last; [apply changes_sched; left; lia|].
    eapply changes_last; [apply changes_alloc; unfold t; lia|].
    by apply inert_changes. }
  pose proof (footprint_taken _ _ _ _ _ K Hpop Cpre) as Fpre.
  assert (forall c, own_pending s p c ->
            own_pending (suspended p t g' (sched t NORMAL d
               (alloc KTimeout [] Succeeded s1))) p c) as Hown.
  { intros c Ho.
    exact (frame_own_pending s s_pre _ _ K (or_introl He) Fpre p c Ho (fun f => f)). }
  assert (wakes (suspended p t g' (sched t NORMAL d
               (alloc KTimeout [] Succeeded s1))) t p) as Hwake.
  { unfold wakes, cls, cbs, val. cbn.
    rewrite !fmap_alter_same by (intros []; reflexivity).
    rewrite lookup_alter_eq, !lookup_insert_eq. cbn. tauto. }
  eapply (kernel_step s _ x rest (fun a => a = p) K Hpop).
  - intros a ->. left. by eexists.
  - done.
  - intros a. destruct (decide (a = p)); tauto.
  - eapply changes_last; [apply changes_suspended; [lia|done]|].
    eapply changes_last; [apply changes_sched; left; lia|].
    eapply changes_last; [apply changes_alloc; unfold t; lia|].
    by apply inert_changes.
  - intros a g0 t0 crane' v' -> Hp'' Hg. rewrite Hp in Hp''. injection Hp'' as <- <-.
    eexists _, _. cbn. rewrite lookup_insert_eq. split; [done|].
    destruct g'; try done; cbn in Hfam.
    + destruct Hfam as [->|(i0 & ->)]; destruct Hg as [?|[?|?]]; done.
    + subst g. destruct Hg as [[= -> ->]|[?|?]]; try done. tauto.
  - cbn. fold t. intros a Ha. destruct (k_fresh _ K a) as [He' Hp']; [lia|].
    rewrite lookup_insert_ne by lia. rewrite lookup_alter_None.
    rewrite lookup_insert_ne by lia.
    rewrite (i_procs _ _ I), (i_none _ _ I). cbn. by rewrite lookup_alter_None.
  - cbn. rewrite (i_queue _ _ I). cbn.
    unfold heappush. rewrite fmap_app. apply NoDup_app. split; [done|].
    split; [|apply NoDup_singleton].
    intros e' He' Hp'%list_elem_of_singleton. cbn in Hp'. subst e'.
    destruct (Hne _ He') as [Hs _].
    apply list_elem_of_fmap_1 in Hs as (y & Hy & Hyin).
    destruct (k_heap _ K y Hyin) as (k & c & Hc & _).
    pose proof (old_cls _ _ _ K Hc). lia.
  - intros a Ha.
    apply (scheduled_sched t NORMAL d (alloc KTimeout [] Succeeded s1) a) in Ha.
    destruct Ha as [Ha| ->].
    + left. apply Hne. change (scheduled s1 a) in Ha. unfold scheduled in Ha.
      by rewrite (i_queue _ _ I) in Ha.
    + right. destruct Hwake as (_ & Hb & Hv).
      exists KTimeout, [CbResume p]. split.
      { unfold cls. cbn. rewrite fmap_alter_same by (intros []; reflexivity).
        by rewrite lookup_insert_eq. }
      split; [done|]. split; [done|]. exists p, g'. split; [done|].
      cbn. by rewrite lookup_insert_eq.
  - intros q' pr. cbn. rewrite (i_procs _ _ I). cbn.
    rewrite lookup_insert. case_decide as Hd.
    + subst q'. intros [= <-]. right. split.
      * unfold proc_ok. cbn. fold t.
        pose proof (k_procs _ K p _ Hp) as Hok. unfold proc_ok in Hok. cbn in Hok.
        destruct g'; try done; cbn in Hfam.
        -- exists t. split; [done|]. split; [done|]. apply Hown.
           destruct Hfam as [->|(i0 & ->)]; by destruct Hok as (? & _ & _ & Ho).
        -- subst g. destruct Hok as (? & q & r & _ & _ & Ho & Hq).
           exists t, q, r. split; [done|]. split; [done|]. split; [by apply Hown|].
           cbn. rewrite (i_procs _ _ I). cbn. rewrite lookup_insert_ne; [done|].
           intros ->. congruence.
      * rewrite <- Hpc. unfold cls. cbn.
        rewrite fmap_alter_same by (intros []; reflexivity).
        rewrite lookup_insert_ne by lia. fold (cls s1 p). rewrite (i_cls _ _ I).
        unfold cls. cbn. by rewrite fmap_alter_same by (intros []; reflexivity).
    + intros Hq'. left. by split.
  - intros r'. cbn. rewrite (i_berths _ _ I). cbn. intros Hr'.
    left. split; [done|]. intros ->. by apply rs_not_waiting.
  - cbn. rewrite (i_berths _ _ I). apply (k_waiting_nodup _ K).
  - cbn. rewrite (i_get _ _ I). apply (k_get _ K).
Qed.

(** The frames of [Vessel.arrive]. *)
Definition vessel_frame (g0 : frame) : Prop :=
  match g0 with
  | ArriveStart _ | ArriveBerth _ _ | ArriveUnload _ _ _ => True
  | _ => False
  end.

Lemma vessel_own : vessel_frame g -> own_pending s p [].
Proof.
  intros Hg. pose proof R as [K Hpop Hcb Hp].
  pose proof (k_procs _ K p _ Hp) as Hok. unfold proc_ok in Hok. cbn in Hok.
  destruct g; try done.
  - by destruct Hok as (? & _ & _ & Ho).
  - by destruct Hok as (_ & Ho & _).
  - by destruct Hok as (? & _ & Ho & _).
Qed.

(** The vessel has joined the queue of the berths and waits for its
    request; nothing is granted yet. *)
Definition queued (v : nat) (s1 : state) : state :=
  suspended p (next_obj s1) (ArriveBerth v (next_obj s1))
    (hooked (next_obj s1) CbTriggerGet
      (upd_berths (fun r =>
         MkResource (capacity r) (users r) (queue r ++ [next_obj s1]) (get_queue r))
        (alloc KRequest [] PENDING s1))).

Lemma kernel_queued (s1 : state) v :
  inert (taken x rest s) s1 -> vessel_frame g -> kernel (queued v s1).
Proof.
  intros I Hfam. pose proof R as [K Hpop Hcb Hp].
  destruct (heappop_rest _ _ _ (k_nodup _ K) Hpop) as (Hx & Hnd & Hin & Hne).
  pose proof rs_old as Hold. pose proof rs_unscheduled as Hns.
  pose proof rs_neq as Hep.
  assert (scheduled s (event_of x)) as He by (by apply list_elem_of_fmap_2).
  pose proof (k_proc_cls _ K p _ Hp) as Hpc.
  pose proof (i_next _ _ I) as Ht. cbn in Ht.
  unfold queued. set (t := next_obj s1) in *.
  set (s_pre := hooked t (CbResume p) (hooked t CbTriggerGet
      (upd_berths (fun r =>
         MkResource (capacity r) (users r) (queue r ++ [t]) (get_queue r))
        (alloc KRequest [] PENDING s1)))).
  assert (changes (next_obj s) (fun _ => False) (taken x rest s) s_pre) as Cpre.
  { eapply changes_last; [apply changes_hooked; lia|].
    eapply changes_last; [apply changes_hooked; lia|].
    eapply changes_last; [apply changes_berths|].
    eapply changes_last; [apply changes_alloc; unfold t; lia|].
    by apply inert_changes. }
  pose proof (footprint_taken _ _ _ _ _ K Hpop Cpre) as Fpre.
  pose proof (frame_own_pending s s_pre _ _ K (or_introl He) Fpre p []
                (vessel_own Hfam) (fun f => f)) as Hown.
  assert (forall a, scheduled s1 a -> scheduled s a /\ a <> event_of x) as Hsch.
  { intros a. unfold scheduled. rewrite (i_queue _ _ I). apply Hne. }
  assert (t ∉ queue (berths s)) as Htq.
  { intros Hin'. destruct (k_waiting _ K t Hin') as (? & ? & Hc & _).
    pose proof (old_cls _ _ _ K Hc). lia. }
  eapply (kernel_step s _ x rest (fun a => a = p) K Hpop).
  - intros a ->. left. by eexists.
  - done.
  - intros a. destruct (decide (a = p)); tauto.
  - eapply changes_last; [apply changes_suspended; [lia|done]|].
    eapply changes_last; [apply changes_hooked; lia|].
    eapply changes_last; [apply changes_berths|].
    eapply changes_last; [apply changes_alloc; unfold t; lia|].
    by apply inert_changes.
  - intros a g0 t0 crane' v' -> Hp'' Hg. rewrite Hp in Hp''. injection Hp'' as <- <-.
    destruct g; try done; destruct Hg as [?|[?|?]]; done.
  - cbn. fold t. intros a Ha. destruct (k_fresh _ K a) as [He' Hp']; [lia|].
    rewrite lookup_insert_ne by lia. rewrite !lookup_alter_None.
    rewrite lookup_insert_ne by lia.
    rewrite (i_procs _ _ I), (i_none _ _ I). cbn. by rewrite lookup_alter_None.
  - cbn. by rewrite (i_queue _ _ I).
  - intros a Ha. left. by apply Hsch.
  - intros q' pr. cbn. rewrite (i_procs _ _ I). cbn.
    rewrite lookup_insert. case_decide as Hd; [|intros Hq'; left; by split].
    subst q'. intros [= <-]. right.
    assert (cls s_pre p = Some KProcess) as Hc by (by destruct Hown).
    split; [|exact Hc]. unfold proc_ok. cbn. fold t.
    split; [done|]. split; [exact Hown|].
    unfold cls, cbs. cbn. fold t.
    rewrite !fmap_alter_same by (intros []; reflexivity).
    rewrite !lookup_alter_eq, !lookup_insert_eq. done.
  - intros r'. cbn. rewrite (i_berths _ _ I). cbn. fold t.
    rewrite elem_of_app, list_elem_of_singleton. intros [Hr'| ->].
    + left. split; [done|]. intros ->. by apply rs_not_waiting.
    + right. exists p, v. unfold cls, cbs, val. cbn. fold t.
      rewrite !fmap_alter_same by (intros []; reflexivity).
      rewrite !lookup_alter_eq, !lookup_insert_eq. cbn.
      split; [done|]. split; [done|]. split; [done|].
      split; [done|].
      intros Hs. apply Hsch in Hs as [Hs _]. apply (scheduled_old _ _ K) in Hs. lia.
  - cbn. rewrite (i_berths _ _ I). cbn. fold t. apply NoDup_app.
    split; [apply (k_waiting_nodup _ K)|]. split; [|apply NoDup_singleton].
    intros r' Hr' ->%list_elem_of_singleton. done.
  - cbn. rewrite (i_get _ _ I). apply (k_get _ K).
Qed.

(** Lines 60-64 of [Vessel.arrive]: the request is made, a berth is granted
    to the oldest waiting request if one is free, and the vessel waits. *)
Lemma kernel_request (s1 : state) v :
  inert (taken x rest s) s1 -> vessel_frame g ->
  kernel (suspended p (next_obj s1) (ArriveBerth v (next_obj s1)) (requested s1)).
Proof.
  intros I Hfam.
  apply (kernel_inert (granting (queued v s1))).
  { by apply kernel_granting, kernel_queued. }
  unfold requested, granting, queued. cbn.
  destruct (queue (berths s1) ++ [next_obj s1]) as [|h tl]; [apply inert_refl|].
  destruct (match capacity (berths s1) with 0 => _ | S _ => _ end); [|apply inert_refl].
  split; try reflexivity; intros a; unfold cls, cbs, val; cbn.
  - by rewrite !fmap_alter_same by (intros []; reflexivity).
  - rewrite !lookup_alter. repeat case_decide; subst;
      rewrite ?lookup_insert_eq, ?lookup_insert_ne by done;
      try destruct (events s1 !! a) as [[]|]; try done.
  - rewrite !lookup_alter. repeat case_decide; subst;
      rewrite ?lookup_insert_eq, ?lookup_insert_ne by done;
      try destruct (events s1 !! a) as [[]|]; try done.
  - by rewrite !lookup_alter_None.
Qed.

(** Lines 73-74 of [Vessel.arrive]: a crane process is started and the
    vessel waits for it. *)
Lemma kernel_child (s1 : state) v r crane :
  inert (taken x rest s) s1 -> vessel_frame g ->
  kernel (suspended p (next_obj s1) (ArriveUnload v r crane)
            (spawned (LoadStart crane v) s1)).
Proof.
  intros I Hfam. pose proof R as [K Hpop Hcb Hp].
  destruct (heappop_rest _ _ _ (k_nodup _ K) Hpop) as (Hx & Hnd & Hin & Hne).
  pose proof rs_old as Hold. pose proof rs_unscheduled as Hns.
  pose proof rs_neq as Hep.
  assert (scheduled s (event_of x)) as He by (by apply list_elem_of_fmap_2).
  pose proof (k_proc_cls _ K p _ Hp) as Hpc.
  pose proof (i_next _ _ I) as Ht. cbn in Ht.
  set (t := next_obj s1) in *.
  set (s_pre := hooked t (CbResume p)
      (sched (S t) URGENT 0
         (alloc KInitialize [CbResume t] Succeeded (alloc KProcess [] PENDING s1)))).
  assert (changes (next_obj s) (fun _ => False) (taken x rest s) s_pre) as Cpre.
  { eapply changes_last; [apply changes_hooked; lia|].
    eapply changes_last; [apply changes_sched; left; lia|].
    eapply changes_last; [apply changes_alloc; cbn; fold t; lia|].
    eapply changes_last; [apply changes_alloc; fold t; lia|].
    by apply inert_changes. }
  pose proof (footprint_taken _ _ _ _ _ K Hpop Cpre) as Fpre.
  pose proof (frame_own_pending s s_pre _ _ K (or_introl He) Fpre p []
                (vessel_own Hfam) (fun f => f)) as Hown.
  assert (forall a, scheduled s1 a -> scheduled s a /\ a <> event_of x) as Hsch.
  { intros a. unfold scheduled. rewrite (i_queue _ _ I). apply Hne. }
  assert (forall a, scheduled (suspended p t (ArriveUnload v r crane)
                      (spawned (LoadStart crane v) s1)) a ->
                    scheduled s1 a \/ a = S t) as Hsch'.
  { intros a Ha. by apply (scheduled_spawned (LoadStart crane v) s1 a) in Ha. }
  eapply (kernel_step s _ x rest (fun a => a = p) K Hpop).
  - intros a ->. left. by eexists.
  - done.
  - intros a. destruct (decide (a = p)); tauto.
  - eapply changes_last; [apply changes_suspended; [lia|done]|].
    eapply changes_last; [apply changes_spawned; fold t; lia|].
    by apply inert_changes.
  - intros a g0 t0 crane' v' -> Hp'' Hg. rewrite Hp in Hp''. injection Hp'' as <- <-.
    destruct g; try done; destruct Hg as [?|[?|?]]; done.
  - cbn. fold t. intros a Ha. destruct (k_fresh _ K a) as [He' Hp']; [lia|].
    rewrite !lookup_insert_ne by lia. rewrite !lookup_alter_None.
    rewrite !lookup_insert_ne by lia.
    rewrite (i_procs _ _ I), (i_none _ _ I). cbn. by rewrite lookup_alter_None.
  - cbn. rewrite (i_queue _ _ I). cbn.
    unfold heappush. rewrite fmap_app. apply NoDup_app. split; [done|].
    split; [|apply NoDup_singleton].
    intros e' He' Hp'%list_elem_of_singleton. cbn in Hp'. subst e'.
    destruct (Hne _ He') as [Hs%(scheduled_old _ _ K) _]. lia.
  - intros a [Ha| ->]%Hsch'; [left; by apply Hsch|]. right.
    exists KInitialize, [CbResume t]. unfold cls, cbs, val. cbn. fold t.
    rewrite !fmap_alter_same by (intros []; reflexivity).
    rewrite lookup_alter_ne by lia. rewrite !lookup_insert_eq. cbn.
    split; [done|]. split; [done|]. split; [done|].
    exists t, (LoadStart crane v). split; [done|].
    rewrite lookup_insert_ne by lia. by rewrite lookup_insert_eq.
  - intros q' pr. cbn. fold t. rewrite (i_procs _ _ I). cbn.
    rewrite !lookup_insert. case_decide as Hd; [|case_decide as Hd'].
    + subst q'. intros [= <-]. right.
      assert (cls s_pre p = Some KProcess) as Hc by (by destruct Hown).
      split; [|exact Hc]. unfold proc_ok. cbn. fold t.
      exists t. split; [done|]. split; [exact Hown|].
      unfold cls, cbs. cbn. fold t.
      rewrite !fmap_alter_same by (intros []; reflexivity).
      rewrite !lookup_alter_eq, !lookup_insert_ne by lia.
      rewrite !lookup_insert_eq. cbn. split; [done|]. split; [done|].
      exists (LoadStart crane v), (Some (S t)).
      rewrite lookup_insert_ne by lia. rewrite lookup_insert_eq. tauto.
    + subst q'. intros [= <-]. right.
      assert (cls (suspended p t (ArriveUnload v r crane)
                 (spawned (LoadStart crane v) s1)) t = Some KProcess) as Hc.
      { unfold cls. cbn. fold t.
        rewrite !fmap_alter_same by (intros []; reflexivity).
        rewrite !lookup_insert_ne by lia. by rewrite lookup_insert_eq. }
      split; [|exact Hc]. unfold proc_ok. cbn. fold t.
      exists (S t), p, r. split; [done|]. split.
      { unfold wakes, cls, cbs, val. cbn. fold t.
        rewrite !fmap_alter_same by (intros []; reflexivity).
        rewrite lookup_alter_ne by lia. rewrite !lookup_insert_eq. cbn. tauto. }
      split.
      { split; [exact Hc|]. unfold cbs, val. cbn. fold t.
        rewrite lookup_alter_eq. rewrite !lookup_insert_ne by lia.
        rewrite !lookup_insert_eq. cbn. split; [done|]. split; [done|].
        intros [Hs%Hsch| Hs]%Hsch'; [|lia].
        destruct Hs as [Hs%(scheduled_old _ _ K) _]. lia. }
      by rewrite lookup_insert_eq.
    + intros Hq'. left. by split.
  - intros r'. cbn. rewrite (i_berths _ _ I). cbn. intros Hr'.
    left. split; [done|]. intros ->. by apply rs_not_waiting.
  - cbn. rewrite (i_berths _ _ I). apply (k_waiting_nodup _ K).
  - cbn. rewrite (i_get _ _ I). apply (k_get _ K).
Qed.

(** The loop head of [vessel_on_the_terminal]. *)
Lemma kernel_arrivals_next (s1 : state) j :
  inert (taken x rest s) s1 ->
  g = ArrivalsStart \/ (exists i, g = ArrivalsYield i) ->
  kernel (arrivals_next cfg j p s1).
Proof.
  intros I Hg. unfold arrivals_next.
  destruct (j <=? NUM_VESSEL cfg); [|by apply kernel_ended].
  destruct (Qeq_bool _ _); [by apply kernel_ended|].
  assert (inert (taken x rest s)
            (upd_rng (fun _ => snd (expovariate
               (1 / AVERAGE_VESSEL_ARRIVAL_INTERVAL cfg)%Q (rng s1))) s1)) as I'.
  { by destruct I. }
  destruct (Qlt_le_dec _ _); [by apply kernel_ended|].
  by apply (kernel_timeout _ (ArrivalsYield j)).
Qed.

End Resuming.

(** A state that differs from [s0] only in what the program keeps for
    itself: the log, the pool of cranes, the vessels, the random numbers. *)
Record cosmetic (s0 s1 : state) : Prop := {
  co_now : now s1 = now s0;
  co_queue : _queue s1 = _queue s0;
  co_eid : _eid s1 = _eid s0;
  co_next : next_obj s1 = next_obj s0;
  co_events : events s1 = events s0;
  co_procs : procs s1 = procs s0;
  co_berths : berths s1 = berths s0
}.

Lemma cosmetic_refl (s : state) : cosmetic s s.
Proof. by split. Qed.

Lemma cosmetic_inert (s0 s1 : state) : cosmetic s0 s1 -> inert s0 s1.
Proof.
  intros []. split; try done; unfold cls, cbs, val; intros;
    rewrite ?co_events0, ?co_berths0; done.
Qed.

Lemma inert_logged (s0 s1 : state) msg : inert s0 s1 -> inert s0 (logged msg s1).
Proof. by intros []. Qed.

Lemma inert_now (s : state) f : inert s (upd_now f s).
Proof. by split. Qed.

(** The entry that [schedule] pushes at time [t]. *)
Definition pushed (t : Q) (prio e : nat) (s : state) : entry :=
  Entry (t + 0) prio (_eid s) e.

Lemma removal_push q x rest y :
  removal q x rest -> removal (q ++ [y]) x (rest ++ [y]).
Proof.
  intros (l1 & l2 & -> & ->). exists l1, (l2 ++ [y]).
  by rewrite <- !app_assoc.
Qed.

Lemma popped_old (s : state) x rest :
  kernel s -> removal (_queue s) x rest -> event_of x < next_obj s.
Proof.
  intros K Hpop. destruct (heappop_rest _ _ _ (k_nodup _ K) Hpop) as (Hx & _).
  apply (scheduled_old _ _ K). by apply list_elem_of_fmap_2.
Qed.

Ltac map_cases :=
  repeat first
    [ rewrite fmap_alter_same by (intros []; reflexivity)
    | rewrite lookup_alter_None
    | rewrite lookup_alter
    | rewrite lookup_insert ];
  repeat case_decide; subst; try lia; try done;
  try (match goal with |- context [events ?s !! ?a] =>
         destruct (events s !! a) as [[]|]; done end).

(** A release or a new vessel made while a process runs could as well
    have been made just before the step: the process is resumed in the
    same way and the step ends in the same state. *)
Lemma resuming_released (s : state) x rest p g r :
  resuming s x rest p g ->
  resuming (released r (upd_now (fun _ => time x) s)) x
    (rest ++ [pushed (time x) NORMAL (next_obj s) s]) p g.
Proof.
  intros [K Hpop Hcb Hp]. pose proof (popped_old _ _ _ K Hpop) as Hold. split.
  - apply kernel_released. apply (kernel_inert s); [done|apply inert_now].
  - by apply removal_push.
  - intros c q Hc. apply (Hcb c q). unfold cbs in *. cbn in Hc.
    rewrite fmap_alter_same in Hc by (intros []; reflexivity).
    rewrite lookup_alter_ne, lookup_insert_ne in Hc by lia. done.
  - done.
Qed.

Lemma commute_released (s : state) x rest r (s1 : state) :
  kernel s -> removal (_queue s) x rest ->
  cosmetic (taken x rest s) s1 ->
  inert (taken x (rest ++ [pushed (time x) NORMAL (next_obj s) s])
           (released r (upd_now (fun _ => time x) s)))
        (released r s1).
Proof.
  intros K Hpop [Hnow Hq He Hn Hev Hpr Hb].
  pose proof (popped_old _ _ _ K Hpop) as Hold. cbn in *.
  split; cbn; rewrite ?Hnow, ?Hq, ?He, ?Hn, ?Hev, ?Hpr, ?Hb; try done;
    intros a; unfold cls, cbs, val; cbn; rewrite ?Hn, ?Hev; map_cases.
Qed.

Lemma resuming_launched (s : state) x rest p g i :
  resuming s x rest p g ->
  resuming (launched cfg i (upd_now (fun _ => time x) s)) x
    (rest ++ [pushed (time x) URGENT (S (next_obj s)) s]) p g.
Proof.
  intros [K Hpop Hcb Hp]. pose proof (popped_old _ _ _ K Hpop) as Hold.
  pose proof (old_proc _ _ _ K Hp) as Hpold. split.
  - apply kernel_launched. apply (kernel_inert s); [done|apply inert_now].
  - by apply removal_push.
  - intros c q Hc. apply (Hcb c q). unfold cbs in *. cbn in Hc.
    rewrite !lookup_insert_ne in Hc by lia. done.
  - cbn. by rewrite lookup_insert_ne by lia.
Qed.

Lemma commute_launched (s : state) x rest i :
  kernel s -> removal (_queue s) x rest ->
  inert (taken x (rest ++ [pushed (time x) URGENT (S (next_obj s)) s])
           (launched cfg i (upd_now (fun _ => time x) s)))
        (launched cfg i (taken x rest s)).
Proof.
  intros K Hpop.
  pose proof (popped_old _ _ _ K Hpop) as Hold.
  split; cbn; try done; intros a; unfold cls, cbs, val; cbn; map_cases.
Qed.

(** Lines 72-82 of [Vessel.arrive]. *)
Lemma kernel_unloading (s : state) x rest p g (s1 : state) v r crane :
  resuming s x rest p g -> vessel_frame g ->
  cosmetic (taken x rest s) s1 ->
  kernel (unloading p v r crane s1).
Proof.
  intros R Hfam C. unfold unloading.
  destruct (0 <? containers_left (the_vessel s1 v))%Z.
  - apply (kernel_child s x rest p g R); [by apply cosmetic_inert|done].
  - apply (kernel_ended _ _ _ _ _ (resuming_released s x rest p g r R)); [|done].
    apply inert_logged.
    apply (commute_released s x rest r); [apply R|apply R|by destruct C].
Qed.

(** Every transition keeps the invariant. *)
Theorem kernel_transition (s s' : state) :
  kernel s -> transition cfg s s' -> kernel s'.
Proof.
  intros K T. destruct T as
    [ Hpop
    | x rest k v d Hpop Hev
    | x rest r d Hpop Hev
    | x rest v d Hpop Hev
    | x rest k d p t Hpop Hev Hp
    | x rest k d p t i Hpop Hev Hp
    | x rest k d p t v Hpop Hev Hp
    | x rest d p t v r Hpop Hev Hp
    | x rest d p t v r crane Hpop Hev Hp
    | x rest d p t v r crane exc Hpop Hev Hp
    | x rest k d p t crane v Hpop Hev Hp
    | x rest k d p t crane v Hpop Hev Hp ].
  - done.
  - apply kernel_idle; [done|by apply heappop_removal|].
    intros c q. unfold cbs. rewrite Hev. cbn. intros [= <-].
    by rewrite list_elem_of_singleton.
  - apply kernel_release; [done|by apply heappop_removal|].
    intros c q. unfold cbs. rewrite Hev. cbn. intros [= <-].
    by rewrite list_elem_of_singleton.
  - apply kernel_idle; [done|by apply heappop_removal|].
    intros c q. unfold cbs. rewrite Hev. cbn. intros [= <-]. by intros ?%elem_of_nil.
  - pose proof (resuming_wake _ _ _ _ _ _ _ _ _ K Hpop Hev Hp) as R.
    apply (kernel_arrivals_next s x rest p _ R); [apply inert_refl|by left].
  - pose proof (resuming_wake _ _ _ _ _ _ _ _ _ K Hpop Hev Hp) as R.
    destruct (_ <? _).
    + apply (kernel_arrivals_next _ _ _ _ _ (resuming_launched s x rest p _ i R)).
      * apply commute_launched; apply R.
      * right. by exists i.
    + apply (kernel_arrivals_next s x rest p _ R); [apply inert_refl|].
      right. by exists i.
  - pose proof (resuming_wake _ _ _ _ _ _ _ _ _ K Hpop Hev Hp) as R.
    exact (kernel_request s x rest p _ R (logged (VesselArrives v) (taken x rest s)) v
             (inert_logged _ _ _ (inert_refl _)) I).
  - assert (resuming s x rest p (ArriveBerth v r)) as R.
    { pose proof Hpop as Hpop'%heappop_removal.
      destruct (heappop_rest _ _ _ (k_nodup _ K) Hpop') as (Hx & _).
      destruct (k_heap _ K x Hx) as (k' & c & Hc & Hb & Hshape).
      unfold cls, cbs in Hc, Hb. rewrite Hev in Hc, Hb. cbn in Hc, Hb.
      injection Hc as <-. injection Hb as <-.
      destruct Hshape as (_ & q & u & [= <-] & Hq). rewrite Hp in Hq.
      simplify_eq. split; [done|done| |done].
      intros c q. unfold cbs. rewrite Hev. cbn. intros [= <-].
      rewrite !elem_of_cons. intros [?|[[= ->]|?%elem_of_nil]]; done. }
    unfold berthing. destruct (quay_cranes _) as [|crane pool].
    + apply (kernel_ended s x rest p _ R); [|done].
      apply inert_logged, inert_refl.
    + apply (kernel_unloading s x rest p _ _ v r crane R I). by split.
  - pose proof (resuming_wake _ _ _ _ _ _ _ _ _ K Hpop Hev Hp) as R.
    apply (kernel_unloading s x rest p _ _ v r crane R I). apply cosmetic_refl.
  - pose proof (resuming_wake _ _ _ _ _ _ _ _ _ K Hpop Hev Hp) as R.
    apply (kernel_ended s x rest p _ R); [|done].
    split; try done; intros a; unfold cls, cbs, val; cbn;
      rewrite ?lookup_alter_None;
      by rewrite ?fmap_alter_same by (intros []; reflexivity).
  - pose proof (resuming_wake _ _ _ _ _ _ _ _ _ K Hpop Hev Hp) as R.
    cbn zeta. destruct (Qlt_le_dec _ _).
    + apply (kernel_ended s x rest p _ R); [|done]. apply inert_logged, inert_refl.
    + apply (kernel_timeout s x rest p _ R _ (LoadYield crane v));
        [apply inert_logged, inert_refl|done].
  - pose proof (resuming_wake _ _ _ _ _ _ _ _ _ K Hpop Hev Hp) as R.
    apply (kernel_ended s x rest p _ R); [|done].
    apply inert_logged. by split.
Qed.

(** A grant touches neither the processes nor what the program keeps for
    itself. *)
Lemma granting_procs (s : state) : procs (granting s) = procs s.
Proof. unfold granting. destruct (queue _); [done|]. by destruct (_ <? _). Qed.

Lemma granting_vessels (s : state) : vessels (granting s) = vessels s.
Proof. unfold granting. destruct (queue _); [done|]. by destruct (_ <? _). Qed.

Lemma granting_stdout (s : state) : stdout (granting s) = stdout s.
Proof. unfold granting. destruct (queue _); [done|]. by destruct (_ <? _). Qed.

Lemma granting_now (s : state) : now (granting s) = now s.
Proof. unfold granting. destruct (queue _); [done|]. by destruct (_ <? _). Qed.

Lemma requested_procs (s : state) : procs (requested s) = procs s.
Proof. unfold requested. by rewrite granting_procs. Qed.

Lemma requested_vessels (s : state) : vessels (requested s) = vessels s.
Proof. unfold requested. by rewrite granting_vessels. Qed.

Lemma requested_stdout (s : state) : stdout (requested s) = stdout s.
Proof. unfold requested. by rewrite granting_stdout. Qed.

Lemma requested_now (s : state) : now (requested s) = now s.
Proof. unfold requested. by rewrite granting_now. Qed.

(** Two states with the same fields are the same. *)
Lemma state_eq (s s' : state) :
  now s = now s' -> _queue s = _queue s' -> _eid s = _eid s' ->
  next_obj s = next_obj s' -> events s = events s' -> procs s = procs s' ->
  berths s = berths s' -> quay_cranes s = quay_cranes s' -> trucks s = trucks s' ->
  vessels s = vessels s' -> stdout s = stdout s' -> rng s = rng s' -> s = s'.
Proof. destruct s, s'. cbn. by intros -> -> -> -> -> -> -> -> -> -> -> ->. Qed.

(** Registering a process on an event commutes with a grant. *)
Lemma granting_suspended (s2 : state) p e g :
  suspended p e g (granting s2) = granting (suspended p e g s2).
Proof.
  unfold granting.
  change (queue (berths (suspended p e g s2))) with (queue (berths s2)).
  change (users (berths (suspended p e g s2))) with (users (berths s2)).
  change (capacity (berths (suspended p e g s2))) with (capacity (berths s2)).
  destruct (queue (berths s2)) as [|h tl]; [reflexivity|].
  destruct (length (users (berths s2)) <? capacity (berths s2)); [|reflexivity].
  apply state_eq; cbn; try reflexivity.
  apply map_eq. intros a. rewrite !lookup_alter.
  repeat case_decide; subst; try reflexivity; by destruct (events s2 !! _) as [[]|].
Qed.

Lemma requested_queued (s1 : state) p v :
  suspended p (next_obj s1) (ArriveBerth v (next_obj s1)) (requested s1) =
  granting (queued p v s1).
Proof. unfold requested, queued. apply granting_suspended. Qed.

(** ** The states the program reaches *)

(** The state after [Terminal(env, ...)]. *)
Definition terminal (seed : rng_state) : state :=
  upd_trucks (fun _ => seq 1 (NUM_TRUCKS cfg))
    (upd_quay_cranes (fun _ => seq 1 (NUM_QUAY_CRANES cfg))
      (upd_berths (fun _ => MkResource (NUM_BERTHS cfg) [] [] []) (fresh seed))).

(** The until event of [env.run], [d] from now. *)
Definition until_in (d : Q) (s : state) : state :=
  hooked (next_obj s) CbStopSimulation
    (sched (next_obj s) URGENT d (alloc KEvent [] Succeeded s)).

(** The state in which the loop of [env.run] starts: the arrival process is
    object 0, its start event object 1, the until event object 2. *)
Definition booted (seed : rng_state) : state :=
  until_in (SIMULATION_TIME cfg - 0) (spawned ArrivalsStart (terminal seed)).

Lemma Terminal_init_eq (seed : rng_state) :
  (NUM_BERTHS cfg =? 0) = false ->
  Terminal_init cfg (fresh seed) = (inr tt, terminal seed).
Proof. intros Hnb. unfold Terminal_init, bind. by rewrite Hnb. Qed.

Lemma run_until_eq (s : state) at_ :
  Qle_bool at_ (now s) = false ->
  run_until at_ s = (inr tt, until_in (at_ - now s) s).
Proof. intros Hle. unfold run_until, bind, get. by rewrite Hle. Qed.

Lemma run_until_raise (s : state) at_ :
  Qle_bool at_ (now s) = true -> run_until at_ s = (inl ValueError, s).
Proof. intros Hle. unfold run_until, bind, get. by rewrite Hle. Qed.

Lemma boot_cases (seed : rng_state) :
  (NUM_BERTHS cfg = 0 /\ boot cfg (fresh seed) = (inl ValueError, fresh seed)) \/
  (NUM_BERTHS cfg <> 0 /\
   boot cfg (fresh seed) = (inl ValueError, spawned ArrivalsStart (terminal seed))) \/
  (NUM_BERTHS cfg <> 0 /\ boot cfg (fresh seed) = (inr tt, booted seed)).
Proof.
  unfold boot.
  destruct (NUM_BERTHS cfg =? 0) eqn:Hnb.
  { left. split; [by apply Nat.eqb_eq|]. unfold Terminal_init, bind. by rewrite Hnb. }
  right. apply Nat.eqb_neq in Hnb as Hnb'.
  unfold bind. rewrite Terminal_init_eq by done. rewrite process_eq.
  destruct (Qle_bool (SIMULATION_TIME cfg)
              (now (spawned ArrivalsStart (terminal seed)))) eqn:Hle.
  - left. split; [done|]. by rewrite run_until_raise.
  - right. split; [done|]. by rewrite run_until_eq.
Qed.

Lemma kernel_fresh (seed : rng_state) : kernel (fresh seed).
Proof.
  split; cbn; try done.
  - apply NoDup_nil_2.
  - by intros x ?%elem_of_nil.
  - by intros r ?%elem_of_nil.
  - apply NoDup_nil_2.
Qed.

(** [env.process(vessel_on_the_terminal(...))] on its own. *)
Lemma kernel_spawned (s : state) : kernel s -> kernel (spawned ArrivalsStart s).
Proof.
  intros K. set (n := next_obj s).
  destruct (k_fresh _ K n) as [Hne Hnp]; [unfold n; lia|].
  destruct (k_fresh _ K (S n)) as [Hne' Hnp']; [unfold n; lia|].
  assert (~ scheduled s n) as Hns.
  { intros Hs%(scheduled_old _ _ K). unfold n in Hs. lia. }
  assert (~ scheduled s (S n)) as Hns'.
  { intros Hs%(scheduled_old _ _ K). unfold n in Hs. lia. }
  eapply (kernel_grow s _ (fun _ => False) K); try done.
  - tauto.
  - apply changes_spawned; lia.
  - cbn. fold n. intros a Ha. destruct (k_fresh _ K a) as [He' Hp']; [unfold n in *; lia|].
    by rewrite !lookup_insert_ne by lia.
  - cbn. unfold heappush. rewrite fmap_app. apply NoDup_app.
    split; [apply (k_nodup _ K)|]. split; [|apply NoDup_singleton].
    intros e' He' Hp'%list_elem_of_singleton. cbn in Hp'. by subst e'.
  - intros a [Ha| ->]%scheduled_spawned; [by left|]. right.
    exists KInitialize, [CbResume n]. unfold cls, cbs, val. cbn. fold n.
    rewrite !lookup_insert_eq. cbn. split; [done|]. split; [done|]. split; [done|].
    exists n, ArrivalsStart. by rewrite lookup_insert_eq.
  - intros q pr. cbn. fold n. rewrite lookup_insert. case_decide as Hd; [|by left].
    subst q. intros [= <-]. right.
    assert (cls (spawned ArrivalsStart s) n = Some KProcess) as Hc.
    { unfold cls. cbn. fold n. rewrite lookup_insert_ne by lia.
      by rewrite lookup_insert_eq. }
    split; [|done]. unfold proc_ok. cbn. fold n. exists (S n). split; [done|]. split.
    + unfold wakes, cls, cbs, val. cbn. fold n. rewrite !lookup_insert_eq. cbn. tauto.
    + split; [done|]. unfold cbs, val. cbn. fold n.
      rewrite !lookup_insert_ne by lia. rewrite !lookup_insert_eq. cbn.
      split; [done|]. split; [done|].
      intros [Hs|Hs]%scheduled_spawned; [done|]. unfold n in Hs. lia.
  - intros r' Hr. left. split; [done|tauto].
  - apply (k_waiting_nodup _ K).
  - apply (k_get _ K).
Qed.

(** The until event of [env.run]. *)
Lemma kernel_until (s : state) d : kernel s -> kernel (until_in d s).
Proof.
  intros K. unfold until_in. set (n := next_obj s).
  destruct (k_fresh _ K n) as [Hne Hnp]; [unfold n; lia|].
  eapply (kernel_grow s _ (fun _ => False) K); try done.
  - tauto.
  - eapply changes_last; [apply changes_hooked; unfold n; lia|].
    eapply changes_last; [apply changes_sched; left; unfold n; lia|].
    by apply changes_alloc.
  - cbn. fold n. intros a Ha. destruct (k_fresh _ K a) as [He' Hp']; [unfold n in *; lia|].
    rewrite !lookup_alter_None. by rewrite lookup_insert_ne by lia.
  - cbn. unfold heappush. rewrite fmap_app. apply NoDup_app.
    split; [apply (k_nodup _ K)|]. split; [|apply NoDup_singleton].
    intros e' He' Hp'%list_elem_of_singleton. cbn in Hp'. subst e'.
    apply (scheduled_old _ _ K) in He'. unfold n in He'. lia.
  - intros a Ha.
    apply (scheduled_sched n URGENT d (alloc KEvent [] Succeeded s) a) in Ha.
    destruct Ha as [Ha| ->]; [by left|]. right.
    exists KEvent, [CbStopSimulation]. unfold cls, cbs. cbn. fold n.
    rewrite !fmap_alter_same by (intros []; reflexivity).
    rewrite !lookup_alter_eq, !lookup_insert_eq. cbn. tauto.
  - intros q pr Hq. by left.
  - intros r' Hr. left. split; [done|tauto].
  - apply (k_waiting_nodup _ K).
  - apply (k_get _ K).
Qed.

Lemma kernel_terminal (seed : rng_state) : kernel (terminal seed).
Proof.
  split; cbn; try done.
  - apply NoDup_nil_2.
  - by intros x ?%elem_of_nil.
  - by intros r ?%elem_of_nil.
  - apply NoDup_nil_2.
Qed.

Lemma kernel_booted (seed : rng_state) : kernel (booted seed).
Proof. apply (kernel_until (spawned ArrivalsStart (terminal seed))), kernel_spawned, kernel_terminal. Qed.

(** What holds when the loop of [env.run] starts and is kept by every
    transition holds in every state the program reaches. *)
Theorem after_ind (P : state -> Prop) :
  (NUM_BERTHS cfg = 0 -> forall seed, P (fresh seed)) ->
  (NUM_BERTHS cfg <> 0 -> forall seed, P (spawned ArrivalsStart (terminal seed))) ->
  (NUM_BERTHS cfg <> 0 -> forall seed, P (booted seed)) ->
  (forall s s', kernel s -> P s -> transition cfg s s' -> P s') ->
  forall n seed, kernel (snd (after cfg n seed)) /\ P (snd (after cfg n seed)).
Proof.
  intros Hfresh Hspawn Hboot Hstep n seed. unfold after, bind.
  destruct (boot_cases seed) as [[Hnb ->] | [[Hnb ->] | [Hnb ->]]].
  - split; [apply kernel_fresh|by apply Hfresh].
  - split; [apply kernel_spawned, kernel_terminal|by apply Hspawn].
  - assert (forall s, kernel s -> P s ->
              kernel (snd (steps cfg n s)) /\ P (snd (steps cfg n s))) as Hsteps.
    { induction n as [|n IH]; intros s K HP; [done|].
      cbn [steps]. unfold bind.
      pose proof (step_transition cfg s K) as T.
      pose proof (kernel_transition s _ K T) as K'.
      pose proof (Hstep s _ K HP T) as HP'.
      destruct (step cfg s) as [[exc|[]] s']; [done|]. by apply IH. }
    apply Hsteps; [apply kernel_booted|by apply Hboot].
Qed.

Theorem kernel_after n seed : kernel (snd (after cfg n seed)).
Proof. by apply (after_ind (fun _ => True)). Qed.

End KernelInvariant.

(** Resolving the case distinctions inside the state a transition ends in. *)
Ltac leaves :=
  repeat first
    [ progress unfold arrivals_next, berthing, unloading
    | progress cbv zeta
    | match goal with
      | |- context [if ?c then _ else _] => destruct c eqn:?
      | |- context [match ?c with [] => _ | _ :: _ => _ end] => destruct c eqn:?
      end ].

(** The classes and values of the events after a step, from the updates
    the step made: a new event is none of the old ones, and the event
    whose value is set is the process that ran. *)
Ltac classes :=
  let b := fresh "b" in
  intros b; unfold cls; cbn;
  repeat first
    [ rewrite fmap_alter_same by (intros []; reflexivity)
    | rewrite lookup_insert; case_decide; [subst b; cbn; try done; try lia|] ];
  try done.

Ltac kept K :=
  let b := fresh "b" in
  let Hb := fresh "Hb" in
  let Hold := fresh "Hold" in
  intros b Hb; pose proof (old_cls _ _ _ K Hb) as Hold; cbn in Hold;
  split; [revert Hb|]; unfold cls, val; cbn;
  repeat first
    [ rewrite fmap_alter_same by (intros []; reflexivity)
    | rewrite lookup_alter; case_decide; [subst; first [congruence|lia]|]
    | rewrite lookup_insert; case_decide; [subst; first [congruence|lia]|] ];
  try done; try (intros; lia).

Ltac process_class K :=
  try match goal with
      | Hp : procs ?s !! ?p = Some _ |- _ => pose proof (k_proc_cls _ K _ _ Hp)
      end.

(** ** [users.remove(request)] *)

Lemma elem_of_remove_first (a r : nat) (l : list nat) :
  a ∈ remove_first r l -> a ∈ l.
Proof.
  induction l as [|y l IH]; cbn; [done|].
  destruct (decide _); rewrite ?elem_of_cons; tauto.
Qed.

Lemma elem_of_remove_first_ne (a r : nat) (l : list nat) :
  a ∈ l -> a <> r -> a ∈ remove_first r l.
Proof.
  induction l as [|y l IH]; cbn; [done|].
  destruct (decide _) as [->|Hne]; rewrite !elem_of_cons.
  - intros [->|Ha] Har; [done|done].
  - intros [->|Ha] Har; [by left|]. right. by apply IH.
Qed.

Lemma NoDup_remove_first (r : nat) (l : list nat) :
  NoDup l -> NoDup (remove_first r l).
Proof.
  induction l as [|y l IH]; cbn; [done|]. rewrite NoDup_cons. intros [Hy Hl].
  destruct (decide _); [done|]. apply NoDup_cons. split; [|by apply IH].
  by intros ?%elem_of_remove_first.
Qed.

Lemma remove_first_gone (r : nat) (l : list nat) :
  NoDup l -> r ∉ remove_first r l.
Proof.
  induction l as [|y l IH]; cbn; [by intros _ ?%elem_of_nil|].
  rewrite NoDup_cons. intros [Hy Hl].
  destruct (decide _) as [->|Hne]; [done|].
  rewrite elem_of_cons. intros [?|?]; [done|]. by apply IH.
Qed.

Lemma length_remove_first_S (r : nat) (l : list nat) :
  length l <= S (length (remove_first r l)).
Proof.
  induction l as [|y l IH]; cbn; [lia|]. destruct (decide _); cbn; lia.
Qed.

(** ** The berths are granted in the order of the requests *)

Section Fifo.
Context `{Random} (cfg : config).

Local Arguments granting : simpl never.
Local Arguments requested : simpl never.

(** Requests are numbered in the order in which they are made.  The wait
    queue is in that order, every request made after a waiting one waits
    as well, and a request that holds a berth has been granted. *)
Record fifo (s : state) : Prop := {
  fi_sorted : StronglySorted lt (queue (berths s));
  fi_later : forall a b, a ∈ queue (berths s) -> cls s b = Some KRequest -> a < b ->
             b ∈ queue (berths s);
  fi_users : forall r, r ∈ users (berths s) ->
             cls s r = Some KRequest /\ val s r = Some Succeeded
}.

(** A step that leaves the wait queue and the requests alone. *)
Lemma fifo_keep (s s' : state) :
  fifo s ->
  queue (berths s') = queue (berths s) ->
  (forall r, r ∈ users (berths s') -> r ∈ users (berths s)) ->
  (forall b, cls s' b = Some KRequest -> cls s b = Some KRequest) ->
  (forall b, cls s b = Some KRequest ->
     cls s' b = Some KRequest /\ val s' b = val s b) ->
  fifo s'.
Proof.
  intros [Hs Hl Hu] Hq Hsub Hnew Hold. split; rewrite ?Hq.
  - done.
  - intros a b Ha Hc. apply Hl; [done|by apply Hnew].
  - intros r Hr%Hsub. destruct (Hu r Hr) as [Hc Hv].
    destruct (Hold r Hc) as [Hc' Hv']. by rewrite Hv'.
Qed.

(** [_trigger_put] keeps the order: it grants the oldest request. *)
Lemma fifo_granting (s : state) :
  (forall h tl, queue (berths s) = h :: tl -> cls s h = Some KRequest) ->
  fifo s -> fifo (granting s).
Proof.
  intros Hhead [Hs Hl Hu]. unfold granting.
  destruct (queue (berths s)) as [|h tl] eqn:Hq; [by split; rewrite ?Hq|].
  destruct (_ <? _); [|by split; rewrite ?Hq].
  specialize (Hhead h tl eq_refl).
  apply StronglySorted_inv in Hs as [Hs Hh]. rewrite Forall_forall in Hh.
  split; cbn; rewrite ?Hq; cbn.
  - done.
  - intros a b Ha Hc Hab.
    assert (cls s b = Some KRequest) as Hc'.
    { revert Hc. unfold cls. cbn.
      by rewrite fmap_alter_same by (intros []; reflexivity). }
    assert (a ∈ h :: tl) as Ha' by (by right). specialize (Hl a b Ha' Hc' Hab).
    apply elem_of_cons in Hl as [->|Hl]; [|done].
    specialize (Hh a Ha). lia.
  - intros r. rewrite elem_of_app, list_elem_of_singleton. unfold cls, val. cbn.
    rewrite fmap_alter_same by (intros []; reflexivity).
    rewrite lookup_alter. case_decide as Hd.
    + subst r. intros _. split; [done|]. unfold cls in Hhead.
      by destruct (events s !! h).
    + intros [Hr|Hr]; [by apply Hu|done].
Qed.

Lemma fifo_step (s s' : state) :
  kernel s -> fifo s -> transition cfg s s' -> fifo s'.
Proof.
  intros K F T. destruct T; leaves; process_class K.
  all: try (apply (fifo_keep s); [done|reflexivity|done|classes|kept K]).
  - (* a release is processed *)
    apply fifo_granting.
    + intros h tl Hq. destruct (k_waiting _ K h) as (? & ? & Hc & _).
      { change (queue (berths (taken x rest s))) with (queue (berths s)) in Hq.
        rewrite Hq. left. }
      revert Hc. unfold cls. cbn.
      by rewrite fmap_alter_same by (intros []; reflexivity).
    + apply (fifo_keep s); [done|reflexivity|done|classes|kept K].
  - (* a vessel asks for a berth *)
    set (n := next_obj s).
    set (s2 := hooked n CbTriggerGet
      (upd_berths (fun r0 =>
         MkResource (capacity r0) (users r0) (queue r0 ++ [n]) (get_queue r0))
        (alloc KRequest [] PENDING (logged (VesselArrives v) (taken x rest s))))).
    assert (forall a, a ∈ queue (berths s) -> cls s a = Some KRequest /\ a < n) as Hwait.
    { intros a Ha. destruct (k_waiting _ K a Ha) as (? & ? & Hc & _).
      split; [done|]. by eapply old_cls. }
    assert (forall b, cls s2 b = Some KRequest -> b = n \/ cls s b = Some KRequest) as Hnew.
    { intros b. unfold cls. cbn. fold n.
      rewrite !fmap_alter_same by (intros []; reflexivity).
      rewrite lookup_insert. case_decide; [by left|].
      rewrite fmap_alter_same by (intros []; reflexivity). by right. }
    assert (forall b, cls s b = Some KRequest ->
              cls s2 b = Some KRequest /\ val s2 b = val s b) as Hold.
    { kept K. }
    assert (fifo s2) as F2.
    { destruct F as [Hs Hl Hu]. split; cbn.
      - apply StronglySorted_app_2; [|done|repeat constructor].
        intros a b Ha ->%list_elem_of_singleton. by apply Hwait.
      - intros a b Ha [->|Hc]%Hnew Hab; rewrite elem_of_app, list_elem_of_singleton;
          [by right|left].
        apply elem_of_app in Ha as [Ha| ->%list_elem_of_singleton].
        + by apply (Hl a b).
        + pose proof (old_cls _ _ _ K Hc). lia.
      - intros r0 Hr. destruct (Hu r0 Hr) as [Hc Hv].
        destruct (Hold r0 Hc) as [Hc' Hv']. by rewrite Hv'. }
    assert (fifo (requested (logged (VesselArrives v) (taken x rest s)))) as F3.
    { apply (fifo_granting s2); [|done].
      intros h tl. cbn. intros Hq.
      assert (h ∈ queue (berths s) ++ [n]) as Hh by (rewrite Hq; left).
      apply elem_of_app in Hh as [Hh| ->%list_elem_of_singleton].
      - by apply Hold, Hwait.
      - unfold cls. cbn. fold n.
        rewrite !fmap_alter_same by (intros []; reflexivity).
        by rewrite lookup_insert_eq. }
    revert F3. generalize (requested (logged (VesselArrives v) (taken x rest s))).
    intros s3 F3. apply (fifo_keep _ _ F3); [reflexivity|done| |].
    + intros b. unfold cls. cbn.
      by rewrite !fmap_alter_same by (intros []; reflexivity).
    + intros b Hb. split.
      * revert Hb. unfold cls. cbn.
        by rewrite !fmap_alter_same by (intros []; reflexivity).
      * unfold val. cbn. by rewrite !fmap_alter_same by (intros []; reflexivity).
  - (* a vessel leaves right after berthing *)
    apply (fifo_keep s); [done|reflexivity| |classes|kept K].
    intros r0. cbn. apply elem_of_remove_first.
  - (* a vessel leaves *)
    apply (fifo_keep s); [done|reflexivity| |classes|kept K].
    intros r0. cbn. apply elem_of_remove_first.
Qed.

Lemma fifo_idle (s : state) :
  queue (berths s) = [] -> users (berths s) = [] -> fifo s.
Proof.
  intros Hq Hu. split; rewrite ?Hq, ?Hu.
  - constructor.
  - by intros a b ?%elem_of_nil.
  - by intros r ?%elem_of_nil.
Qed.

Lemma fifo_after n seed : fifo (snd (after cfg n seed)).
Proof.
  apply (after_ind cfg fifo); try (intros; by apply fifo_idle).
  intros s s' K F T. by apply (fifo_step s).
Qed.

(** C3: requests for a berth are numbered in the order in which they are
    made, and in every state the program reaches, a request [b] made after a
    request [a] that is still in the wait queue has not been granted: it is
    in the wait queue itself, it is still pending, and it holds no berth.
    This does not depend on the times of the events. *)
Theorem berths_granted_in_request_order n seed (a b : nat) :
  a ∈ queue (berths (snd (after cfg n seed))) ->
  cls (snd (after cfg n seed)) b = Some KRequest ->
  a < b ->
  b ∈ queue (berths (snd (after cfg n seed))) /\
  val (snd (after cfg n seed)) b = Some PENDING /\
  b ∉ users (berths (snd (after cfg n seed))).
Proof.
  intros Ha Hb Hab.
  pose proof (kernel_after cfg n seed) as K.
  pose proof (fifo_after n seed) as F.
  pose proof (fi_later _ F a b Ha Hb Hab) as Hq.
  destruct (k_waiting _ K b Hq) as (p & v & _ & _ & Hv & _).
  split; [done|]. split; [done|].
  intros Hu. destruct (fi_users _ F b Hu) as [_ Hv']. congruence.
Qed.

End Fifo.

(** With four vessels arriving at once at the two berths of main.py, the
    third and the fourth wait, in this order. *)
Lemma berths_granted_in_request_order_witness :
  24 ∈ queue (berths (snd (@after scripted main_config 14 [0%Q; 0%Q; 0%Q; 0%Q]))) /\
  val (snd (@after scripted main_config 14 [0%Q; 0%Q; 0%Q; 0%Q])) 24 = Some PENDING /\
  24 ∉ users (berths (snd (@after scripted main_config 14 [0%Q; 0%Q; 0%Q; 0%Q]))).
Proof.
  apply (@berths_granted_in_request_order scripted main_config 14
           [0%Q; 0%Q; 0%Q; 0%Q] 18 24).
  - vm_compute. constructor.
  - vm_compute. reflexivity.
  - lia.
Defined.

(** ** The berths in use *)

Section Berths.
Context `{Random} (cfg : config).

Lemma granting_capacity (s : state) :
  capacity (berths (granting s)) = capacity (berths s).
Proof. unfold granting. destruct (queue _); [done|]. by destruct (_ <? _). Qed.

(** No step changes the capacity that [Terminal.__init__] gave the berths. *)
Lemma capacity_kept (s s' : state) :
  capacity (berths s) = NUM_BERTHS cfg -> transition cfg s s' ->
  capacity (berths s') = NUM_BERTHS cfg.
Proof.
  intros Hc T. destruct T; leaves; try (cbn; exact Hc).
  - by rewrite granting_capacity.
  - pose proof (requested_queued (logged (VesselArrives v) (taken x rest s)) p v) as Hrq.
    change (next_obj (logged (VesselArrives v) (taken x rest s))) with (next_obj s) in Hrq.
    rewrite Hrq. by rewrite granting_capacity.
Qed.

Lemma capacity_fixed n seed :
  capacity (berths (snd (after cfg n seed))) = NUM_BERTHS cfg.
Proof.
  apply (after_ind cfg (fun s => capacity (berths s) = NUM_BERTHS cfg)); try done.
  intros s s' _ Hc T. by apply (capacity_kept s).
Qed.

(** C2: in every state the program reaches, the number of berths in use
    (the length of [users]) is between 0 and the capacity of the resource,
    which is [NUM_BERTHS]; and [request()] and [release()] keep this bound
    in whatever state they are called, also when they raise. *)
Theorem berths_in_use_bounded n seed :
  (0 <= length (users (berths (snd (after cfg n seed)))) <=
     capacity (berths (snd (after cfg n seed)))) /\
  capacity (berths (snd (after cfg n seed))) = NUM_BERTHS cfg /\
  preserves (within_capacity cfg) request /\
  (forall r, preserves (within_capacity cfg) (release r)).
Proof.
  destruct (capacity_after cfg n seed) as [Hu Hc].
  split; [lia|]. split; [apply capacity_fixed|].
  split; [apply capacity_request|apply capacity_release].
Qed.

End Berths.

(** ** The pool of cranes *)

Section Pool.
Context `{Random} (cfg : config).
Hypothesis enough_cranes : NUM_BERTHS cfg <= NUM_QUAY_CRANES cfg.

Local Arguments granting : simpl never.
Local Arguments requested : simpl never.

(** The frames of [Vessel.arrive] that hold a request. *)
Definition berth_frame (g : frame) : Prop :=
  match g with
  | ArriveBerth _ _ | ArriveUnload _ _ _ => True
  | _ => False
  end.

(** [hs] lists the requests whose vessel took a crane and has not given the
    berth back.  They hold distinct berths, so there are at most
    [NUM_BERTHS] of them, and every crane that is not in the pool belongs
    to one of them. *)
Record pool_with (hs : list nat) (s : state) : Prop := {
  po_capacity : capacity (berths s) = NUM_BERTHS cfg;
  po_bound : length (users (berths s)) <= NUM_BERTHS cfg;
  po_nodup : NoDup (users (berths s));
  po_users : forall r, r ∈ users (berths s) ->
             cls s r = Some KRequest /\ val s r = Some Succeeded;
  po_hs_nodup : NoDup hs;
  po_hs_users : forall r, r ∈ hs -> r ∈ users (berths s);
  po_cranes : NUM_BERTHS cfg <> 0 ->
              NUM_QUAY_CRANES cfg <= length (quay_cranes s) + length hs;
  po_waiting : forall p v r t,
      procs s !! p = Some (Process (ArriveBerth v r) t) -> r ∉ hs;
  po_granted : forall p v r t,
      procs s !! p = Some (Process (ArriveBerth v r) t) ->
      val s r = Some Succeeded -> r ∈ users (berths s);
  po_holding : forall p v r c t,
      procs s !! p = Some (Process (ArriveUnload v r c) t) -> r ∈ hs;
  po_one : forall p1 p2 v1 v2 r c1 c2 t1 t2,
      procs s !! p1 = Some (Process (ArriveUnload v1 r c1) t1) ->
      procs s !! p2 = Some (Process (ArriveUnload v2 r c2) t2) -> p1 = p2;
  po_noindex : forall e, val s e <> Some (Failed IndexError)
}.

Definition pool (s : state) : Prop := exists hs, pool_with hs s.

(** A step that leaves the berths, the pool and the vessels at the berths
    alone. *)
Lemma pool_keep (hs : list nat) (s s' : state) :
  kernel s -> pool_with hs s ->
  berths s' = berths s ->
  quay_cranes s' = quay_cranes s ->
  (forall b, cls s b = Some KRequest ->
     cls s' b = Some KRequest /\ val s' b = val s b) ->
  (forall e, val s' e = Some (Failed IndexError) -> val s e = Some (Failed IndexError)) ->
  (forall q g t, procs s' !! q = Some (Process g t) -> berth_frame g ->
     exists t', procs s !! q = Some (Process g t')) ->
  pool_with hs s'.
Proof.
  intros K P Hb Hq Hkept Hidx Hprocs. destruct P. split; rewrite ?Hb, ?Hq; try done.
  - intros r Hr. destruct (po_users0 r Hr) as [Hc Hv].
    destruct (Hkept r Hc) as [Hc' Hv']. by rewrite Hv'.
  - intros p v r t Hp. destruct (Hprocs _ _ _ Hp I) as (t' & Hp'). by eapply po_waiting0.
  - intros p v r t Hp Hv. destruct (Hprocs _ _ _ Hp I) as (t' & Hp').
    eapply po_granted0; [done|].
    destruct (k_procs _ K _ _ Hp') as (_ & _ & Hc & _).
    destruct (Hkept r Hc) as [_ Hv']. by rewrite <- Hv'.
  - intros p v r c t Hp. destruct (Hprocs _ _ _ Hp I) as (t' & Hp'). by eapply po_holding0.
  - intros p1 p2 v1 v2 r c1 c2 t1 t2 Hp1 Hp2.
    destruct (Hprocs _ _ _ Hp1 I) as (t1' & Hp1').
    destruct (Hprocs _ _ _ Hp2 I) as (t2' & Hp2'). by eapply po_one0.
  - intros e He%Hidx. by eapply po_noindex0.
Qed.

(** A request belongs to one vessel. *)
Lemma waiting_unique (s : state) q1 q2 v1 v2 r t1 t2 :
  kernel s ->
  procs s !! q1 = Some (Process (ArriveBerth v1 r) t1) ->
  procs s !! q2 = Some (Process (ArriveBerth v2 r) t2) -> q1 = q2.
Proof.
  intros K H1 H2.
  destruct (k_procs _ K _ _ H1) as (_ & _ & _ & Hb1).
  destruct (k_procs _ K _ _ H2) as (_ & _ & _ & Hb2).
  congruence.
Qed.

(** The granted request that is taken off the heap is the one its vessel
    waits for. *)
Lemma berth_popped (s : state) x rest p u r t v d :
  kernel s -> heappop (_queue s) = Some (x, rest) ->
  events s !! event_of x =
    Some (Event KRequest (Some [CbTriggerGet; CbResume p]) v d) ->
  procs s !! p = Some (Process (ArriveBerth u r) t) ->
  r = event_of x /\ v = Succeeded.
Proof.
  intros K Hpop%heappop_removal Hev Hp.
  destruct (heappop_rest _ _ _ (k_nodup _ K) Hpop) as (Hx & _).
  destruct (k_heap _ K x Hx) as (k' & c & Hc & Hb & Hshape).
  unfold cls, cbs, val in Hc, Hb, Hshape. rewrite Hev in Hc, Hb, Hshape.
  cbn in Hc, Hb, Hshape. injection Hc as <-. injection Hb as <-.
  destruct Hshape as ([= ->] & q & u' & [= <-] & Hq). rewrite Hp in Hq.
  by simplify_eq.
Qed.

(** When a vessel that was granted a berth is about to take a crane, the
    pool is not empty. *)
Lemma pool_nonempty (hs : list nat) (s : state) p v r t :
  pool_with hs s ->
  procs s !! p = Some (Process (ArriveBerth v r) t) ->
  val s r = Some Succeeded ->
  quay_cranes s <> [].
Proof.
  intros P Hp Hv Hnil.
  pose proof (po_granted _ _ P _ _ _ _ Hp Hv) as Hu.
  pose proof (po_waiting _ _ P _ _ _ _ Hp) as Hn.
  assert (NoDup (r :: hs)) as Hnd by (apply NoDup_cons; split; [done|apply P]).
  assert (r :: hs ⊆+ users (berths s)) as Hsub.
  { apply NoDup_submseteq; [done|]. intros a [->|Ha]%elem_of_cons; [done|].
    by apply (po_hs_users _ _ P). }
  apply submseteq_length in Hsub. cbn in Hsub.
  pose proof (po_bound _ _ P) as Hb.
  assert (NUM_BERTHS cfg <> 0) as Hnb by lia.
  pose proof (po_cranes _ _ P Hnb) as Hc. rewrite Hnil in Hc. cbn in Hc. lia.
Qed.

(** What a step must show for the requests and the vessels it touched. *)
Lemma pool_update (hs hs' : list nat) (s s' : state) :
  kernel s -> pool_with hs s ->
  capacity (berths s') = capacity (berths s) ->
  (forall r, r ∈ users (berths s') -> r ∈ users (berths s)) ->
  NoDup (users (berths s')) ->
  length (users (berths s')) <= length (users (berths s)) ->
  (forall b, cls s b = Some KRequest ->
     cls s' b = Some KRequest /\ val s' b = val s b) ->
  (forall e, val s' e = Some (Failed IndexError) -> val s e = Some (Failed IndexError)) ->
  NoDup hs' ->
  (forall r, r ∈ hs' -> r ∈ users (berths s')) ->
  (NUM_BERTHS cfg <> 0 ->
   NUM_QUAY_CRANES cfg <= length (quay_cranes s') + length hs') ->
  (forall q v r t, procs s' !! q = Some (Process (ArriveBerth v r) t) ->
     (r ∉ hs') /\
     (val s' r = Some PENDING \/
      ((exists t', procs s !! q = Some (Process (ArriveBerth v r) t')) /\
       (r ∈ users (berths s) -> r ∈ users (berths s'))))) ->
  (forall q v r c t, procs s' !! q = Some (Process (ArriveUnload v r c) t) -> r ∈ hs') ->
  (forall p1 p2 v1 v2 r c1 c2 t1 t2,
      procs s' !! p1 = Some (Process (ArriveUnload v1 r c1) t1) ->
      procs s' !! p2 = Some (Process (ArriveUnload v2 r c2) t2) -> p1 = p2) ->
  pool_with hs' s'.
Proof.
  intros K P Hcap Hsub Hnd Hlen Hkept Hidx Hnd' Hsub' Hcr Hwait Hhold Hone.
  destruct P. split; try done.
  - congruence.
  - lia.
  - intros r Hr%Hsub. destruct (po_users0 r Hr) as [Hc Hv].
    destruct (Hkept r Hc) as [Hc' Hv']. by rewrite Hv'.
  - intros p v r t Hp. by destruct (Hwait _ _ _ _ Hp).
  - intros p v r t Hp Hv. destruct (Hwait _ _ _ _ Hp) as [_ [Hpend|[(t' & Hp') Hin]]].
    { congruence. }
    apply Hin. eapply po_granted0; [done|].
    destruct (k_procs _ K _ _ Hp') as (_ & _ & Hc & _).
    destruct (Hkept r Hc) as [_ Hv']. by rewrite <- Hv'.
  - intros e He%Hidx. by eapply po_noindex0.
Qed.

(** [_trigger_put] on its own. *)
Lemma pool_granting (hs : list nat) (s : state) :
  kernel s -> pool_with hs s -> pool_with hs (granting s).
Proof.
  intros K P. unfold granting.
  destruct (queue (berths s)) as [|h tl] eqn:Hq; [done|].
  destruct (_ <? _) eqn:Hlt; [|done]. apply Nat.ltb_lt in Hlt.
  destruct (k_waiting _ K h) as (pp & u & Hhc & Hhb & Hhv & Hpp & Hhn); [rewrite Hq; left|].
  assert (h ∉ users (berths s)) as Hhu.
  { intros Hu. destruct (po_users _ _ P h Hu) as [_ Hv]. congruence. }
  assert (forall e, e <> h ->
    val (upd_berths (fun r => MkResource (capacity r) (users r) (tail (queue r)) (get_queue r))
           (sched h NORMAL 0 (valued h Succeeded
              (upd_berths (fun r => MkResource (capacity r) (users r ++ [h])
                 (queue r) (get_queue r)) s)))) e = val s e) as Hval.
  { intros e He. unfold val. cbn. by rewrite lookup_alter_ne. }
  assert (val (upd_berths (fun r => MkResource (capacity r) (users r) (tail (queue r)) (get_queue r))
           (sched h NORMAL 0 (valued h Succeeded
              (upd_berths (fun r => MkResource (capacity r) (users r ++ [h])
                 (queue r) (get_queue r)) s)))) h = Some Succeeded) as Hvalh.
  { unfold val, cls in *. cbn. rewrite lookup_alter_eq. by destruct (events s !! h). }
  destruct P. split; cbn; try done.
  - rewrite length_app. cbn. lia.
  - apply NoDup_app. split; [done|]. split; [|apply NoDup_singleton].
    by intros a Ha ->%list_elem_of_singleton.
  - intros r. rewrite elem_of_app, list_elem_of_singleton. intros [Hr| ->].
    + destruct (po_users0 r Hr) as [Hc Hv]. split.
      * revert Hc. unfold cls. cbn.
        by rewrite fmap_alter_same by (intros []; reflexivity).
      * rewrite Hval; [done|]. by intros ->.
    + split; [|done]. revert Hhc. unfold cls. cbn.
      by rewrite fmap_alter_same by (intros []; reflexivity).
  - intros r Hr. rewrite elem_of_app. left. by apply po_hs_users0.
  - intros p v r t Hp Hv. rewrite elem_of_app, list_elem_of_singleton.
    destruct (decide (r = h)) as [->|Hne]; [by right|left].
    eapply po_granted0; [done|]. by rewrite <- Hval.
  - intros e He. destruct (decide (e = h)) as [->|Hne]; [congruence|].
    rewrite Hval in He by done. by eapply po_noindex0.
Qed.

(** No step but the taking of a crane from an empty pool makes an
    [IndexError]. *)
Ltac no_index :=
  let e := fresh "e" in
  intros e; unfold val; cbn;
  repeat first
    [ rewrite fmap_alter_same by (intros []; reflexivity)
    | rewrite lookup_alter; case_decide;
      [ subst; match goal with |- context [?m !! ?a] => destruct (m !! a) as [[]|] end;
        cbn; done |]
    | rewrite lookup_insert; case_decide; [subst; cbn; done|] ];
  done.

(** The vessels at the berths after a step are those before it. *)
Ltac berth_frames :=
  let q := fresh "q" in
  let g := fresh "g" in
  let t := fresh "t" in
  intros q g t; cbn;
  repeat (rewrite lookup_insert; case_decide;
          [subst; intros [= <- <-]; cbn; first [done | eauto] |]);
  eauto.

Lemma pool_step (s s' : state) :
  kernel s -> pool s -> transition cfg s s' -> pool s'.
Proof.
  intros K [hs P] T. destruct T; leaves; process_class K.
  all: try (exists hs; apply (pool_keep hs s);
            [done|done|reflexivity|reflexivity|solve [kept K]|solve [no_index]
            |solve [berth_frames]]).
  - (* a release is processed *)
    exists hs. apply pool_granting.
    + apply kernel_idle; [done|by apply heappop_removal|].
      intros c q. unfold cbs. rewrite H1. cbn. intros [= <-].
      by rewrite list_elem_of_singleton.
    + apply (pool_keep hs s);
        [done|done|reflexivity|reflexivity|solve [kept K]|solve [no_index]
        |solve [berth_frames]].
  - (* a vessel asks for a berth *)
    pose proof (resuming_wake _ _ _ _ _ _ _ _ _ K H0 H1 H2) as R.
    pose proof (requested_queued (logged (VesselArrives v) (taken x rest s)) p v) as Hrq.
    change (next_obj (logged (VesselArrives v) (taken x rest s))) with (next_obj s) in Hrq.
    rewrite Hrq. clear Hrq.
    exists hs. apply pool_granting.
    { apply (kernel_queued s x rest p _ R); [apply inert_logged, inert_refl|done]. }
    destruct (k_fresh _ K (next_obj s)) as [Hfresh _]; [lia|].
    apply (pool_update hs hs s); try done; try apply P.
    + kept K.
    + no_index.
    + intros q v' r' t'. cbn. rewrite lookup_insert. case_decide.
      * intros [= <- <-]. split.
        -- intros Hin%(po_hs_users _ _ P). destruct (po_users _ _ P _ Hin) as [Hc _].
           apply (old_cls _ _ _ K) in Hc. lia.
        -- left. unfold val. cbn.
           rewrite !fmap_alter_same by (intros []; reflexivity).
           by rewrite lookup_insert_eq.
      * intros Hq. split; [by eapply (po_waiting _ _ P)|]. right. split; [eauto|done].
    + intros q v' r' c' t'. cbn. rewrite lookup_insert. case_decide; [by intros [=]|].
      by eapply (po_holding _ _ P).
    + intros p1 p2 v1 v2 r1 c1 c2 t1 t2. cbn. rewrite !lookup_insert.
      repeat case_decide; try (by intros [=]); try (by intros ? [=]).
      by eapply (po_one _ _ P).
  - (* the pool is empty: this does not happen *)
    exfalso. destruct (berth_popped _ _ _ _ _ _ _ _ _ K H0 H1 H2) as [-> _].
    apply (pool_nonempty hs s p v (event_of x) t P H2); [|done].
    unfold val. by rewrite H1.
  - (* a vessel takes a crane and starts unloading *)
    destruct (berth_popped _ _ _ _ _ _ _ _ _ K H0 H1 H2) as [-> _].
    assert (val s (event_of x) = Some Succeeded) as Hv by (unfold val; by rewrite H1).
    pose proof (po_granted _ _ P _ _ _ _ H2 Hv) as Hu.
    pose proof (po_waiting _ _ P _ _ _ _ H2) as Hn.
    pose proof (old_proc _ _ _ K H2) as Hpold.
    exists (event_of x :: hs). apply (pool_update hs (event_of x :: hs) s);
      try done; try apply P.
    + kept K.
    + no_index.
    + apply NoDup_cons. split; [done|apply P].
    + intros r [->|Hr]%elem_of_cons; [done|]. by apply (po_hs_users _ _ P).
    + cbn in Heql. cbn. intros Hnb. pose proof (po_cranes _ _ P Hnb) as Hc.
      rewrite Heql in Hc. cbn in Hc. lia.
    + intros q v' r' t'. cbn. rewrite !lookup_insert.
      case_decide; [by intros [=]|]. case_decide; [by intros [=]|]. intros Hq.
      split.
      * apply not_elem_of_cons. split; [|by eapply (po_waiting _ _ P)].
        intros ->. by pose proof (waiting_unique _ _ _ _ _ _ _ _ K Hq H2).
      * right. split; [eauto|done].
    + intros q v' r' c' t'. cbn. rewrite !lookup_insert.
      case_decide; [intros [= <- <- <-]; by left|]. case_decide; [by intros [=]|].
      intros Hq. right. by eapply (po_holding _ _ P).
    + intros p1 p2 v1 v2 r1 c1 c2 t1 t2. cbn. rewrite !lookup_insert.
      repeat case_decide; subst; try done; try (by intros [=]); try (by intros ? [=]).
      * intros [= <- <- <-] Hq. by destruct Hn; eapply (po_holding _ _ P).
      * intros Hq [= <- <- <-]. by destruct Hn; eapply (po_holding _ _ P).
      * by eapply (po_one _ _ P).
  - (* a vessel without containers leaves at once *)
    destruct (berth_popped _ _ _ _ _ _ _ _ _ K H0 H1 H2) as [-> _].
    pose proof (po_waiting _ _ P _ _ _ _ H2) as Hn.
    exists hs. apply (pool_update hs hs s); try done; try apply P.
    + intros r0. cbn. apply elem_of_remove_first.
    + cbn. apply NoDup_remove_first, P.
    + cbn. apply length_remove_first.
    + kept K.
    + no_index.
    + intros r0 Hr. cbn. apply elem_of_remove_first_ne; [by apply (po_hs_users _ _ P)|].
      by intros ->.
    + cbn in Heql. cbn. intros Hnb. pose proof (po_cranes _ _ P Hnb) as Hc.
      rewrite Heql in Hc. rewrite length_app. cbn in *. lia.
    + intros q v' r' t'. cbn. rewrite !lookup_insert.
      case_decide; [by intros [=]|]. intros Hq.
      split; [by eapply (po_waiting _ _ P)|]. right. split; [eauto|].
      intros Hin. apply elem_of_remove_first_ne; [done|].
      intros ->. by pose proof (waiting_unique _ _ _ _ _ _ _ _ K Hq H2).
    + intros q v' r' c' t'. cbn. rewrite !lookup_insert.
      case_decide; [by intros [=]|]. by eapply (po_holding _ _ P).
    + intros p1 p2 v1 v2 r1 c1 c2 t1 t2. cbn. rewrite !lookup_insert.
      repeat case_decide; try (by intros [=]); try (by intros ? [=]).
      by eapply (po_one _ _ P).
  - (* a vessel leaves *)
    pose proof (po_holding _ _ P _ _ _ _ _ H2) as Hh.
    exists (remove_first r hs). apply (pool_update hs (remove_first r hs) s);
      try done; try apply P.
    + intros r0. cbn. apply elem_of_remove_first.
    + cbn. apply NoDup_remove_first, P.
    + cbn. apply length_remove_first.
    + kept K.
    + no_index.
    + apply NoDup_remove_first, P.
    + intros r0 Hr. cbn. apply elem_of_remove_first_ne.
      * by apply (po_hs_users _ _ P), (elem_of_remove_first r0 r).
      * intros ->. by apply (remove_first_gone r hs (po_hs_nodup _ _ P)).
    + cbn. intros Hnb. pose proof (po_cranes _ _ P Hnb) as Hc.
      pose proof (length_remove_first_S r hs). rewrite length_app. cbn. lia.
    + intros q v' r' t'. cbn. rewrite !lookup_insert.
      case_decide; [by intros [=]|]. intros Hq.
      pose proof (po_waiting _ _ P _ _ _ _ Hq) as Hn.
      split; [by intros ?%elem_of_remove_first|]. right. split; [eauto|].
      intros Hin. apply elem_of_remove_first_ne; [done|]. by intros ->.
    + intros q v' r' c' t'. cbn. rewrite !lookup_insert.
      case_decide; [by intros [=]|]. intros Hq.
      apply elem_of_remove_first_ne; [by eapply (po_holding _ _ P)|].
      intros ->. by pose proof (po_one _ _ P _ _ _ _ _ _ _ _ _ Hq H2).
    + intros p1 p2 v1 v2 r1 c1 c2 t1 t2. cbn. rewrite !lookup_insert.
      repeat case_decide; try (by intros [=]); try (by intros ? [=]).
      by eapply (po_one _ _ P).
  - (* the exception of a crane process is thrown into the vessel *)
    assert (exc <> IndexError) as Hexc.
    { intros ->. apply (po_noindex _ _ P (event_of x)). unfold val. by rewrite H1. }
    exists hs. apply (pool_keep hs s);
      [done|done|reflexivity|reflexivity|solve [kept K]| |solve [berth_frames]].
    intros e. unfold val. cbn.
    rewrite lookup_alter. case_decide.
    + subst. destruct (alter _ _ _ !! e) as [[]|]; cbn; [|done]. by intros [= ->].
    + by rewrite !fmap_alter_same by (intros []; reflexivity).
Qed.

Lemma pool_fresh (seed : rng_state) : NUM_BERTHS cfg = 0 -> pool (fresh seed).
Proof.
  intros Hnb. exists []. split; cbn; try done; try lia.
  - apply NoDup_nil_2.
  - by intros r ?%elem_of_nil.
  - apply NoDup_nil_2.
Qed.

Lemma pool_terminal (seed : rng_state) : pool_with [] (terminal cfg seed).
Proof.
  split; cbn; try done; try lia.
  - apply NoDup_nil_2.
  - by intros r ?%elem_of_nil.
  - apply NoDup_nil_2.
  - intros _. rewrite length_seq. lia.
Qed.

Lemma pool_spawned (hs : list nat) (s : state) :
  kernel s -> pool_with hs s -> pool_with hs (spawned ArrivalsStart s).
Proof.
  intros K P.
  apply (pool_keep hs s);
    [done|done|reflexivity|reflexivity|solve [kept K]|solve [no_index]
    |solve [berth_frames]].
Qed.

Lemma pool_until (hs : list nat) (s : state) d :
  kernel s -> pool_with hs s -> pool_with hs (until_in d s).
Proof.
  intros K P.
  apply (pool_keep hs s);
    [done|done|reflexivity|reflexivity|solve [kept K]|solve [no_index]
    |solve [berth_frames]].
Qed.

Lemma pool_after n seed : pool (snd (after cfg n seed)).
Proof.
  apply (after_ind cfg pool).
  - intros Hnb seed'. by apply pool_fresh.
  - intros _ seed'. exists [].
    apply pool_spawned; [apply kernel_terminal|apply pool_terminal].
  - intros _ seed'. exists []. apply pool_until.
    + apply kernel_spawned, kernel_terminal.
    + apply pool_spawned; [apply kernel_terminal|apply pool_terminal].
  - intros s s' K P T. by apply (pool_step s).
Qed.

(** C8: taking a crane is [quay_cranes.pop(0)], which raises [IndexError]
    on an empty list.  When there are at least as many cranes as berths, in
    every state the program reaches, a vessel whose request for a berth has
    been granted and which is about to take its crane finds the pool
    non-empty, so that [pop(0)] returns a crane; and no event of the run
    has failed with [IndexError]. *)
Theorem crane_pool_not_empty n seed p v r t :
  procs (snd (after cfg n seed)) !! p = Some (Process (ArriveBerth v r) t) ->
  val (snd (after cfg n seed)) r = Some Succeeded ->
  (exists crane rest,
     quay_cranes (snd (after cfg n seed)) = crane :: rest /\
     pop_crane (snd (after cfg n seed)) =
       (inr crane, upd_quay_cranes (fun _ => rest) (snd (after cfg n seed)))) /\
  (forall e, val (snd (after cfg n seed)) e <> Some (Failed IndexError)) /\
  (forall s0 : state, quay_cranes s0 = [] -> pop_crane s0 = (inl IndexError, s0)).
Proof.
  intros Hp Hv. destruct (pool_after n seed) as [hs P].
  split; [|split].
  - pose proof (pool_nonempty hs _ p v r t P Hp Hv) as Hne.
    unfold pop_crane.
    destruct (quay_cranes (snd (after cfg n seed))) as [|crane rest]; [done|].
    by exists crane, rest.
  - apply P.
  - intros s0 Hs0. unfold pop_crane. by rewrite Hs0.
Qed.

End Pool.

(** With the two berths and two cranes of main.py, the first vessel is
    granted its berth at once and finds both cranes. *)
Lemma crane_pool_not_empty_witness :
  (exists crane rest,
     quay_cranes (snd (@after scripted main_config 3 [0%Q; 0%Q; 0%Q; 0%Q])) = crane :: rest /\
     pop_crane (snd (@after scripted main_config 3 [0%Q; 0%Q; 0%Q; 0%Q])) =
       (inr crane, upd_quay_cranes (fun _ => rest)
                     (snd (@after scripted main_config 3 [0%Q; 0%Q; 0%Q; 0%Q])))) /\
  (forall e, val (snd (@after scripted main_config 3 [0%Q; 0%Q; 0%Q; 0%Q])) e <>
             Some (Failed IndexError)) /\
  (forall s0 : @state scripted, quay_cranes s0 = [] -> pop_crane s0 = (inl IndexError, s0)).
Proof.
  apply (@crane_pool_not_empty scripted main_config) with (p := 4) (v := 1) (r := 7)
    (t := Some 7).
  - cbn. lia.
  - vm_compute. reflexivity.
  - vm_compute. reflexivity.
Defined.

(** ** The containers of a vessel *)

(** The vessel a frame of [Vessel.arrive] belongs to, the vessel a frame of
    [load_container] serves, and the index a frame of
    [vessel_on_the_terminal] will use next. *)
Definition vessel_of (g : frame) : option nat :=
  match g with
  | ArriveStart v | ArriveBerth v _ | ArriveUnload v _ _ => Some v
  | _ => None
  end.

Definition load_of (g : frame) : option nat :=
  match g with
  | LoadStart _ v | LoadYield _ v => Some v
  | _ => None
  end.

Definition arrivals_bound (g : frame) : option nat :=
  match g with
  | ArrivalsStart => Some 1
  | ArrivalsYield i => Some i
  | _ => None
  end.

(** The number of lines "Quay Crane ... loads container from Vessel V{v}". *)
Fixpoint count_loads (v : nat) (out : list (Q * message)) : nat :=
  match out with
  | [] => 0
  | (_, CraneLoads _ u) :: out' =>
      (if decide (u = v) then 1 else 0) + count_loads v out'
  | _ :: out' => count_loads v out'
  end.

(** The lines that say a crane step for [v] is complete or that [v] left. *)
Definition closing (v : nat) (msg : message) : Prop :=
  match msg with
  | CraneLoads _ u | VesselLeaves u => u = v
  | _ => False
  end.

Lemma count_loads_app v out1 out2 :
  count_loads v (out1 ++ out2) = count_loads v out1 + count_loads v out2.
Proof.
  induction out1 as [|[t []] out1 IH]; cbn; try done. rewrite IH. lia.
Qed.

Section Fleet.
Context `{Random} (cfg : config).
Hypothesis some_containers : (0 <= CONTAINERS_PER_VESSEL cfg)%Z.

Local Arguments granting : simpl never.
Local Arguments requested : simpl never.

Definition known (s : state) (v : nat) : Prop := is_Some (vessels s !! v).

Record fleet (s : state) : Prop := {
  fl_one : forall q1 q2 g1 g2 t1 t2 i1 i2,
      procs s !! q1 = Some (Process g1 t1) -> procs s !! q2 = Some (Process g2 t2) ->
      arrivals_bound g1 = Some i1 -> arrivals_bound g2 = Some i2 -> q1 = q2;
  fl_bound : forall q g t i v,
      procs s !! q = Some (Process g t) -> arrivals_bound g = Some i ->
      known s v -> v < i;
  fl_known : forall q g t v,
      procs s !! q = Some (Process g t) ->
      vessel_of g = Some v \/ load_of g = Some v -> known s v;
  fl_logged : forall t msg v, (t, msg) ∈ stdout s -> closing v msg -> known s v;
  fl_unique : forall q1 q2 g1 g2 t1 t2 v,
      procs s !! q1 = Some (Process g1 t1) -> procs s !! q2 = Some (Process g2 t2) ->
      vessel_of g1 = Some v -> vessel_of g2 = Some v -> q1 = q2;
  fl_count : forall v x, vessels s !! v = Some x ->
      containers_left x =
      (CONTAINERS_PER_VESSEL cfg - Z.of_nat (count_loads v (stdout s)))%Z;
  fl_positive : forall q g t v,
      procs s !! q = Some (Process g t) -> load_of g = Some v ->
      (0 < containers_left (the_vessel s v))%Z;
  fl_nonneg : forall v x, vessels s !! v = Some x -> (0 <= containers_left x)%Z;
  fl_left : forall t v, (t, VesselLeaves v) ∈ stdout s ->
      containers_left (the_vessel s v) = 0%Z /\
      forall q g t', procs s !! q = Some (Process g t') -> vessel_of g <> Some v
}.

(** [g] continues [g0]: it belongs to the same vessel, serves the same
    vessel, and its index is not smaller. *)
Definition continues (g g0 : frame) : Prop :=
  (forall v, vessel_of g = Some v -> vessel_of g0 = Some v) /\
  (forall v, load_of g = Some v -> load_of g0 = Some v) /\
  (forall i, arrivals_bound g = Some i ->
     exists i0, arrivals_bound g0 = Some i0 /\ i0 <= i).

Lemma count_loads_none v out :
  (forall t c, (t, CraneLoads c v) ∉ out) -> count_loads v out = 0.
Proof.
  induction out as [|[t m] out IH]; [done|]. intros Hno.
  assert (count_loads v out = 0) as Hout.
  { apply IH. intros t' c Hin. apply (Hno t' c). by right. }
  destruct m; cbn; try done. destruct (decide _) as [->|]; [|done].
  destruct (Hno t qc). by left.
Qed.

(** The vessel of a crane step is the vessel that waits for it. *)
Lemma loader_parent (s : state) q g t v :
  kernel s -> procs s !! q = Some (Process g t) -> load_of g = Some v ->
  exists qq r c, procs s !! qq = Some (Process (ArriveUnload v r c) (Some q)).
Proof.
  intros K Hq Hg. pose proof (k_procs _ K _ _ Hq) as Hok.
  unfold proc_ok in Hok. cbn in Hok. destruct g; try done; cbn in Hg;
    injection Hg as ->; destruct Hok as (e & qq & r & _ & _ & _ & Hqq); eauto.
Qed.

(** A step that changes no vessel: it may start a crane step for a vessel
    that has containers left, and it may log the departure of a vessel
    that has none. *)
Lemma fleet_move (s s' : state) :
  fleet s ->
  vessels s' = vessels s ->
  (forall a, a ∈ stdout s' ->
     a ∈ stdout s \/ (forall v, ~ closing v (snd a)) \/
     exists v, snd a = VesselLeaves v /\ known s v /\
       (containers_left (the_vessel s v) <= 0)%Z /\
       forall q g t, procs s' !! q = Some (Process g t) -> vessel_of g <> Some v) ->
  (forall v, count_loads v (stdout s') = count_loads v (stdout s)) ->
  (forall q g t, procs s' !! q = Some (Process g t) ->
     (exists g0 t0, procs s !! q = Some (Process g0 t0) /\ continues g g0) \/
     (exists c v, g = LoadStart c v /\ known s v /\
        (0 < containers_left (the_vessel s v))%Z)) ->
  fleet s'.
Proof.
  intros F Hv Hout Hcount Hprocs. destruct F.
  unfold known, the_vessel in *. split; unfold known, the_vessel; rewrite ?Hv.
  - intros q1 q2 g1 g2 t1 t2 i1 i2 H1 H2 Hb1 Hb2.
    destruct (Hprocs _ _ _ H1) as [(g1' & t1' & H1' & _ & _ & Hc1)|(? & ? & -> & _)];
      [|done].
    destruct (Hprocs _ _ _ H2) as [(g2' & t2' & H2' & _ & _ & Hc2)|(? & ? & -> & _)];
      [|done].
    destruct (Hc1 _ Hb1) as (j1 & Hj1 & _). destruct (Hc2 _ Hb2) as (j2 & Hj2 & _).
    by eapply fl_one0.
  - intros q g t i v Hq Hb Hk.
    destruct (Hprocs _ _ _ Hq) as [(g' & t' & Hq' & _ & _ & Hc)|(? & ? & -> & _)];
      [|done].
    destruct (Hc _ Hb) as (j & Hj & Hle).
    pose proof (fl_bound0 _ _ _ _ _ Hq' Hj Hk). lia.
  - intros q g t v Hq Hg.
    destruct (Hprocs _ _ _ Hq) as
      [(g' & t' & Hq' & Hc1 & Hc2 & _)|(c & u & -> & Hk & _)].
    + eapply fl_known0; [done|]. destruct Hg as [Hg|Hg]; [left|right]; eauto.
    + destruct Hg as [Hg|Hg]; [done|]. cbn in Hg. by injection Hg as <-.
  - intros t msg v [Hin|[Hno|(u & Hm & Hk & _)]]%Hout Hcl.
    + by eapply fl_logged0.
    + by destruct (Hno v).
    + cbn in Hm. subst msg. cbn in Hcl. by subst u.
  - intros q1 q2 g1 g2 t1 t2 v H1 H2 Hv1 Hv2.
    destruct (Hprocs _ _ _ H1) as [(g1' & t1' & H1' & Hc1 & _)|(? & ? & -> & _)];
      [|done].
    destruct (Hprocs _ _ _ H2) as [(g2' & t2' & H2' & Hc2 & _)|(? & ? & -> & _)];
      [|done].
    eapply fl_unique0; eauto.
  - intros v x Hx. rewrite Hcount. by apply fl_count0.
  - intros q g t v Hq Hg.
    destruct (Hprocs _ _ _ Hq) as
      [(g' & t' & Hq' & _ & Hc & _)|(c & u & -> & _ & Hpos)].
    + eapply fl_positive0; eauto.
    + cbn in Hg. by injection Hg as <-.
  - done.
  - intros t v [Hin|[Hno|(u & Hm & [x Hx] & Hle & Hnone)]]%Hout.
    + destruct (fl_left0 _ _ Hin) as [Hz Hnone]. split; [done|].
      intros q g t' Hq Hg.
      destruct (Hprocs _ _ _ Hq) as [(g' & t0 & Hq' & Hc & _)|(? & ? & -> & _)];
        [|done].
      eapply Hnone; eauto.
    + by destruct (Hno v).
    + cbn in Hm. injection Hm as <-. split; [|done].
      rewrite Hx in *. cbn in *. pose proof (fl_nonneg0 _ _ Hx). lia.
Qed.

(** A new vessel: its index has not been used. *)
Lemma fleet_launch (s s' : state) p i t g' t' tn f :
  kernel s -> fleet s ->
  procs s !! p = Some (Process (ArrivalsYield i) t) ->
  procs s' = <[p := Process g' t']>
               (<[next_obj s := Process (ArriveStart i) tn]> (procs s)) ->
  vessels s' = alter f i (<[i := MkVessel (CONTAINERS_PER_VESSEL cfg) 0]> (vessels s)) ->
  (forall x, containers_left (f x) = containers_left x) ->
  stdout s' = stdout s ->
  g' = Exhausted \/ g' = ArrivalsYield (S i) ->
  fleet s'.
Proof.
  intros K F Hp Hprocs Hvessels Hf Hout Hg'.
  destruct (k_fresh _ K (next_obj s)) as [_ Hfresh]; [lia|].
  pose proof (old_proc _ _ _ K Hp) as Hpold.
  assert (~ known s i) as Hnew.
  { intros Hk. pose proof (fl_bound _ F _ _ _ _ _ Hp eq_refl Hk). lia. }
  assert (forall v, known s' v <-> v = i \/ known s v) as Hknown.
  { intros v. unfold known. rewrite Hvessels, lookup_alter. case_decide as Hd.
    - subst v. rewrite lookup_insert_eq. cbn. split; [by left|by eexists].
    - rewrite lookup_insert_ne by done. split; [by right|]. by intros [?|?]. }
  assert (forall v, v <> i -> vessels s' !! v = vessels s !! v) as Hother.
  { intros v Hv. rewrite Hvessels, lookup_alter_ne, lookup_insert_ne by done. done. }
  assert (forall q g t0, procs s' !! q = Some (Process g t0) ->
            (q = p /\ g = g') \/ (q = next_obj s /\ g = ArriveStart i) \/
            (q <> p /\ procs s !! q = Some (Process g t0))) as Hcases.
  { intros q g t0. rewrite Hprocs, lookup_insert. case_decide; [intros [= <- <-]; by left|].
    rewrite lookup_insert. case_decide; [intros [= <- <-]; right; by left|].
    intros Hq. right. by right. }
  assert (forall q g t0 i0, q <> p -> procs s !! q = Some (Process g t0) ->
            arrivals_bound g = Some i0 -> False) as Honly.
  { intros q g t0 i0 Hne Hq Hb. by pose proof (fl_one _ F _ _ _ _ _ _ _ _ Hq Hp Hb eq_refl). }
  split.
  - intros q1 q2 g1 g2 t1 t2 i1 i2 H1 H2 Hb1 Hb2.
    destruct (Hcases _ _ _ H1) as [[-> ->]|[[-> ->]|[Hn1 H1']]]; [|done|];
      destruct (Hcases _ _ _ H2) as [[-> ->]|[[-> ->]|[Hn2 H2']]]; try done.
    + by destruct (Honly _ _ _ _ Hn2 H2' Hb2).
    + by destruct (Honly _ _ _ _ Hn1 H1' Hb1).
    + by destruct (Honly _ _ _ _ Hn1 H1' Hb1).
  - intros q g t0 i0 v Hq Hb Hk. apply Hknown in Hk.
    destruct (Hcases _ _ _ Hq) as [[-> ->]|[[-> ->]|[Hn Hq']]]; [|done|].
    + destruct Hg' as [-> | ->]; [done|]. cbn in Hb. injection Hb as <-.
      destruct Hk as [->|Hk]; [lia|].
      pose proof (fl_bound _ F _ _ _ _ _ Hp eq_refl Hk). lia.
    + by destruct (Honly _ _ _ _ Hn Hq' Hb).
  - intros q g t0 v Hq Hg. apply Hknown.
    destruct (Hcases _ _ _ Hq) as [[-> ->]|[[-> ->]|[Hn Hq']]].
    + destruct Hg' as [-> | ->]; by destruct Hg.
    + destruct Hg as [Hg|Hg]; [|done]. cbn in Hg. injection Hg as <-. by left.
    + right. by eapply (fl_known _ F).
  - intros t0 msg v Hin Hcl. apply Hknown. right. rewrite Hout in Hin.
    by eapply (fl_logged _ F).
  - intros q1 q2 g1 g2 t1 t2 v H1 H2 Hv1 Hv2.
    assert (forall q g t0, q <> p -> procs s !! q = Some (Process g t0) ->
              vessel_of g = Some i -> False) as Hnoti.
    { intros q g t0 _ Hq Hv. apply Hnew. eapply (fl_known _ F); eauto. }
    destruct (Hcases _ _ _ H1) as [[-> ->]|[[-> ->]|[Hn1 H1']]];
      destruct (Hcases _ _ _ H2) as [[-> ->]|[[-> ->]|[Hn2 H2']]]; try done;
      try (destruct Hg' as [-> | ->]; done).
    + cbn in Hv1. injection Hv1 as <-. by destruct (Hnoti _ _ _ Hn2 H2' Hv2).
    + cbn in Hv2. injection Hv2 as <-. by destruct (Hnoti _ _ _ Hn1 H1' Hv1).
    + by eapply (fl_unique _ F).
  - intros v x Hx. rewrite Hout. destruct (decide (v = i)) as [->|Hne].
    + rewrite Hvessels, lookup_alter_eq, lookup_insert_eq in Hx. cbn in Hx.
      injection Hx as <-. rewrite Hf. cbn.
      rewrite count_loads_none; [lia|].
      intros t0 c Hin. apply Hnew. by eapply (fl_logged _ F).
    + rewrite Hother in Hx by done. by apply (fl_count _ F).
  - intros q g t0 v Hq Hg.
    destruct (Hcases _ _ _ Hq) as [[-> ->]|[[-> ->]|[Hn Hq']]]; [|done|].
    + by destruct Hg' as [-> | ->].
    + assert (v <> i) as Hne.
      { intros ->. apply Hnew. eapply (fl_known _ F); eauto. }
      unfold the_vessel. rewrite Hother by done. by eapply (fl_positive _ F).
  - intros v x Hx. destruct (decide (v = i)) as [->|Hne].
    + rewrite Hvessels, lookup_alter_eq, lookup_insert_eq in Hx. cbn in Hx.
      injection Hx as <-. by rewrite Hf.
    + rewrite Hother in Hx by done. by apply (fl_nonneg _ F v).
  - intros t0 v Hin. rewrite Hout in Hin.
    assert (v <> i) as Hne.
    { intros ->. apply Hnew. by eapply (fl_logged _ F). }
    destruct (fl_left _ F _ _ Hin) as [Hz Hnone].
    unfold the_vessel. rewrite Hother by done. split; [done|].
    intros q g t1 Hq.
    destruct (Hcases _ _ _ Hq) as [[-> ->]|[[-> ->]|[Hn Hq']]].
    + by destruct Hg' as [-> | ->].
    + cbn. by intros [= ->].
    + by eapply Hnone.
Qed.

(** A crane step is complete. *)
Lemma fleet_load (s s' : state) p c v t t' now' :
  kernel s -> fleet s ->
  procs s !! p = Some (Process (LoadYield c v) t) ->
  procs s' = <[p := Process Exhausted t']> (procs s) ->
  vessels s' = alter (fun x => MkVessel (containers_left x - 1) (action x)) v (vessels s) ->
  stdout s' = stdout s ++ [(now', CraneLoads c v)] ->
  fleet s'.
Proof.
  intros K F Hp Hprocs Hvessels Hout.
  destruct (loader_parent _ _ _ _ _ K Hp eq_refl) as (qq & r & c' & Hqq).
  pose proof (fl_positive _ F _ _ _ _ Hp eq_refl) as Hpos.
  assert (known s v) as Hkv by (eapply (fl_known _ F); eauto).
  assert (forall u, known s' u <-> known s u) as Hknown.
  { intros u. unfold known. rewrite Hvessels, lookup_alter. case_decide; [|done].
    subst u. by rewrite fmap_is_Some. }
  assert (forall u, u <> v -> vessels s' !! u = vessels s !! u) as Hother.
  { intros u Hu. by rewrite Hvessels, lookup_alter_ne. }
  assert (forall q g t0, procs s' !! q = Some (Process g t0) ->
            (q = p /\ g = Exhausted) \/ (q <> p /\ procs s !! q = Some (Process g t0)))
    as Hcases.
  { intros q g t0. rewrite Hprocs, lookup_insert. case_decide; [intros [= <- <-]; by left|].
    intros Hq. by right. }
  split.
  - intros q1 q2 g1 g2 t1 t2 i1 i2 H1 H2 Hb1 Hb2.
    destruct (Hcases _ _ _ H1) as [[-> ->]|[Hn1 H1']]; [done|].
    destruct (Hcases _ _ _ H2) as [[-> ->]|[Hn2 H2']]; [done|].
    by eapply (fl_one _ F).
  - intros q g t0 i0 u Hq Hb Hk%Hknown.
    destruct (Hcases _ _ _ Hq) as [[-> ->]|[Hn Hq']]; [done|].
    by eapply (fl_bound _ F).
  - intros q g t0 u Hq Hg. apply Hknown.
    destruct (Hcases _ _ _ Hq) as [[-> ->]|[Hn Hq']]; [by destruct Hg|].
    by eapply (fl_known _ F).
  - intros t0 msg u Hin Hcl. apply Hknown. rewrite Hout in Hin.
    apply elem_of_app in Hin as [Hin|Hin%list_elem_of_singleton].
    + by eapply (fl_logged _ F).
    + injection Hin as -> ->. cbn in Hcl. by subst u.
  - intros q1 q2 g1 g2 t1 t2 u H1 H2 Hv1 Hv2.
    destruct (Hcases _ _ _ H1) as [[-> ->]|[Hn1 H1']]; [done|].
    destruct (Hcases _ _ _ H2) as [[-> ->]|[Hn2 H2']]; [done|].
    by eapply (fl_unique _ F).
  - intros u x Hx. rewrite Hout, count_loads_app. cbn.
    destruct (decide (v = u)) as [<-|Hne].
    + rewrite Hvessels, lookup_alter_eq in Hx.
      destruct (vessels s !! v) as [x0|] eqn:Hx0; [|done]. cbn in Hx.
      injection Hx as <-. cbn. rewrite (fl_count _ F _ _ Hx0). lia.
    + rewrite Hother in Hx by done. rewrite (fl_count _ F _ _ Hx). lia.
  - intros q g t0 u Hq Hg.
    destruct (Hcases _ _ _ Hq) as [[-> ->]|[Hn Hq']]; [done|].
    assert (u <> v) as Hne.
    { intros ->. destruct (loader_parent _ _ _ _ _ K Hq' Hg) as (qq' & r' & c'' & Hqq').
      pose proof (fl_unique _ F _ _ _ _ _ _ _ Hqq Hqq' eq_refl eq_refl) as <-.
      rewrite Hqq in Hqq'. by injection Hqq'. }
    unfold the_vessel. rewrite Hother by done. by eapply (fl_positive _ F).
  - intros u x Hx. destruct (decide (v = u)) as [<-|Hne].
    + rewrite Hvessels, lookup_alter_eq in Hx.
      destruct (vessels s !! v) as [x0|] eqn:Hx0; [|done]. cbn in Hx.
      injection Hx as <-. cbn. unfold the_vessel in Hpos. rewrite Hx0 in Hpos.
      cbn in Hpos. lia.
    + rewrite Hother in Hx by done. by apply (fl_nonneg _ F u).
  - intros t0 u Hin. rewrite Hout in Hin.
    apply elem_of_app in Hin as [Hin|Hin%list_elem_of_singleton]; [|done].
    destruct (fl_left _ F _ _ Hin) as [Hz Hnone].
    assert (u <> v) as Hne.
    { intros ->. by apply (Hnone _ _ _ Hqq). }
    unfold the_vessel. rewrite Hother by done. split; [done|].
    intros q g t1 Hq.
    destruct (Hcases _ _ _ Hq) as [[-> ->]|[Hn Hq']]; [done|]. by eapply Hnone.
Qed.

(** The invariant reads the processes, the vessels and the log. *)
Lemma fleet_view (s1 s2 : state) :
  procs s2 = procs s1 -> vessels s2 = vessels s1 -> stdout s2 = stdout s1 ->
  fleet s1 -> fleet s2.
Proof.
  intros Hp Hv Ho []. unfold known, the_vessel in *.
  split; unfold known, the_vessel; rewrite ?Hp, ?Hv, ?Ho; done.
Qed.

Ltac view := cbn.

(** What a step logs, when it logs nothing about crane steps and
    departures. *)
Ltac quiet_log :=
  let a := fresh "a" in
  intros a; view;
  first
    [ intros ?; by left
    | rewrite elem_of_app, list_elem_of_singleton;
      intros [?| ->]; [by left|right; left; intros ? []]
    | rewrite !elem_of_app, !list_elem_of_singleton;
      intros [[?| ->]| ->]; [by left|right; left; intros ? []|right; left; intros ? []] ].

Ltac quiet_count :=
  intros ?; view; rewrite ?count_loads_app; cbn; lia.

(** The frames after a step continue those before it. *)
Ltac same_frames :=
  let q := fresh "q" in
  let g := fresh "g" in
  let t := fresh "t" in
  intros q g t; view;
  repeat (rewrite lookup_insert; case_decide;
          [subst; intros [= <- <-]; left; eexists _, _; split; [eassumption|];
           unfold continues; cbn; repeat split; intros; simplify_eq; eauto |]);
  intros ?; left; eexists _, _; split; [eassumption|];
  unfold continues; repeat split; eauto.

Lemma fleet_step (s s' : state) :
  kernel s -> fleet s -> transition cfg s s' -> fleet s'.
Proof.
  intros K F T. destruct T; leaves.
  all: try (apply (fleet_move s);
            [done|solve [view; reflexivity]|solve [quiet_log]|solve [quiet_count]
            |solve [same_frames]]).
  all: try (eapply (fleet_launch s _ p i t _ _ _ _ K F H2);
            [reflexivity|reflexivity|done|reflexivity|tauto]).
  - (* a release is processed *)
    apply (fleet_view (taken x rest s));
      [apply granting_procs|apply granting_vessels|apply granting_stdout|].
    apply (fleet_move s);
      [done|solve [view; reflexivity]|solve [quiet_log]|solve [quiet_count]
      |solve [same_frames]].
  - (* a vessel asks for a berth *)
    pose proof (requested_queued (logged (VesselArrives v) (taken x rest s)) p v) as Hrq.
    change (next_obj (logged (VesselArrives v) (taken x rest s))) with (next_obj s) in Hrq.
    rewrite Hrq. clear Hrq.
    apply (fleet_view (queued p v (logged (VesselArrives v) (taken x rest s))));
      [apply granting_procs|apply granting_vessels|apply granting_stdout|].
    apply (fleet_move s);
      [done|solve [view; reflexivity]|solve [quiet_log]|solve [quiet_count]
      |solve [same_frames]].
  - (* a vessel takes a crane and starts unloading *)
    apply Z.ltb_lt in Heqb. unfold the_vessel in Heqb. cbn in Heqb.
    apply (fleet_move s);
      [done|solve [view; reflexivity]|solve [quiet_log]|solve [quiet_count]|].
    intros q g t0. cbn. rewrite lookup_insert. case_decide.
    + subst. intros [= <- <-]. left. eexists _, _. split; [exact H2|].
      unfold continues. cbn. repeat split; intros; simplify_eq; eauto.
    + rewrite lookup_insert. case_decide.
      * intros [= <- <-]. right. eexists _, _. split; [done|]. split; [|done].
        eapply (fl_known _ F); [exact H2|]. by left.
      * intros Hq. left. eexists _, _. split; [exact Hq|].
        unfold continues. repeat split; eauto.
  - (* a vessel without containers leaves at once *)
    apply Z.ltb_ge in Heqb. unfold the_vessel in Heqb. cbn in Heqb.
    apply (fleet_move s);
      [done|solve [view; reflexivity]| |solve [quiet_count]|solve [same_frames]].
    intros a. cbn. rewrite !elem_of_app, !list_elem_of_singleton.
    intros [[?| ->]| ->]; [by left|right; left; intros ? []|].
    right. right. exists v. split; [done|].
    split; [eapply (fl_known _ F); [exact H2|by left]|]. split; [done|].
    intros q g t0. rewrite lookup_insert. case_decide; [by intros [= <- <-]|].
    intros Hq Hg. by pose proof (fl_unique _ F _ _ _ _ _ _ _ Hq H2 Hg eq_refl).
  - (* the next crane step *)
    apply Z.ltb_lt in Heqb. unfold the_vessel in Heqb. cbn in Heqb.
    apply (fleet_move s);
      [done|solve [view; reflexivity]|solve [quiet_log]|solve [quiet_count]|].
    intros q g t0. cbn. rewrite lookup_insert. case_decide.
    + subst. intros [= <- <-]. left. eexists _, _. split; [exact H2|].
      unfold continues. cbn. repeat split; intros; simplify_eq; eauto.
    + rewrite lookup_insert. case_decide.
      * intros [= <- <-]. right. eexists _, _. split; [done|]. split; [|done].
        eapply (fl_known _ F); [exact H2|]. by left.
      * intros Hq. left. eexists _, _. split; [exact Hq|].
        unfold continues. repeat split; eauto.
  - (* a vessel leaves *)
    apply Z.ltb_ge in Heqb. unfold the_vessel in Heqb. cbn in Heqb.
    apply (fleet_move s);
      [done|solve [view; reflexivity]| |solve [quiet_count]|solve [same_frames]].
    intros a. cbn. rewrite !elem_of_app, !list_elem_of_singleton.
    intros [?| ->]; [by left|].
    right. right. exists v. split; [done|].
    split; [eapply (fl_known _ F); [exact H2|by left]|]. split; [done|].
    intros q g t0. rewrite lookup_insert. case_decide; [by intros [= <- <-]|].
    intros Hq Hg. by pose proof (fl_unique _ F _ _ _ _ _ _ _ Hq H2 Hg eq_refl).
  - (* a crane step is complete *)
    apply (fleet_load s _ p crane v t None (time x) K F H2); reflexivity.
Qed.

Lemma fleet_idle (s : state) :
  procs s = ∅ -> vessels s = ∅ -> stdout s = [] -> fleet s.
Proof.
  intros Hp Hv Ho.
  split; unfold known, the_vessel; rewrite ?Hp, ?Hv, ?Ho; try done.
  by intros ? ? ? ?%elem_of_nil.
Qed.

Lemma fleet_spawned (s : state) :
  kernel s -> procs s = ∅ -> vessels s = ∅ -> stdout s = [] ->
  fleet (spawned ArrivalsStart s).
Proof.
  intros K Hp Hv Ho.
  split; unfold known, the_vessel; cbn; rewrite ?Hp, ?Hv, ?Ho.
  - intros q1 q2 g1 g2 t1 t2 i1 i2. rewrite !lookup_insert.
    repeat case_decide; subst; done.
  - by intros ? ? ? ? ? _ _ ?%is_Some_None.
  - intros q g t v. rewrite lookup_insert. case_decide; [|done].
    intros [= <- <-]. by intros [?|?].
  - by intros ? ? ? ?%elem_of_nil.
  - intros q1 q2 g1 g2 t1 t2 v. rewrite !lookup_insert.
    repeat case_decide; subst; done.
  - done.
  - intros q g t v. rewrite lookup_insert. case_decide; [|done]. by intros [= <- <-].
  - done.
  - by intros ? ? ?%elem_of_nil.
Qed.

Lemma fleet_until (s : state) d : fleet s -> fleet (until_in d s).
Proof. intros []. by split. Qed.

Lemma fleet_after n seed : fleet (snd (after cfg n seed)).
Proof.
  apply (after_ind cfg fleet).
  - intros _ seed'. by apply fleet_idle.
  - intros _ seed'. apply fleet_spawned; [apply kernel_terminal|done..].
  - intros _ seed'. apply fleet_until.
    apply fleet_spawned; [apply kernel_terminal|done..].
  - intros s s' K F T. by apply (fleet_step s).
Qed.

(** C1: when [CONTAINERS_PER_VESSEL] is not negative, in every state the
    program reaches, the [containers_left] of a vessel is
    [CONTAINERS_PER_VESSEL] minus the number of crane steps that were
    completed for it (one log line "loads container" each): it starts at
    [CONTAINERS_PER_VESSEL] and goes down by one per completed step.  It is
    never negative, and it is 0 from the step on in which the vessel gives
    its berth back and logs that it leaves. *)
Theorem containers_left_counts_down n seed v x :
  vessels (snd (after cfg n seed)) !! v = Some x ->
  containers_left x =
    (CONTAINERS_PER_VESSEL cfg -
     Z.of_nat (count_loads v (stdout (snd (after cfg n seed)))))%Z /\
  (0 <= containers_left x)%Z /\
  (forall t, (t, VesselLeaves v) ∈ stdout (snd (after cfg n seed)) ->
     containers_left x = 0%Z).
Proof.
  intros Hx. pose proof (fleet_after n seed) as F.
  split; [by apply (fl_count _ F)|]. split; [by apply (fl_nonneg _ F v)|].
  intros t Ht. destruct (fl_left _ F _ _ Ht) as [Hz _].
  unfold the_vessel in Hz. by rewrite Hx in Hz.
Qed.

End Fleet.

(** The second vessel of a run of main.py after its first crane step. *)
Lemma containers_left_counts_down_witness :
  containers_left (MkVessel 149 8) =
    (CONTAINERS_PER_VESSEL main_config -
     Z.of_nat (count_loads 2
       (stdout (snd (@after scripted main_config 16 [0%Q; 0%Q; 0%Q; 0%Q])))))%Z /\
  (0 <= containers_left (MkVessel 149 8))%Z /\
  (forall t,
     (t, VesselLeaves 2) ∈ stdout (snd (@after scripted main_config 16 [0%Q; 0%Q; 0%Q; 0%Q])) ->
     containers_left (MkVessel 149 8) = 0%Z).
Proof.
  apply (@containers_left_counts_down scripted main_config).
  - cbn. lia.
  - vm_compute. reflexivity.
Defined.

(** ** The order of the events *)

(** The order of [entry_ltb] as a proposition: by time, then by priority,
    then by the number [schedule] gave the entry. *)
Definition entry_lt (a b : entry) : Prop :=
  (time a < time b)%Q \/
  ((time a == time b)%Q /\
   (priority a < priority b \/ (priority a = priority b /\ seq_no a < seq_no b))).

Definition same_key (a b : entry) : Prop :=
  (time a == time b)%Q /\ priority a = priority b /\ seq_no a = seq_no b.

Lemma entry_ltb_lt a b : entry_ltb a b = true <-> entry_lt a b.
Proof.
  unfold entry_ltb, entry_lt.
  destruct (Qcompare (time a) (time b)) eqn:Hc.
  - apply Qeq_alt in Hc. rewrite orb_true_iff, andb_true_iff, Nat.ltb_lt, Nat.eqb_eq, Nat.ltb_lt.
    split; [intros Hp; right; by split|].
    intros [Hlt|[_ Hp]]; [|done]. rewrite Hc in Hlt. by apply Qlt_irrefl in Hlt.
  - apply Qlt_alt in Hc. split; [by left|done].
  - apply Qgt_alt in Hc. split; [done|].
    intros [Hlt|[Heq _]].
    + destruct (Qlt_irrefl (time a)). by apply (Qlt_trans _ (time b)).
    + rewrite Heq in Hc. by apply Qlt_irrefl in Hc.
Qed.

Lemma entry_total a b : entry_lt a b \/ entry_lt b a \/ same_key a b.
Proof.
  unfold entry_lt, same_key.
  destruct (Q_dec (time a) (time b)) as [[Hlt|Hgt]|Heq]; [left; by left|right; left; by left|].
  destruct (lt_eq_lt_dec (priority a) (priority b)) as [[Hp|Hp]|Hp].
  - left. right. split; [done|by left].
  - destruct (lt_eq_lt_dec (seq_no a) (seq_no b)) as [[Hs|Hs]|Hs].
    + left. right. split; [done|right; by split].
    + right. right. by split.
    + right. left. right. split; [by symmetry|right; by split].
  - right. left. right. split; [by symmetry|by left].
Qed.

Lemma entry_lt_trans a b c : entry_lt a b -> entry_lt b c -> entry_lt a c.
Proof.
  unfold entry_lt. intros [H1|[H1 H1']] [H2|[H2 H2']].
  - left. by apply (Qlt_trans _ (time b)).
  - left. by rewrite <- H2.
  - left. by rewrite H1.
  - right. split; [by rewrite H1|]. lia.
Qed.

Lemma entry_lt_same a b c : same_key a b -> entry_lt a c -> entry_lt b c.
Proof.
  unfold entry_lt, same_key. intros (H1 & H2 & H3) [Hlt|[Heq Hp]].
  - left. by rewrite <- H1.
  - right. split; [by rewrite <- H1|]. lia.
Qed.

Lemma entry_lt_irrefl a : ~ entry_lt a a.
Proof. unfold entry_lt. intros [Hlt%Qlt_irrefl|[_ Hp]]; [done|lia]. Qed.

(** [heappop] returns an entry that none of the others precedes. *)
Lemma heappop_least q x rest :
  heappop q = Some (x, rest) -> forall y, y ∈ q -> ~ entry_lt y x.
Proof.
  revert x rest. induction q as [|z q IH]; intros x rest; cbn; [done|].
  destruct (heappop q) as [[m r]|] eqn:Hq.
  - specialize (IH m r eq_refl).
    destruct (entry_ltb m z) eqn:Hmz.
    + intros [= <- <-] y [->|Hy]%elem_of_cons; [|by apply IH].
      apply entry_ltb_lt in Hmz. intros Hzm.
      by apply (entry_lt_irrefl m), (entry_lt_trans m z m).
    + intros [= <- <-] y [->|Hy]%elem_of_cons; [apply entry_lt_irrefl|].
      intros Hyz. apply (IH y Hy).
      assert (~ entry_lt m z) as Hn by (by rewrite <- entry_ltb_lt, Hmz).
      destruct (entry_total y m) as [Hym|[Hmy|Hs]]; [done| |].
      * destruct Hn. by apply (entry_lt_trans m y z).
      * destruct Hn. by apply (entry_lt_same y m z).
  - destruct q; [|cbn in Hq; by destruct (heappop q) as [[? ?]|]; [destruct (entry_ltb _ _)|]].
    intros [= <- <-] y [->|Hy%elem_of_nil]%elem_of_cons; [|done]. apply entry_lt_irrefl.
Qed.

Lemma heappop_some q : q <> [] -> exists x rest, heappop q = Some (x, rest).
Proof.
  destruct q as [|z q]; [done|]. intros _. cbn.
  destruct (heappop q) as [[m r]|]; [destruct (entry_ltb m z)|]; eauto.
Qed.

Lemma heappop_perm q x rest : heappop q = Some (x, rest) -> q ≡ₚ x :: rest.
Proof.
  revert x rest. induction q as [|z q IH]; intros x rest; cbn; [done|].
  destruct (heappop q) as [[m r]|] eqn:Hq.
  - destruct (entry_ltb m z); intros [= <- <-]; [|done].
    rewrite (IH m r eq_refl). apply Permutation_swap.
  - destruct q; [|cbn in Hq; by destruct (heappop q) as [[? ?]|]; [destruct (entry_ltb _ _)|]].
    by intros [= <- <-].
Qed.

(** With distinct numbers, the least entry is unique: which entry is taken
    next does not depend on how the heap is laid out. *)
Lemma heappop_layout q q' x rest :
  NoDup (seq_no <$> q) -> q' ≡ₚ q -> heappop q = Some (x, rest) ->
  exists rest', heappop q' = Some (x, rest') /\ rest' ≡ₚ rest.
Proof.
  intros Hnd Hperm Hpop.
  pose proof (heappop_perm _ _ _ Hpop) as Hq.
  destruct (heappop_some q') as (x' & rest' & Hpop').
  { intros ->. apply Permutation_nil_l in Hperm. by subst q. }
  pose proof (heappop_perm _ _ _ Hpop') as Hq'.
  assert (x ∈ q) as Hx by (rewrite Hq; left).
  assert (x' ∈ q) as Hx' by (rewrite <- Hperm, Hq'; left).
  assert (x ∈ q') as Hx2 by (by rewrite Hperm).
  pose proof (heappop_least _ _ _ Hpop x' Hx') as H1.
  pose proof (heappop_least _ _ _ Hpop' x Hx2) as H2.
  assert (x' = x) as ->.
  { destruct (entry_total x x') as [?|[?|(_ & _ & Hs)]]; [done..|].
    apply list_elem_of_lookup in Hx as [i Hi]. apply list_elem_of_lookup in Hx' as [j Hj].
    assert (i = j) as ->.
    { apply (NoDup_lookup _ _ _ (seq_no x) Hnd); rewrite list_lookup_fmap.
      - by rewrite Hi.
      - by rewrite Hj, Hs. }
    congruence. }
  exists rest'. split; [done|].
  apply (Permutation_cons_inv (a := x)). by rewrite <- Hq', <- Hq.
Qed.

Section Entries.
Context `{Random} (cfg : config).

(** [schedule] numbers the entries of the heap: the numbers are distinct
    and below the counter [_eid]. *)
Definition entries (s : state) : Prop :=
  NoDup (seq_no <$> _queue s) /\ forall y, y ∈ _queue s -> seq_no y < _eid s.

Lemma entries_schedule e prio d : preserves entries (schedule e prio d).
Proof.
  apply preserves_modify. intros s [Hnd Hlt]. split; cbn.
  - unfold heappush. rewrite fmap_app. apply NoDup_app. split; [done|].
    split; [|apply NoDup_singleton].
    intros n (y & -> & Hy)%list_elem_of_fmap_1 Hn%list_elem_of_singleton. cbn in Hn.
    specialize (Hlt y Hy). lia.
  - intros y [Hy| ->%list_elem_of_singleton]%elem_of_app; [|cbn; lia].
    specialize (Hlt y Hy). lia.
Qed.
Hint Resolve entries_schedule : pres.

Lemma entries_succeed e : preserves entries (succeed e).
Proof. unfold succeed. pres. Qed.
Hint Resolve entries_succeed : pres.

Lemma entries_do_put e : preserves entries (_do_put e).
Proof. unfold _do_put. pres. Qed.
Hint Resolve entries_do_put : pres.

Lemma entries_trigger_put : preserves entries _trigger_put.
Proof. unfold _trigger_put. pres. Qed.

Lemma entries_do_get e : preserves entries (_do_get e).
Proof. unfold _do_get. pres. Qed.
Hint Resolve entries_trigger_put entries_do_get : pres.

Lemma entries_trigger_get : preserves entries _trigger_get.
Proof. unfold _trigger_get. pres. Qed.
Hint Resolve entries_trigger_get : pres.

Lemma entries_request : preserves entries request.
Proof. unfold request. pres. Qed.

Lemma entries_release r : preserves entries (release r).
Proof. unfold release. pres. Qed.
Hint Resolve entries_request entries_release : pres.

Lemma entries_send g : preserves entries (send cfg g).
Proof.
  destruct g; cbn; unfold arrivals_loop, arrive_loop, Vessel_init, timeout, process; pres.
Qed.
Hint Resolve entries_send : pres.

Lemma entries_resume p e : preserves entries (_resume cfg p e).
Proof. unfold _resume. pres. Qed.
Hint Resolve entries_resume : pres.

Lemma entries_run_callbacks e cbs : preserves entries (run_callbacks cfg e cbs).
Proof. induction cbs as [|cb cbs IH]; simpl; pres. destruct cb; simpl; pres. Qed.
Hint Resolve entries_run_callbacks : pres.

Lemma entries_step : preserves entries (step cfg).
Proof.
  apply preserves_get_bind. intros s [Hnd Hlt].
  destruct (heappop (_queue s)) as [[x q']|] eqn:Hpop; [|done].
  pose proof (heappop_perm _ _ _ Hpop) as Hq.
  unfold bind at 1, modify at 1.
  match goal with
  | |- entries (snd (?m ?s0)) =>
      assert (preserves entries m) as Hm by pres; apply (Hm s0)
  end.
  split; cbn.
  - rewrite Hq, fmap_cons in Hnd. by apply NoDup_cons in Hnd as [_ Hnd].
  - intros y Hy. apply Hlt. rewrite Hq. by right.
Qed.
Hint Resolve entries_step : pres.

Lemma entries_steps n : preserves entries (steps cfg n).
Proof. induction n; simpl; pres. Qed.

Lemma entries_boot : preserves entries (boot cfg).
Proof. unfold boot, Terminal_init, run_until, process. pres. Qed.

Lemma entries_after n seed : entries (snd (after cfg n seed)).
Proof.
  unfold after. apply (preserves_bind entries (boot cfg) (fun _ => steps cfg n)).
  - apply entries_boot.
  - intros _. apply entries_steps.
  - split; cbn; [apply NoDup_nil_2|by intros y ?%elem_of_nil].
Qed.

(** In every state the program reaches the numbers of the entries are
    distinct, so the entry taken next is the same however the heap is laid
    out, and it precedes every other entry: at equal time and priority the
    entry scheduled first goes first. *)
Lemma next_entry_is_first n seed :
  NoDup (seq_no <$> _queue (snd (after cfg n seed))) /\
  (forall q' x rest,
     q' ≡ₚ _queue (snd (after cfg n seed)) ->
     heappop (_queue (snd (after cfg n seed))) = Some (x, rest) ->
     exists rest', heappop q' = Some (x, rest') /\ rest' ≡ₚ rest) /\
  (forall x rest y,
     heappop (_queue (snd (after cfg n seed))) = Some (x, rest) ->
     y ∈ rest -> entry_ltb x y = true).
Proof.
  destruct (entries_after n seed) as [Hnd Hlt].
  split; [done|]. split.
  - intros q' x rest Hperm Hpop. by apply (heappop_layout _ _ _ _ Hnd).
  - intros x rest y Hpop Hy. apply entry_ltb_lt.
    pose proof (heappop_perm _ _ _ Hpop) as Hq.
    assert (y ∈ _queue (snd (after cfg n seed))) as Hy' by (rewrite Hq; by right).
    pose proof (heappop_least _ _ _ Hpop y Hy') as Hn.
    destruct (entry_total x y) as [?|[?|(_ & _ & Hs)]]; [done..|].
    rewrite Hq, fmap_cons in Hnd. apply NoDup_cons in Hnd as [Hx _].
    destruct Hx. rewrite Hs. by apply list_elem_of_fmap_2.
Qed.

End Entries.

(** ** Two runs

    [heapq] keeps the entries of the heap in an array whose layout is its
    own business: the program only pushes entries and pops the least one.
    A run is therefore taken over any layout of the heap, anew before every
    step. *)

Section Layout.
Context `{Random}.

(** The state [s] with its heap laid out as [q]. *)
Definition relaid (q : list entry) (s : state) : state := upd_queue (fun _ => q) s.

(** Two states that differ at most in the layout of the heap. *)
Definition layout (s1 s2 : state) : Prop :=
  exists q, q ≡ₚ _queue s1 /\ s2 = relaid q s1.

(** [m] does not look at the layout of the heap: over another layout it
    ends the same way, in the same state up to the layout. *)
Definition respects {A} (m : M A) : Prop :=
  forall s q, q ≡ₚ _queue s ->
    exists q', q' ≡ₚ _queue (snd (m s)) /\
      m (relaid q s) = (fst (m s), relaid q' (snd (m s))).

Lemma respects_ret {A} (a : A) : respects (ret a).
Proof. intros s q Hq. by exists q. Qed.

Lemma respects_raise {A} exc : respects (@raise _ A exc).
Proof. intros s q Hq. by exists q. Qed.

Lemma respects_bind {A B} (m : M A) (k : A -> M B) :
  respects m -> (forall a, respects (k a)) -> respects (bind m k).
Proof.
  intros Hm Hk s q Hq. destruct (Hm s q Hq) as (q1 & Hq1 & E1).
  unfold bind. rewrite E1. destruct (m s) as [[exc|a] s1]; cbn in *.
  - by exists q1.
  - apply (Hk a s1 q1 Hq1).
Qed.

Lemma respects_try {A} (m : M A) : respects m -> respects (try m).
Proof.
  intros Hm s q Hq. destruct (Hm s q Hq) as (q1 & Hq1 & E1).
  unfold try. rewrite E1. cbn. by exists q1.
Qed.

(** Reading the state first: what the continuation does with what it read
    must not depend on the layout. *)
Lemma respects_get_bind {A} (k : state -> M A) :
  (forall s q, k (relaid q s) = k s) -> (forall s0, respects (k s0)) ->
  respects (bind get k).
Proof.
  intros Hr Hk s q Hq. unfold bind, get. cbn. rewrite Hr. apply (Hk s s q Hq).
Qed.

Lemma respects_modify f :
  (forall s q, q ≡ₚ _queue s ->
     exists q', q' ≡ₚ _queue (f s) /\ f (relaid q s) = relaid q' (f s)) ->
  respects (modify f).
Proof.
  intros Hf s q Hq. destruct (Hf s q Hq) as (q' & Hq' & E).
  exists q'. unfold modify. cbn. by rewrite E.
Qed.

End Layout.

Ltac resp_step :=
  match goal with
  | |- respects (bind get _) => apply respects_get_bind; [intros ? ?; reflexivity|intros ?]
  | |- respects (bind _ _) => apply respects_bind; [|intros ?]
  | |- respects (ret _) => apply respects_ret
  | |- respects (raise _) => apply respects_raise
  | |- respects (try _) => apply respects_try
  | |- respects (if ?b then _ else _) => destruct b
  | |- respects (match ?x with _ => _ end) => destruct x
  end.

Create HintDb resp.

(** An update of another field than the heap. *)
Ltac elsewhere :=
  unfold add_callback, set_value, set_defused, set_proc, log;
  apply respects_modify;
  let q := fresh "q" in let Hq := fresh "Hq" in
  intros ? q Hq; exists q; split; [exact Hq|reflexivity].

Ltac resp := repeat (first [resp_step | solve [eauto with resp] | solve [elsewhere]]).

Section Runs.
Context `{Random} (cfg : config).

Lemma respects_new_event k cbs v : respects (new_event k cbs v).
Proof. intros s q Hq. exists q. split; [exact Hq|reflexivity]. Qed.

Lemma respects_pop_crane : respects pop_crane.
Proof.
  intros s q Hq. exists q. unfold pop_crane.
  change (quay_cranes (relaid q s)) with (quay_cranes s).
  destruct (quay_cranes s); (split; [exact Hq|reflexivity]).
Qed.

Lemma respects_random_expovariate lambd : respects (random_expovariate lambd).
Proof. intros s q Hq. exists q. split; [exact Hq|reflexivity]. Qed.

(** [schedule] pushes one entry, stamped with the clock and the counter. *)
Lemma respects_schedule e prio d : respects (schedule e prio d).
Proof.
  apply respects_modify. intros s q Hq.
  exists (heappush q (Entry (now s + d) prio (_eid s) e)). split; [|reflexivity].
  cbn. unfold heappush. by rewrite Hq.
Qed.
Hint Resolve respects_new_event respects_pop_crane respects_random_expovariate
  respects_schedule : resp.

Lemma respects_succeed e : respects (succeed e).
Proof. unfold succeed. resp. Qed.
Hint Resolve respects_succeed : resp.

Lemma respects_do_put e : respects (_do_put e).
Proof. unfold _do_put. resp. Qed.
Hint Resolve respects_do_put : resp.

Lemma respects_trigger_put : respects _trigger_put.
Proof. unfold _trigger_put. resp. Qed.

Lemma respects_do_get e : respects (_do_get e).
Proof. unfold _do_get. resp. Qed.
Hint Resolve respects_trigger_put respects_do_get : resp.

Lemma respects_trigger_get : respects _trigger_get.
Proof. unfold _trigger_get. resp. Qed.
Hint Resolve respects_trigger_get : resp.

Lemma respects_request : respects request.
Proof. unfold request. resp. Qed.

Lemma respects_release r : respects (release r).
Proof. unfold release. resp. Qed.
Hint Resolve respects_request respects_release : resp.

Lemma respects_send g : respects (send cfg g).
Proof.
  destruct g; cbn; unfold arrivals_loop, arrive_loop, Vessel_init, timeout, process; resp.
Qed.
Hint Resolve respects_send : resp.

Lemma respects_resume p e : respects (_resume cfg p e).
Proof. unfold _resume. resp. Qed.
Hint Resolve respects_resume : resp.

Lemma respects_run_callbacks e cbs : respects (run_callbacks cfg e cbs).
Proof. induction cbs as [|cb cbs IH]; simpl; resp. destruct cb; simpl; resp. Qed.
Hint Resolve respects_run_callbacks : resp.

Lemma entries_relaid (s : state) q : entries s -> q ≡ₚ _queue s -> entries (relaid q s).
Proof.
  intros [Hnd Hlt] Hq. split; cbn.
  - by rewrite Hq.
  - intros y Hy. apply Hlt. by rewrite <- Hq.
Qed.

Lemma bind_get {A} (k : state -> M A) (s : state) : bind get k s = k s s.
Proof. reflexivity. Qed.

(** [step] pops the least entry, which is the same entry in every layout
    because the numbers of the entries are distinct; the rest of [step]
    only pushes entries. *)
Lemma step_layout (s : state) q :
  entries s -> q ≡ₚ _queue s ->
  exists q', q' ≡ₚ _queue (snd (step cfg s)) /\
    step cfg (relaid q s) = (fst (step cfg s), relaid q' (snd (step cfg s))).
Proof.
  intros [Hnd _] Hq. unfold step. rewrite !bind_get. cbv beta zeta.
  change (_queue (relaid q s)) with q.
  destruct (heappop (_queue s)) as [[x rest]|] eqn:Hpop.
  - destruct (heappop_layout _ q _ _ Hnd Hq Hpop) as (rest' & Hpop' & Hrest).
    rewrite Hpop'.
    match goal with
    | |- exists q', _ /\ _ = (fst (bind (modify ?f) (fun _ => ?r) _), _) =>
        assert (respects r) as Hr by resp;
        destruct (Hr (f s) rest' Hrest) as (q' & Hq' & E)
    end.
    exists q'. split; [exact Hq'|exact E].
  - assert (_queue s = []) as Hs.
    { destruct (_queue s) as [|y l] eqn:Hl; [done|].
      destruct (heappop_some (y :: l)) as (x & rest & Hx); [done|]. congruence. }
    rewrite Hs in Hq. apply Permutation_nil_r in Hq. subst q.
    exists []. cbn. by rewrite Hs.
Qed.

(** [n] iterations of the loop of [env.run] from the state [s]: before
    each [step] the heap may be laid out in any way; an exception leaves
    the loop.  [r] is what is left: how the loop ended and the state. *)
Fixpoint run_from (n : nat) (s : state) (r : (exn + unit) * state) : Prop :=
  match n with
  | 0 => r = (inr tt, s)
  | S n' =>
      exists q, q ≡ₚ _queue s /\
        match step cfg (relaid q s) with
        | (inl exc, s') => r = (inl exc, s')
        | (inr _, s') => run_from n' s' r
        end
  end.

(** A run of the script from the seed [seed]. *)
Definition run (n : nat) (seed : rng_state) (r : (exn + unit) * state) : Prop :=
  match boot cfg (fresh seed) with
  | (inl exc, s) => r = (inl exc, s)
  | (inr _, s) => run_from n s r
  end.

(** The loop over a heap that [f] lays out anew before every step. *)
Fixpoint steps_over (f : list entry -> list entry) (n : nat) : M unit :=
  match n with
  | 0 => ret tt
  | S n' => modify (upd_queue f) ;; step cfg ;; steps_over f n'
  end.

Lemma relaid_queue (s : state) : relaid (_queue s) s = s.
Proof. by destruct s. Qed.

Lemma run_from_steps n (s : state) : run_from n s (steps cfg n s).
Proof.
  revert s. induction n as [|n IH]; intros s; [done|].
  cbn [run_from steps]. exists (_queue s). split; [done|].
  rewrite relaid_queue. unfold bind.
  destruct (step cfg s) as [[exc|[]] s']; [done|apply IH].
Qed.

Lemma run_from_steps_over f n (s : state) :
  (forall q, f q ≡ₚ q) -> run_from n s (steps_over f n s).
Proof.
  intros Hf. revert s. induction n as [|n IH]; intros s; [done|].
  cbn [run_from steps_over]. exists (f (_queue s)). split; [apply Hf|].
  change ((modify (upd_queue f) ;; step cfg ;; steps_over f n) s)
    with ((step cfg ;; steps_over f n) (relaid (f (_queue s)) s)).
  unfold bind.
  destruct (step cfg (relaid (f (_queue s)) s)) as [[exc|[]] s']; [done|apply IH].
Qed.

(** The run of the model is a run. *)
Lemma run_after n seed : run n seed (after cfg n seed).
Proof.
  unfold run, after, bind. destruct (boot cfg (fresh seed)) as [[exc|[]] s]; [done|].
  apply run_from_steps.
Qed.

(** So is the run over a heap that is laid out by [f] before every step. *)
Lemma run_over f n seed :
  (forall q, f q ≡ₚ q) -> run n seed ((boot cfg ;; steps_over f n) (fresh seed)).
Proof.
  intros Hf. unfold run, bind. destruct (boot cfg (fresh seed)) as [[exc|[]] s]; [done|].
  by apply run_from_steps_over.
Qed.

Lemma run_from_determined n (s : state) q r1 r2 :
  entries s -> q ≡ₚ _queue s ->
  run_from n s r1 -> run_from n (relaid q s) r2 ->
  fst r1 = fst r2 /\ layout (snd r1) (snd r2).
Proof.
  revert s q. induction n as [|n IH]; intros s q He Hq; cbn [run_from].
  - intros -> ->. split; [done|]. by exists q.
  - intros (q1 & Hq1 & H1) (q2 & Hq2 & H2). cbn in Hq2.
    change (relaid q2 (relaid q s)) with (relaid q2 (relaid q1 s)) in H2.
    pose proof (entries_relaid s q1 He Hq1) as He1.
    assert (q2 ≡ₚ _queue (relaid q1 s)) as Hq21 by (cbn; by rewrite Hq2, Hq, Hq1).
    destruct (step_layout (relaid q1 s) q2 He1 Hq21) as (q' & Hq' & E).
    rewrite E in H2.
    assert (entries (snd (step cfg (relaid q1 s)))) as He' by apply (entries_step cfg _ He1).
    destruct (step cfg (relaid q1 s)) as [[exc|[]] s']; cbn [fst snd] in *.
    + subst r1 r2. split; [done|]. by exists q'.
    + by apply (IH s' q').
Qed.

(** C7: two runs of the script with the same configuration, for the same
    number of iterations of the event loop and from the same seed, one over
    any layouts of the heap and the other over any others, end the same way
    and have printed the same log, line by line with its time; the states
    they end in differ at most in the layout of the heap.  The program
    draws its random numbers from the generator state it is started with,
    and the event loop takes the entries of the heap by time, then
    priority, then the number [schedule] gave them; these numbers are
    distinct, so the entry taken next is the same in both runs. *)
Theorem runs_are_determined n seed r1 r2 :
  run n seed r1 -> run n seed r2 ->
  fst r1 = fst r2 /\
  stdout (snd r1) = stdout (snd r2) /\
  now (snd r1) = now (snd r2) /\
  layout (snd r1) (snd r2).
Proof.
  unfold run. intros H1 H2.
  assert (fst r1 = fst r2 /\ layout (snd r1) (snd r2)) as [Hf Hl].
  { pose proof (entries_boot cfg (fresh seed)) as He.
    destruct (boot cfg (fresh seed)) as [[exc|[]] s].
    - subst r1 r2. split; [done|]. exists (_queue s). by rewrite relaid_queue.
    - apply (run_from_determined n s (_queue s)); [| done | done | by rewrite relaid_queue].
      apply He. split; cbn; [apply NoDup_nil_2|by intros y ?%elem_of_nil]. }
  split; [done|]. destruct Hl as (q & Hq & E). rewrite E. by repeat split; [..|exists q].
Qed.

End Runs.

(** The script of main.py with four vessels that arrive at once, run for 40
    iterations: once over the heap as the model lays it out, once over a
    heap that is reversed before every step. *)
Lemma runs_are_determined_witness :
  fst (@after scripted main_config 40 [0%Q; 0%Q; 0%Q; 0%Q]) =
    fst ((boot main_config ;; steps_over main_config reverse 40)
           (@fresh scripted [0%Q; 0%Q; 0%Q; 0%Q])) /\
  stdout (snd (@after scripted main_config 40 [0%Q; 0%Q; 0%Q; 0%Q])) =
    stdout (snd ((boot main_config ;; steps_over main_config reverse 40)
                   (@fresh scripted [0%Q; 0%Q; 0%Q; 0%Q]))) /\
  now (snd (@after scripted main_config 40 [0%Q; 0%Q; 0%Q; 0%Q])) =
    now (snd ((boot main_config ;; steps_over main_config reverse 40)
                (@fresh scripted [0%Q; 0%Q; 0%Q; 0%Q]))) /\
  layout (snd (@after scripted main_config 40 [0%Q; 0%Q; 0%Q; 0%Q]))
    (snd ((boot main_config ;; steps_over main_config reverse 40)
            (@fresh scripted [0%Q; 0%Q; 0%Q; 0%Q]))).
Proof.
  apply (@runs_are_determined scripted main_config 40 [0%Q; 0%Q; 0%Q; 0%Q]).
  - apply run_after.
  - apply run_over. intros q. apply reverse_Permutation.
Defined.

(** ** The arrival generator *)

(** A generator that returns the same sample every time. *)
Definition steady (d : Q) : Random :=
  {| rng_state := unit; expovariate := fun _ _ => (d, tt) |}.

Section Arrivals.
Context `{Random} (cfg : config).

(** The interval [vessel_on_the_terminal] draws in the state [s]. *)
Definition interval (s : state) : Q :=
  fst (expovariate (1 / AVERAGE_VESSEL_ARRIVAL_INTERVAL cfg)%Q (rng s)).

(** The consumer of the generator: it resumes the generator until the
    generator ends and counts the events it yields.  [world] is what the
    rest of the program does to the state while the generator is
    suspended. *)
Fixpoint arrivals_yields (world : state -> state) (fuel : nat) (g : frame) (s : state)
    : option nat :=
  match fuel with
  | 0 => None
  | S fuel' =>
      match vessel_on_the_terminal cfg g s with
      | (inr (Some (_, g')), s') => S <$> arrivals_yields world fuel' g' (world s')
      | (inr None, _) => Some 0
      | (inl _, _) => None
      end
  end.

Lemma arrivals_yields_S world fuel g (s : state) :
  arrivals_yields world (S fuel) g s =
  match vessel_on_the_terminal cfg g s with
  | (inr (Some (_, g')), s') => S <$> arrivals_yields world fuel g' (world s')
  | (inr None, _) => Some 0
  | (inl _, _) => None
  end.
Proof. reflexivity. Qed.

(** The state after the test of line 152 and the creation of vessel [i]. *)
Definition checked (i : nat) (s : state) : state :=
  if length (queue (berths s)) <? NUM_BERTHS cfg then launched cfg i s else s.

Lemma arrivals_resume_eq i (s : state) :
  vessel_on_the_terminal cfg (ArrivalsYield i) s = arrivals_loop cfg (S i) (checked i s).
Proof.
  unfold vessel_on_the_terminal, checked, bind, get.
  destruct (length (queue (berths s)) <? NUM_BERTHS cfg); [|done].
  by rewrite Vessel_init_eq.
Qed.

Lemma arrivals_loop_end j (s : state) :
  NUM_VESSEL cfg < j -> arrivals_loop cfg j s = (inr None, s).
Proof.
  intros Hj. unfold arrivals_loop.
  by destruct (Nat.leb_spec j (NUM_VESSEL cfg)); [lia|].
Qed.

Section Samples.
Hypothesis some_interval : ~ (AVERAGE_VESSEL_ARRIVAL_INTERVAL cfg == 0)%Q.
Hypothesis samples_nonneg : forall lambd r, (0 <= fst (expovariate lambd r))%Q.

Lemma arrivals_loop_yield j (s : state) :
  j <= NUM_VESSEL cfg ->
  arrivals_loop cfg j s =
  (inr (Some (next_obj s, ArrivalsYield j)),
   sched (next_obj s) NORMAL (interval s)
     (alloc KTimeout [] Succeeded
        (upd_rng (fun _ =>
           snd (expovariate (1 / AVERAGE_VESSEL_ARRIVAL_INTERVAL cfg)%Q (rng s))) s))).
Proof.
  intros Hj. unfold arrivals_loop.
  destruct (Nat.leb_spec j (NUM_VESSEL cfg)); [|lia].
  destruct (Qeq_bool _ _) eqn:Hz; [by apply Qeq_bool_iff in Hz|].
  unfold bind. cbn. unfold timeout.
  destruct (Qlt_le_dec _ _) as [Hlt|Hle]; [|reflexivity].
  apply Qlt_not_le in Hlt. destruct Hlt. apply samples_nonneg.
Qed.

Lemma arrivals_yields_from world k : forall i (s : state),
  i + k = NUM_VESSEL cfg ->
  arrivals_yields world (S k) (ArrivalsYield i) s = Some k.
Proof.
  induction k as [|k IH]; intros i s Hik; rewrite arrivals_yields_S.
  - by rewrite arrivals_resume_eq, arrivals_loop_end by lia.
  - rewrite arrivals_resume_eq, arrivals_loop_yield by lia. cbv beta iota.
    by rewrite IH by lia.
Qed.

Lemma arrivals_yields_all world (s : state) :
  arrivals_yields world (S (NUM_VESSEL cfg)) ArrivalsStart s = Some (NUM_VESSEL cfg).
Proof.
  rewrite arrivals_yields_S. unfold vessel_on_the_terminal.
  destruct (NUM_VESSEL cfg) as [|m] eqn:Hm.
  - by rewrite arrivals_loop_end by lia.
  - rewrite arrivals_loop_yield by lia. cbv beta iota.
    pose proof (arrivals_yields_from world m 1) as Hfrom.
    rewrite Hm in Hfrom. by rewrite Hfrom by lia.
Qed.

End Samples.

Local Arguments Nat.ltb : simpl never.

(** A request made while every berth is in use stays in the queue. *)
Lemma request_waits (s : state) :
  capacity (berths s) <= length (users (berths s)) ->
  fst (request s) = inr (next_obj s) /\
  next_obj s ∈ queue (berths (snd (request s))) /\
  users (berths (snd (request s))) = users (berths s) /\
  events (snd (request s)) !! next_obj s =
    Some (Event KRequest (Some [CbTriggerGet]) PENDING false) /\
  _queue (snd (request s)) = _queue s.
Proof.
  intros Hfull. apply Nat.ltb_ge in Hfull.
  unfold request, bind. cbn. unfold _trigger_put, bind, get. cbn.
  destruct (queue (berths s)) as [|h rest] eqn:Hq; cbn.
  - unfold _do_put, bind, get. cbn. rewrite Hfull. cbn.
    unfold the_event. cbn. rewrite lookup_alter_eq, lookup_insert_eq. cbn.
    rewrite Hq, lookup_alter_eq, lookup_insert_eq. cbn.
    split; [done|]. split; [left|done].
  - unfold _do_put, bind, get. cbn. rewrite Hfull. cbn.
    destruct (is_pending _); cbn; rewrite Hq, lookup_alter_eq, lookup_insert_eq; cbn.
    + split; [done|]. split; [|done]. right. apply elem_of_app. right. left.
    + split; [done|]. split; [|done]. apply elem_of_app. right. left.
Qed.

Lemma checked_clock i (s : state) :
  now (checked i s) = now s /\ interval (checked i s) = interval s.
Proof. unfold checked. by destruct (_ <? _). Qed.

(** C6: [vessel_on_the_terminal] makes exactly [NUM_VESSEL] rounds,
    whatever happens while it is suspended.  In every round it suspends on
    one timeout whose delay is the sample drawn from [random.expovariate]
    with the rate [1 / AVERAGE_VESSEL_ARRIVAL_INTERVAL]; resumed in round
    [i], it creates vessel [i] and its process if the berths' queue of
    pending requests is shorter than [NUM_BERTHS], and creates nothing
    otherwise; after round [NUM_VESSEL] it ends.  The berths in use play no
    part in the test, and a vessel that starts while all of them are in use
    gets no berth: its request stays pending in the queue. *)
Theorem arrivals_contract world (s : state) i :
  ~ (AVERAGE_VESSEL_ARRIVAL_INTERVAL cfg == 0)%Q ->
  (forall lambd r, (0 <= fst (expovariate lambd r))%Q) ->
  arrivals_yields world (S (NUM_VESSEL cfg)) ArrivalsStart s = Some (NUM_VESSEL cfg) /\
  (1 <= NUM_VESSEL cfg ->
     fst (vessel_on_the_terminal cfg ArrivalsStart s) =
       inr (Some (next_obj s, ArrivalsYield 1)) /\
     events (snd (vessel_on_the_terminal cfg ArrivalsStart s)) !! next_obj s =
       Some (Event KTimeout (Some []) Succeeded false) /\
     _queue (snd (vessel_on_the_terminal cfg ArrivalsStart s)) =
       _queue s ++ [Entry (now s + interval s) NORMAL (_eid s) (next_obj s)]) /\
  (S i <= NUM_VESSEL cfg ->
     fst (vessel_on_the_terminal cfg (ArrivalsYield i) s) =
       inr (Some (next_obj (checked i s), ArrivalsYield (S i))) /\
     events (snd (vessel_on_the_terminal cfg (ArrivalsYield i) s))
       !! next_obj (checked i s) =
       Some (Event KTimeout (Some []) Succeeded false) /\
     _queue (snd (vessel_on_the_terminal cfg (ArrivalsYield i) s)) =
       _queue (checked i s) ++
       [Entry (now s + interval s) NORMAL (_eid (checked i s)) (next_obj (checked i s))]) /\
  (NUM_VESSEL cfg <= i ->
     fst (vessel_on_the_terminal cfg (ArrivalsYield i) s) = inr None) /\
  (length (queue (berths s)) < NUM_BERTHS cfg ->
     procs (snd (vessel_on_the_terminal cfg (ArrivalsYield i) s)) =
       <[next_obj s := Process (ArriveStart i) (Some (S (next_obj s)))]> (procs s) /\
     vessels (snd (vessel_on_the_terminal cfg (ArrivalsYield i) s)) !! i =
       Some (MkVessel (CONTAINERS_PER_VESSEL cfg) (next_obj s))) /\
  (NUM_BERTHS cfg <= length (queue (berths s)) ->
     procs (snd (vessel_on_the_terminal cfg (ArrivalsYield i) s)) = procs s /\
     vessels (snd (vessel_on_the_terminal cfg (ArrivalsYield i) s)) = vessels s) /\
  (forall v (s2 : state),
     capacity (berths s2) <= length (users (berths s2)) ->
     fst (arrive v (ArriveStart v) s2) =
       inr (Some (next_obj s2, ArriveBerth v (next_obj s2))) /\
     next_obj s2 ∈ queue (berths (snd (arrive v (ArriveStart v) s2))) /\
     users (berths (snd (arrive v (ArriveStart v) s2))) = users (berths s2) /\
     events (snd (arrive v (ArriveStart v) s2)) !! next_obj s2 =
       Some (Event KRequest (Some [CbTriggerGet]) PENDING false) /\
     _queue (snd (arrive v (ArriveStart v) s2)) = _queue s2).
Proof.
  intros Havg Hpos. split; [by apply arrivals_yields_all|].
  split; [|split; [|split; [|split; [|split]]]].
  - intros Hn. unfold vessel_on_the_terminal.
    rewrite arrivals_loop_yield by done. cbn. by rewrite lookup_insert_eq.
  - intros Hi. rewrite arrivals_resume_eq, arrivals_loop_yield by done.
    destruct (checked_clock i s) as [Hnow Hint]. rewrite <- Hnow, <- Hint.
    cbn. by rewrite lookup_insert_eq.
  - intros Hi. by rewrite arrivals_resume_eq, arrivals_loop_end by lia.
  - intros Hq. rewrite arrivals_resume_eq. unfold checked.
    destruct (Nat.ltb_spec (length (queue (berths s))) (NUM_BERTHS cfg)); [|lia].
    destruct (le_lt_dec (S i) (NUM_VESSEL cfg)).
    + rewrite arrivals_loop_yield by done. cbn.
      by rewrite lookup_alter_eq, lookup_insert_eq.
    + rewrite arrivals_loop_end by done. cbn.
      by rewrite lookup_alter_eq, lookup_insert_eq.
  - intros Hq. rewrite arrivals_resume_eq. unfold checked.
    destruct (Nat.ltb_spec (length (queue (berths s))) (NUM_BERTHS cfg)); [lia|].
    destruct (le_lt_dec (S i) (NUM_VESSEL cfg)).
    + by rewrite arrivals_loop_yield by done.
    + by rewrite arrivals_loop_end by done.
  - intros v s2 Hfull. unfold arrive, bind.
    pose proof (request_waits (logged (VesselArrives v) s2) Hfull) as Hr.
    change (log (VesselArrives v) s2) with (inr tt : exn + unit, logged (VesselArrives v) s2).
    cbv beta iota.
    destruct (request (logged (VesselArrives v) s2)) as [[exc|r] s3].
    + by destruct Hr as [[=] _].
    + destruct Hr as ([= ->] & Hin & Hus & Hev & Hqu). done.
Qed.

End Arrivals.

(** The program under [steady 0], just before the arrival generator is
    resumed in its third round: both berths are in use and no request is
    waiting. *)
Definition third_arrival : @state (steady 0) :=
  snd (@after (steady 0) main_config 7 tt).

Lemma arrivals_contract_witness :
  (generator <$> procs third_arrival !! 0 = Some (ArrivalsYield 3) /\
   length (users (berths third_arrival)) = 2 /\ queue (berths third_arrival) = []) /\
  (arrivals_yields main_config id 5 ArrivalsStart third_arrival = Some 4 /\
   procs (snd (vessel_on_the_terminal main_config (ArrivalsYield 3) third_arrival)) =
     <[next_obj third_arrival :=
         Process (ArriveStart 3) (Some (S (next_obj third_arrival)))]>
       (procs third_arrival) /\
   vessels (snd (vessel_on_the_terminal main_config (ArrivalsYield 3) third_arrival)) !! 3 =
     Some (MkVessel 150 (next_obj third_arrival))).
Proof.
  split; [by vm_compute|].
  pose proof (@arrivals_contract (steady 0) main_config id third_arrival 3) as C.
  destruct C as (Hrounds & _ & _ & _ & Hspawn & _).
  - vm_compute. discriminate.
  - intros lambd r. vm_compute. discriminate.
  - split; [exact Hrounds|]. apply Hspawn. vm_compute. lia.
Defined.


(** ** The time a vessel spends at its berth *)



Section Clock.
Context `{Random} (cfg : config).
Hypothesis some_containers : (0 <= CONTAINERS_PER_VESSEL cfg)%Z.

Local Arguments granting : simpl never.
Local Arguments requested : simpl never.





Lemma granting_entries (s1 : state) y :
  y ∈ _queue (granting s1) ->
  y ∈ _queue s1 \/ exists rest, queue (berths s1) = event_of y :: rest.
Proof.
  unfold granting. destruct (queue (berths s1)) as [|h rest] eqn:Hq; [by left|].
  destruct (_ <? _); [|by left]. cbn. unfold heappush.
  intros [Hy| ->%list_elem_of_singleton]%elem_of_app; [by left|]. right. by exists rest.
Qed.



















Local Arguments release : simpl never.


End Clock.


(** ** One crane step *)

Section CraneStep.
Context `{Random} (cfg : config).

(** C4: [load_container] is one suspension of [CRANE_CONTAINER_TIME].
    Started, it logs, makes one timeout that is due [CRANE_CONTAINER_TIME]
    from now and yields it, and leaves the vessels as they are.  Resumed, it
    takes one container off the vessel, changes no other vessel, schedules
    nothing, and ends. *)
Theorem crane_step_is_one_timeout (s : state) crane v :
  (0 <= CRANE_CONTAINER_TIME cfg)%Q ->
  (fst (load_container cfg crane v (LoadStart crane v) s) =
     inr (Some (next_obj s, LoadYield crane v)) /\
   events (snd (load_container cfg crane v (LoadStart crane v) s)) !! next_obj s =
     Some (Event KTimeout (Some []) Succeeded false) /\
   _queue (snd (load_container cfg crane v (LoadStart crane v) s)) =
     _queue s ++ [Entry (now s + CRANE_CONTAINER_TIME cfg) NORMAL (_eid s) (next_obj s)] /\
   vessels (snd (load_container cfg crane v (LoadStart crane v) s)) = vessels s /\
   now (snd (load_container cfg crane v (LoadStart crane v) s)) = now s) /\
  (fst (load_container cfg crane v (LoadYield crane v) s) = inr None /\
   _queue (snd (load_container cfg crane v (LoadYield crane v) s)) = _queue s /\
   (forall x, vessels s !! v = Some x ->
      vessels (snd (load_container cfg crane v (LoadYield crane v) s)) !! v =
        Some (MkVessel (containers_left x - 1) (action x))) /\
   (forall u, u <> v ->
      vessels (snd (load_container cfg crane v (LoadYield crane v) s)) !! u =
        vessels s !! u) /\
   stdout (snd (load_container cfg crane v (LoadYield crane v) s)) =
     stdout s ++ [(now s, CraneLoads crane v)]).
Proof.
  intros Hd. split.
  - unfold load_container, timeout, bind.
    destruct (Qlt_le_dec _ _) as [Hlt|Hle]; [by apply Qlt_not_le in Hlt|].
    cbn. by rewrite lookup_insert_eq.
  - cbn. split; [done|]. split; [done|]. split; [|split; [|done]].
    + intros x Hx. by rewrite lookup_alter_eq, Hx.
    + intros u Hu. by rewrite lookup_alter_ne.
Qed.

End CraneStep.

(** A state with nothing but vessel 7 and its 5 containers. *)
Definition crane_demo : @state scripted :=
  upd_vessels <[7 := MkVessel 5 0]> (@fresh scripted []).

(** The crane step of main.py in that state. *)
Lemma crane_step_is_one_timeout_witness :
  (fst (load_container main_config 1 7 (LoadStart 1 7) crane_demo) =
     inr (Some (next_obj crane_demo, LoadYield 1 7)) /\
   events (snd (load_container main_config 1 7 (LoadStart 1 7) crane_demo))
     !! next_obj crane_demo =
     Some (Event KTimeout (Some []) Succeeded false) /\
   _queue (snd (load_container main_config 1 7 (LoadStart 1 7) crane_demo)) =
     _queue crane_demo ++
     [Entry (now crane_demo + CRANE_CONTAINER_TIME main_config) NORMAL
        (_eid crane_demo) (next_obj crane_demo)] /\
   vessels (snd (load_container main_config 1 7 (LoadStart 1 7) crane_demo)) =
     vessels crane_demo /\
   now (snd (load_container main_config 1 7 (LoadStart 1 7) crane_demo)) =
     now crane_demo) /\
  (fst (load_container main_config 1 7 (LoadYield 1 7) crane_demo) = inr None /\
   _queue (snd (load_container main_config 1 7 (LoadYield 1 7) crane_demo)) =
     _queue crane_demo /\
   (forall x, vessels crane_demo !! 7 = Some x ->
      vessels (snd (load_container main_config 1 7 (LoadYield 1 7) crane_demo)) !! 7 =
        Some (MkVessel (containers_left x - 1) (action x))) /\
   (forall u, u <> 7 ->
      vessels (snd (load_container main_config 1 7 (LoadYield 1 7) crane_demo)) !! u =
        vessels crane_demo !! u) /\
   stdout (snd (load_container main_config 1 7 (LoadYield 1 7) crane_demo)) =
     stdout crane_demo ++ [(now crane_demo, CraneLoads 1 7)]).
Proof.
  apply (@crane_step_is_one_timeout scripted main_config crane_demo 1 7).
  vm_compute. discriminate.
Defined.

(** ** One vessel with three containers *)

Definition c5_config : config :=
  {| SIMULATION_TIME := 720; NUM_BERTHS := 1; NUM_QUAY_CRANES := 1; NUM_TRUCKS := 3;
     NUM_VESSEL := 1; AVERAGE_VESSEL_ARRIVAL_INTERVAL := 300; CONTAINERS_PER_VESSEL := 3;
     CRANE_CONTAINER_TIME := 3; TRUCK_TRANSPORT_TIME := 6 |}.

(** C5: with one berth, one crane, one vessel of three containers, a crane
    step of 3 and the vessel arriving at time 0 (the interval drawn is 0),
    the run goes on to the horizon and has logged exactly: arrives at 0,
    berths at 0, then three crane steps starting at 0, 3, 6 and ending at 3,
    6, 9, and leaves at 9. *)
Theorem one_vessel_three_containers :
  exists s, @main scripted c5_config 30 [0%Q] = (Returned, s) /\
    stdout s =
      [(0%Q, VesselArrives 1); (0%Q, VesselBerths 1);
       (0%Q, CraneStarts 1 1); (3%Q, CraneLoads 1 1);
       (3%Q, CraneStarts 1 1); (6%Q, CraneLoads 1 1);
       (6%Q, CraneStarts 1 1); (9%Q, CraneLoads 1 1);
       (9%Q, VesselLeaves 1)].
Proof. eexists. split; vm_compute; reflexivity. Qed.




Section Rounding.
Import PrimFloat.


End Rounding.

(** ** How a run ends *)

Section Outcome.
Context `{Random} (cfg : config).

(** The three ways the script gets to the loop of [env.run], or not. *)
Lemma boot_outcome (seed : rng_state) :
  (NUM_BERTHS cfg = 0 /\ boot cfg (fresh seed) = (inl ValueError, fresh seed)) \/
  (NUM_BERTHS cfg <> 0 /\ (SIMULATION_TIME cfg <= 0)%Q /\
   boot cfg (fresh seed) = (inl ValueError, spawned ArrivalsStart (terminal cfg seed))) \/
  (NUM_BERTHS cfg <> 0 /\ (0 < SIMULATION_TIME cfg)%Q /\
   boot cfg (fresh seed) = (inr tt, booted cfg seed)).
Proof.
  unfold boot.
  destruct (NUM_BERTHS cfg =? 0) eqn:Hnb.
  { left. split; [by apply Nat.eqb_eq|]. unfold Terminal_init, bind. by rewrite Hnb. }
  right. apply Nat.eqb_neq in Hnb as Hnb'.
  unfold bind. rewrite Terminal_init_eq by done. rewrite process_eq.
  destruct (Qle_bool (SIMULATION_TIME cfg)
              (now (spawned ArrivalsStart (terminal cfg seed)))) eqn:Hle.
  - left. split; [done|]. split; [by apply Qle_bool_iff in Hle|].
    by rewrite run_until_raise.
  - right. split; [done|]. split.
    + apply Qnot_le_lt. intros Hc. apply Qle_bool_iff in Hc.
      change (now (spawned ArrivalsStart (terminal cfg seed))) with 0%Q in Hle. congruence.
    + by rewrite run_until_eq.
Qed.

(** Induction over the loop of [env.run] that keeps track of how it ends:
    [P] holds while the loop runs, [Q] when an exception leaves it. *)
Lemma steps_ind (P : state -> Prop) (Q : exn -> state -> Prop) :
  (forall s, kernel s -> P s ->
     match step cfg s with
     | (inr _, s') => P s'
     | (inl exc, s') => Q exc s'
     end) ->
  forall n s, kernel s -> P s ->
    match steps cfg n s with
    | (inr _, s') => kernel s' /\ P s'
    | (inl exc, s') => Q exc s'
    end.
Proof.
  intros Hstep. induction n as [|n IH]; intros s K HP; [done|].
  cbn [steps]. unfold bind.
  pose proof (kernel_transition cfg s _ K (step_transition cfg s K)) as K'.
  pose proof (Hstep s K HP) as HS.
  destruct (step cfg s) as [[exc|[]] s']; [done|]. by apply IH.
Qed.

(** [Process._resume] catches what the generator raises. *)
Lemma resume_fst p e (s : state) : fst (_resume cfg p e s) = inr tt.
Proof.
  unfold _resume, bind, get, try.
  destruct (ev_value (the_event s e)).
  - by destruct (send cfg (generator (the_proc s p)) s) as [[exc|[[ev g']|]] s'].
  - by destruct (send cfg (generator (the_proc s p)) s) as [[exc|[[ev g']|]] s'].
  - reflexivity.
Qed.

(** What [step] raises: [EmptySchedule] on an empty heap, [StopSimulation]
    when it processes the until event, and otherwise the failure of the
    event it processed, if that failed and nobody took the failure. *)
Lemma step_outcome (s : state) :
  kernel s ->
  match heappop (_queue s) with
  | None => fst (step cfg s) = inl EmptySchedule
  | Some (x, rest) =>
      match cls s (event_of x) with
      | Some KEvent => fst (step cfg s) = inl StopSimulation
      | _ => fst (step cfg s) = verdict (the_event (snd (step cfg s)) (event_of x))
      end
  end.
Proof.
  intros K.
  destruct (heappop (_queue s)) as [[x rest]|] eqn:Hpop.
  2:{ unfold step, bind, get. by rewrite Hpop. }
  destruct (heappop_elem _ _ _ Hpop) as (l1 & l2 & Hq & Hrest).
  assert (x ∈ _queue s) as Hx by (rewrite Hq, elem_of_app, elem_of_cons; tauto).
  destruct (k_heap _ K x Hx) as (k & c & Hcls & Hcbs & Hshape).
  destruct (event_fields_any _ _ _ _ Hcls Hcbs) as (v & d & Hev & Hval).
  assert (default [] (callbacks (the_event s (event_of x))) = c) as Hcb
    by (unfold the_event; by rewrite Hev).
  rewrite Hcls, (step_unfold _ _ _ _ Hpop), Hcb.
  assert (forall cs, fst (run_callbacks cfg (event_of x) cs (taken x rest s)) = inr tt ->
            (let (r, s') := run_callbacks cfg (event_of x) cs (taken x rest s) in
             match r with
             | inl exc => (inl exc, s')
             | inr _ => (verdict (the_event s' (event_of x)), s')
             end).1 =
            verdict
              (the_event
                 (let (r, s') := run_callbacks cfg (event_of x) cs (taken x rest s) in
                  match r with
                  | inl exc => (inl exc, s')
                  | inr _ => (verdict (the_event s' (event_of x)), s')
                  end).2 (event_of x))) as Hgo.
  { intros cs Hcs. by destruct (run_callbacks _ _ _ _) as [[exc|[]] s']. }
  destruct k.
  - subst c. reflexivity.
  - destruct Hshape as (_ & q & g & -> & _). apply Hgo.
    cbn. unfold bind. pose proof (resume_fst q (event_of x) (taken x rest s)) as Hr.
    by destruct (_resume _ _ _ _) as [[exc|[]] s'].
  - destruct Hshape as (_ & q & g & -> & _). apply Hgo.
    cbn. unfold bind. pose proof (resume_fst q (event_of x) (taken x rest s)) as Hr.
    by destruct (_resume _ _ _ _) as [[exc|[]] s'].
  - destruct Hshape as (_ & _ & [->|(q & u & r & crane & -> & _)]); apply Hgo; [done|].
    cbn. unfold bind. pose proof (resume_fst q (event_of x) (taken x rest s)) as Hr.
    by destruct (_resume _ _ _ _) as [[exc|[]] s'].
  - destruct Hshape as (_ & q & u & -> & _). apply Hgo.
    assert (_trigger_get (taken x rest s) = (inr tt, taken x rest s)) as Hget.
    { unfold _trigger_get, bind, get. cbn. by rewrite (k_get _ K). }
    cbn. unfold bind. rewrite Hget.
    pose proof (resume_fst q (event_of x) (taken x rest s)) as Hr.
    by destruct (_resume _ _ _ _) as [[exc|[]] s'].
  - destruct Hshape as (-> & _). apply Hgo.
    cbn. unfold bind.
    by rewrite (trigger_put_granting _ (waiting_head_pending s x rest K)).
Qed.

End Outcome.

(** ** The clock and the log *)

Lemma heappop_min q x rest :
  heappop q = Some (x, rest) -> forall y, y ∈ q -> (time x <= time y)%Q.
Proof.
  intros Hpop y Hy. apply Qnot_lt_le. intros Hlt.
  apply (heappop_least _ _ _ Hpop y Hy). by left.
Qed.

Lemma later (a d : Q) : (0 <= d)%Q -> (a <= a + d)%Q.
Proof.
  intros Hd. rewrite <- (Qplus_0_r a) at 1. apply Qplus_le_compat; [apply Qle_refl|done].
Qed.

Section Timeline.
Context `{Random} (cfg : config).

Local Arguments granting : simpl never.
Local Arguments requested : simpl never.

(** The clock is not ahead of any scheduled event, the log is not ahead of
    the clock, and the times in the log do not decrease. *)
Record timeline (s : state) : Prop := {
  tl_start : (0 <= now s)%Q;
  tl_ahead : forall y, y ∈ _queue s -> (now s <= time y)%Q;
  tl_log : forall a, a ∈ stdout s -> (0 <= fst a <= now s)%Q;
  tl_sorted : StronglySorted (fun a b : Q * message => (fst a <= fst b)%Q) (stdout s)
}.

Lemma granting_times (s1 : state) y :
  y ∈ _queue (granting s1) -> y ∈ _queue s1 \/ time y = (now s1 + 0)%Q.
Proof.
  unfold granting. destruct (queue (berths s1)) as [|h rest] eqn:Hq; [by left|].
  destruct (_ <? _); [|by left]. cbn. unfold heappush.
  intros [Hy| ->%list_elem_of_singleton]%elem_of_app; [by left|by right].
Qed.

Lemma granting_rest (s1 : state) y : y ∈ _queue s1 -> y ∈ _queue (granting s1).
Proof.
  unfold granting. destruct (queue (berths s1)) as [|h rest] eqn:Hq; [done|].
  destruct (_ <? _); [|done]. cbn. unfold heappush. intros Hy. apply elem_of_app. by left.
Qed.

Lemma same_time_sorted (t : Q) (l : list (Q * message)) :
  Forall (fun a => fst a = t) l ->
  StronglySorted (fun a b : Q * message => (fst a <= fst b)%Q) l.
Proof.
  induction 1 as [|a l Ha Hl IH]; constructor; [done|].
  eapply Forall_impl; [exact Hl|]. intros b Hb. cbn beta. rewrite Ha, Hb. apply Qle_refl.
Qed.

(** A step sets the clock to the time of the entry it takes, schedules
    nothing before that time, and logs at that time. *)
Lemma timeline_keep (s s' : state) x rest :
  timeline s -> heappop (_queue s) = Some (x, rest) ->
  now s' = time x ->
  (forall y, y ∈ _queue s' -> y ∈ rest \/ (time x <= time y)%Q) ->
  (exists l, stdout s' = stdout s ++ l /\ Forall (fun a => fst a = time x) l) ->
  timeline s'.
Proof.
  intros [Hstart Hahead Hlog Hsorted] Hpop Hnow Hqueue (l & Hout & Hl).
  pose proof (heappop_perm _ _ _ Hpop) as Hperm.
  assert (x ∈ _queue s) as Hx by (rewrite Hperm; left).
  assert (forall y, y ∈ rest -> y ∈ _queue s) as Hrest
    by (intros y Hy; rewrite Hperm; by right).
  pose proof (Hahead x Hx) as Hnx.
  pose proof (same_time_sorted _ _ Hl) as Hsl.
  rewrite Forall_forall in Hl.
  split; rewrite ?Hnow, ?Hout.
  - by apply (Qle_trans _ (now s)).
  - intros y [Hy|Hy]%Hqueue; [|done]. apply (heappop_min _ _ _ Hpop). by apply Hrest.
  - intros a [Ha|Ha]%elem_of_app.
    + destruct (Hlog a Ha) as [H0 H1]. split; [done|]. by apply (Qle_trans _ (now s)).
    + rewrite (Hl a Ha). split; [by apply (Qle_trans _ (now s))|apply Qle_refl].
  - apply StronglySorted_app_2; [|done|done].
    intros a b Ha Hb. rewrite (Hl b Hb). destruct (Hlog a Ha) as [_ H1].
    by apply (Qle_trans _ (now s)).
Qed.

Ltac tl_now := rewrite ?granting_now; cbn; reflexivity.

Ltac tl_entry :=
  first
    [ by left
    | right; subst; cbn;
      first [apply Qle_refl | apply later; first [apply Qle_refl|assumption]] ].

Ltac tl_entries :=
  let y := fresh "y" in
  let Hy := fresh "Hy" in
  intros y; cbn; unfold heappush; rewrite ?elem_of_app, ?list_elem_of_singleton;
  intros Hy; repeat (match type of Hy with _ \/ _ => destruct Hy as [Hy|Hy] end);
  tl_entry.

Ltac tl_lines :=
  rewrite ?granting_stdout; cbn; rewrite <- ?app_assoc;
  first [ exists []; split; [by rewrite app_nil_r|constructor]
        | eexists; split; [reflexivity|repeat constructor] ].

Lemma timeline_step (s s' : state) :
  timeline s -> transition cfg s s' -> timeline s'.
Proof.
  intros TL T. destruct T; leaves.
  all: try solve [eapply (timeline_keep s); [exact TL|eassumption|tl_now|tl_entries|tl_lines]].
  - exact TL.
  - (* a release is processed *)
    eapply (timeline_keep s); [exact TL|eassumption|tl_now| |tl_lines].
    intros y [Hy| ->]%granting_times; [by left|]. right. cbn. apply later, Qle_refl.
  - (* a vessel asks for a berth *)
    pose proof (requested_queued (logged (VesselArrives v) (taken x rest s)) p v) as Hrq.
    change (next_obj (logged (VesselArrives v) (taken x rest s))) with (next_obj s) in Hrq.
    rewrite Hrq. clear Hrq.
    eapply (timeline_keep s); [exact TL|eassumption|tl_now| |tl_lines].
    intros y [Hy| ->]%granting_times; [by left|]. right. cbn. apply later, Qle_refl.
Qed.

(** What holds before the loop of [env.run] and is kept by every transition
    holds in every state the program reaches; the loop starts only with a
    horizon after time 0. *)
Lemma reach_ind (P : state -> Prop) :
  (forall seed, P (fresh seed)) ->
  (forall seed, P (spawned ArrivalsStart (terminal cfg seed))) ->
  ((0 < SIMULATION_TIME cfg)%Q -> forall seed, P (booted cfg seed)) ->
  (forall s s', kernel s -> P s -> transition cfg s s' -> P s') ->
  forall n seed, P (snd (after cfg n seed)).
Proof.
  intros Hfresh Hspawn Hboot Hstep n seed. unfold after, bind.
  destruct (boot_outcome cfg seed) as [[_ ->]|[(_ & _ & ->)|(_ & Ht & ->)]];
    [apply Hfresh|apply Hspawn|].
  assert (forall s, kernel s -> P s ->
            match step cfg s with
            | (inr _, s') => P s'
            | (inl exc, s') => P s'
            end) as Hs.
  { intros s K HP. pose proof (Hstep s _ K HP (step_transition cfg s K)) as HP'.
    by destruct (step cfg s) as [[exc|[]] s']. }
  pose proof (steps_ind cfg P (fun _ => P) Hs n (booted cfg seed)
                (kernel_booted cfg seed) (Hboot Ht seed)) as Hn.
  destruct (steps cfg n (booted cfg seed)) as [[exc|[]] s']; cbn; tauto.
Qed.

Lemma timeline_after n seed : timeline (snd (after cfg n seed)).
Proof.
  apply reach_ind.
  - intros seed'. split; cbn; [done|by intros ? ?%elem_of_nil..|constructor].
  - intros seed'. split; cbn; [done| |by intros ? ?%elem_of_nil|constructor].
    intros y ->%list_elem_of_singleton. done.
  - intros Ht seed'. split; cbn; [done| |by intros ? ?%elem_of_nil|constructor].
    unfold heappush. cbn.
    intros y [-> | ->%list_elem_of_singleton]%elem_of_cons; cbn; [done|].
    apply later. rewrite <- (Qplus_opp_r 0). apply Qplus_le_compat; [|apply Qle_refl].
    by apply Qlt_le_weak.
  - intros s s' _ TL T. by apply (timeline_step s).
Qed.

(** X1: the times main.py prints never decrease: in every state the
    program reaches, whatever the configuration and the random numbers, the
    log is sorted by time, every time in it is at least 0 and at most the
    clock, and no scheduled event lies before the clock. *)
Theorem log_times_never_decrease n seed :
  StronglySorted (fun a b : Q * message => (fst a <= fst b)%Q)
    (stdout (snd (after cfg n seed))) /\
  (forall t msg, (t, msg) ∈ stdout (snd (after cfg n seed)) ->
     (0 <= t <= now (snd (after cfg n seed)))%Q) /\
  (forall y, y ∈ _queue (snd (after cfg n seed)) ->
     (now (snd (after cfg n seed)) <= time y)%Q).
Proof.
  destruct (timeline_after n seed) as [_ Hahead Hlog Hsorted].
  split; [done|]. split; [|done]. intros t msg Hin. apply (Hlog _ Hin).
Qed.

End Timeline.

(** ** The horizon *)

Section Horizon.
Context `{Random} (cfg : config).

Local Arguments granting : simpl never.
Local Arguments requested : simpl never.

(** The until event of [env.run] is in the heap, at the horizon. *)
Record pending (s : state) : Prop := {
  pd_until : exists y, y ∈ _queue s /\ cls s (event_of y) = Some KEvent;
  pd_time : forall y, y ∈ _queue s -> cls s (event_of y) = Some KEvent ->
            (time y == SIMULATION_TIME cfg)%Q
}.

Lemma granting_cls (s1 : state) e : cls (granting s1) e = cls s1 e.
Proof.
  unfold granting. destruct (queue (berths s1)) as [|h rest]; [done|].
  destruct (_ <? _); [|done]. unfold cls. cbn.
  by rewrite fmap_alter_same by (intros []; reflexivity).
Qed.

(** A step that does not process the until event leaves it where it is. *)
Lemma pending_keep (s s' : state) x rest :
  kernel s -> pending s -> heappop (_queue s) = Some (x, rest) ->
  cls s (event_of x) <> Some KEvent ->
  (forall y, y ∈ rest -> y ∈ _queue s') ->
  (forall y, y ∈ _queue s' -> y ∈ rest \/ cls s' (event_of y) <> Some KEvent) ->
  (forall e, e < next_obj s -> cls s' e = cls s e) ->
  pending s'.
Proof.
  intros K [(u & Hu & Hcu) Htime] Hpop Hx Hrest Hnew Hold.
  pose proof (heappop_perm _ _ _ Hpop) as Hperm.
  assert (forall y, y ∈ rest -> event_of y < next_obj s) as Holdr.
  { intros y Hy. apply (scheduled_old _ _ K). apply list_elem_of_fmap_2.
    rewrite Hperm. by right. }
  split.
  - exists u. rewrite Hperm in Hu. apply elem_of_cons in Hu as [->|Hu]; [done|].
    split; [by apply Hrest|]. by rewrite Hold by (by apply Holdr).
  - intros y [Hy|Hy]%Hnew Hc; [|done].
    rewrite Hold in Hc by (by apply Holdr). apply Htime; [|done].
    rewrite Hperm. by right.
Qed.

Ltac pd_rest :=
  let y := fresh "y" in
  let Hy := fresh "Hy" in
  intros y Hy; try apply granting_rest; cbn; unfold heappush; rewrite ?elem_of_app; tauto.

Ltac pd_cls :=
  unfold cls; cbn;
  repeat first
    [ rewrite fmap_alter_same by (intros []; reflexivity)
    | rewrite lookup_insert_eq
    | rewrite lookup_insert_ne by lia ].

Ltac pd_entry :=
  first
    [ by left
    | right; subst; cbn; pd_cls; cbn;
      first [ discriminate
            | match goal with
              | Hpc : cls _ ?p = Some KProcess |- _ => unfold cls in Hpc; rewrite Hpc
              end; discriminate ] ].

Ltac pd_entries :=
  let y := fresh "y" in
  let Hy := fresh "Hy" in
  intros y; cbn; unfold heappush; rewrite ?elem_of_app, ?list_elem_of_singleton;
  intros Hy; repeat (match type of Hy with _ \/ _ => destruct Hy as [Hy|Hy] end);
  pd_entry.

Ltac pd_old :=
  let e := fresh "e" in
  let He := fresh "He" in
  intros e He; rewrite ?granting_cls; pd_cls; reflexivity.

Lemma pending_step (s s' : state) :
  kernel s -> pending s -> transition cfg s s' ->
  (forall x rest, heappop (_queue s) = Some (x, rest) ->
     cls s (event_of x) <> Some KEvent) ->
  pending s'.
Proof.
  intros K PD T Hns. destruct T; leaves.
  all: try match goal with
           | Hp : procs _ !! _ = Some _ |- _ =>
               pose proof (k_proc_cls _ K _ _ Hp); pose proof (old_proc _ _ _ K Hp)
           end.
  all: try solve [eapply (pending_keep s);
                  [exact K|exact PD|eassumption|by eapply Hns|pd_rest|pd_entries|pd_old]].
  - exact PD.
  - (* a release is processed *)
    eapply (pending_keep s); [exact K|exact PD|eassumption|by eapply Hns|pd_rest| |pd_old].
    intros y [Hy|[rest' Hq]]%granting_entries; [by left|]. right.
    rewrite granting_cls. cbn in Hq.
    destruct (k_waiting _ K (event_of y)) as (p' & v' & Hc & _); [rewrite Hq; left|].
    pd_cls. unfold cls in Hc. by rewrite Hc.
  - (* a vessel asks for a berth *)
    pose proof (requested_queued (logged (VesselArrives v) (taken x rest s)) p v) as Hrq.
    change (next_obj (logged (VesselArrives v) (taken x rest s))) with (next_obj s) in Hrq.
    rewrite Hrq. clear Hrq.
    eapply (pending_keep s); [exact K|exact PD|eassumption|by eapply Hns|pd_rest| |pd_old].
    intros y [Hy|[rest' Hq]]%granting_entries; [by left|]. right.
    rewrite granting_cls. cbn in Hq.
    destruct (queue (berths s)) as [|h tl] eqn:Hqs; cbn in Hq; injection Hq as Hh _.
    + rewrite <- Hh. pd_cls. cbn. discriminate.
    + destruct (k_waiting _ K h) as (p' & v' & Hc & _); [rewrite Hqs; left|].
      pose proof (old_cls _ _ _ K Hc) as Ho.
      rewrite <- Hh. pd_cls. unfold cls in Hc. by rewrite Hc.
Qed.

(** A step sets the clock to the time of the entry it takes. *)
Lemma transition_now (s s' : state) :
  transition cfg s s' ->
  forall x rest, heappop (_queue s) = Some (x, rest) -> now s' = time x.
Proof.
  intros T. destruct T; intros x0 rest0 Hp0; leaves; try congruence.
  all: match goal with
       | Hpop : heappop _ = Some _ |- _ => rewrite Hpop in Hp0; injection Hp0 as <- <-
       end.
  all: try solve [rewrite ?granting_now; cbn; reflexivity].
  pose proof (requested_queued (logged (VesselArrives v) (taken x rest s)) p v) as Hrq.
  change (next_obj (logged (VesselArrives v) (taken x rest s))) with (next_obj s) in Hrq.
  rewrite Hrq. clear Hrq. by rewrite granting_now.
Qed.

Lemma pending_booted (seed : rng_state) : pending (booted cfg seed).
Proof.
  split.
  - exists (Entry (0 + (SIMULATION_TIME cfg - 0)) URGENT 1 2). split.
    + cbn. unfold heappush. cbn. right. left.
    + unfold cls. cbn. rewrite fmap_alter_same by (intros []; reflexivity).
      by rewrite lookup_insert_eq.
  - intros y. cbn. unfold heappush. cbn.
    intros [-> | ->%list_elem_of_singleton]%elem_of_cons; cbn.
    + unfold cls. cbn. rewrite fmap_alter_same by (intros []; reflexivity).
      rewrite lookup_insert_ne by lia. by rewrite lookup_insert_eq.
    + intros _. ring.
Qed.

(** The clock and the log are not beyond the horizon. *)
Definition bounded (s : state) : Prop :=
  (now s <= SIMULATION_TIME cfg)%Q /\
  forall a, a ∈ stdout s -> (fst a <= SIMULATION_TIME cfg)%Q.

Lemma bounded_pending (s : state) : timeline s -> pending s -> bounded s.
Proof.
  intros TL [(u & Hu & Hcu) Htime].
  assert (now s <= SIMULATION_TIME cfg)%Q as Hnow.
  { rewrite <- (Htime u Hu Hcu). by apply (tl_ahead _ TL). }
  split; [done|]. intros a Ha. destruct (tl_log _ TL a Ha) as [_ Hle].
  by apply (Qle_trans _ (now s)).
Qed.

(** The entry that [step] takes in [s] is the until event. *)
Definition stops (s : state) : Prop :=
  exists x rest, heappop (_queue s) = Some (x, rest) /\ cls s (event_of x) = Some KEvent.

(** One step, with the outcome it has. *)
Lemma horizon_step (s : state) :
  kernel s -> timeline s /\ pending s ->
  match step cfg s with
  | (inr _, s') => timeline s' /\ pending s'
  | (inl exc, s') =>
      bounded s' /\ (stops s -> exc = StopSimulation /\ (now s' == SIMULATION_TIME cfg)%Q)
  end.
Proof.
  intros K [TL PD].
  pose proof (step_transition cfg s K) as T.
  pose proof (timeline_step cfg s _ TL T) as TL'.
  pose proof (step_outcome cfg s K) as Hout.
  destruct (heappop (_queue s)) as [[x rest]|] eqn:Hpop.
  2:{ destruct PD as [(u & Hu & _) _].
      destruct (_queue s) as [|z q]; [by apply elem_of_nil in Hu|].
      cbn in Hpop. by destruct (heappop q) as [[m r]|]; [destruct (entry_ltb m z)|]. }
  pose proof (transition_now _ _ T _ _ Hpop) as Hnow.
  assert (x ∈ _queue s) as Hx by (rewrite (heappop_perm _ _ _ Hpop); left).
  assert (cls s (event_of x) = Some KEvent \/ cls s (event_of x) <> Some KEvent)
    as [Hstop|Hgo] by (destruct (cls s (event_of x)) as [[]|]; first [by left|by right]).
  - rewrite Hstop in Hout. destruct (step cfg s) as [[exc|[]] s']; [|done].
    cbn in Hout, Hnow, TL', T. injection Hout as ->.
    assert (now s' == SIMULATION_TIME cfg)%Q as Heq
      by (rewrite Hnow; by apply (pd_time _ PD)).
    split; [|done]. split; [rewrite Heq; apply Qle_refl|].
    intros a Ha. destruct (tl_log _ TL' a Ha) as [_ Hle]. by rewrite <- Heq.
  - assert (pending (snd (step cfg s))) as PD'.
    { apply (pending_step s); [done..|]. intros x' rest' Hp'.
      rewrite Hpop in Hp'. by injection Hp' as <- <-. }
    destruct (step cfg s) as [[exc|[]] s']; [|done]. cbn in *.
    split; [by apply bounded_pending|].
    intros (x' & rest' & Hp' & Hc). rewrite Hpop in Hp'. by injection Hp' as <- <-.
Qed.

Lemma timeline_booted (seed : rng_state) :
  (0 < SIMULATION_TIME cfg)%Q -> timeline (booted cfg seed).
Proof.
  intros Ht. split; cbn; [done| |by intros ? ?%elem_of_nil|constructor].
  unfold heappush. cbn.
  intros y [-> | ->%list_elem_of_singleton]%elem_of_cons; cbn; [done|].
  apply later. rewrite <- (Qplus_opp_r 0). apply Qplus_le_compat; [|apply Qle_refl].
  by apply Qlt_le_weak.
Qed.

Lemma log_bounded_after n seed a :
  a ∈ stdout (snd (after cfg n seed)) -> (fst a <= SIMULATION_TIME cfg)%Q.
Proof.
  unfold after, bind.
  destruct (boot_outcome cfg seed) as [[Hnb ->]|[(_ & Ht & ->)|(_ & Ht & ->)]].
  - by intros ?%elem_of_nil.
  - by intros ?%elem_of_nil.
  - pose proof (steps_ind cfg (fun s => timeline s /\ pending s)
                  (fun _ s' => bounded s')) as Hind.
    pose proof (timeline_booted seed Ht) as TL.
    specialize (Hind (fun s K P => ltac:(
      pose proof (horizon_step s K P) as Hs;
      destruct (step cfg s) as [[exc|[]] s']; [exact (proj1 Hs)|exact Hs]))
      n (booted cfg seed) (kernel_booted cfg seed) (conj TL (pending_booted seed))).
    destruct (steps cfg n (booted cfg seed)) as [[exc|[]] s']; cbn.
    + apply Hind.
    + destruct Hind as [_ [TL' PD']]. apply (bounded_pending _ TL' PD').
Qed.

(** X2: [env.run(until=SIMULATION_TIME)] processes no event after the
    horizon: whatever the configuration and the random numbers, no line of
    the log has a time after [SIMULATION_TIME]. *)
Theorem nothing_logged_after_horizon n seed t msg :
  (t, msg) ∈ stdout (snd (after cfg n seed)) -> (t <= SIMULATION_TIME cfg)%Q.
Proof. intros Hin. apply (log_bounded_after n seed _ Hin). Qed.

End Horizon.

(** The last line of the run with three containers is not after the
    horizon of 720. *)
Lemma nothing_logged_after_horizon_witness : (9 <= SIMULATION_TIME c5_config)%Q.
Proof.
  apply (@nothing_logged_after_horizon scripted c5_config 30 [0%Q] 9 (VesselLeaves 1)).
  vm_compute. repeat constructor.
Defined.

(** ** A run that does not crash *)

Section Safety.
Context `{Random} (cfg : config).
Hypothesis enough_cranes : NUM_BERTHS cfg <= NUM_QUAY_CRANES cfg.
Hypothesis some_interval : ~ (AVERAGE_VESSEL_ARRIVAL_INTERVAL cfg == 0)%Q.
Hypothesis samples_nonneg : forall lambd r, (0 <= fst (expovariate lambd r))%Q.
Hypothesis crane_time : (0 <= CRANE_CONTAINER_TIME cfg)%Q.

Local Arguments granting : simpl never.
Local Arguments requested : simpl never.











End Safety.


(** ** Configurations the script rejects *)

Section Rejected.
Context `{Random} (cfg : config).

(** X4: with [NUM_BERTHS = 0], [simpy.Resource] raises [ValueError] in
    [Terminal.__init__]: the program ends with that exception before it has
    created a crane, a truck or a process, and prints nothing. *)
Theorem no_berths_is_an_error n seed :
  NUM_BERTHS cfg = 0 -> main cfg n seed = (Crashed ValueError, fresh seed).
Proof.
  intros Hz. unfold main, after, bind.
  by destruct (boot_outcome cfg seed) as [[_ ->]|[(Hnb & _)|(Hnb & _)]].
Qed.

(** X5: with berths but a horizon that is not after time 0, the terminal
    and the arrival process are created, and then [env.run] raises
    [ValueError]: no event is processed, the arrival process never starts,
    and nothing is printed. *)
Theorem horizon_must_be_positive n seed :
  NUM_BERTHS cfg <> 0 -> (SIMULATION_TIME cfg <= 0)%Q ->
  main cfg n seed = (Crashed ValueError, spawned ArrivalsStart (terminal cfg seed)) /\
  stdout (snd (main cfg n seed)) = [] /\
  procs (snd (main cfg n seed)) !! 0 = Some (Process ArrivalsStart (Some 1)) /\
  now (snd (main cfg n seed)) = 0%Q.
Proof.
  intros Hnb Hle. unfold main, after, bind.
  destruct (boot_outcome cfg seed) as [[Hz _]|[(_ & _ & ->)|(_ & Ht & _)]];
    [done| |by destruct (Qlt_not_le _ _ Ht)].
  cbn. by rewrite lookup_insert_eq.
Qed.

End Rejected.

(** main.py without berths, and main.py with the horizon 0. *)
Lemma no_berths_is_an_error_witness :
  @main scripted (Config 720 0 2 3 4 300 150 3 6) 5 [] = (Crashed ValueError, @fresh scripted []).
Proof. by apply (@no_berths_is_an_error scripted). Defined.

Lemma horizon_must_be_positive_witness :
  @main scripted (Config 0 2 2 3 4 300 150 3 6) 5 [] =
    (Crashed ValueError,
     spawned ArrivalsStart (@terminal scripted (Config 0 2 2 3 4 300 150 3 6) [])) /\
  stdout (snd (@main scripted (Config 0 2 2 3 4 300 150 3 6) 5 [])) = [] /\
  procs (snd (@main scripted (Config 0 2 2 3 4 300 150 3 6) 5 [])) !! 0 =
    Some (Process ArrivalsStart (Some 1)) /\
  now (snd (@main scripted (Config 0 2 2 3 4 300 150 3 6) 5 [])) = 0%Q.
Proof.
  apply (@horizon_must_be_positive scripted).
  - cbn. lia.
  - vm_compute. discriminate.
Defined.

(** ** The trucks *)

Section Trucks.
Context `{Random} (cfg : config).

Local Arguments granting : simpl never.
Local Arguments requested : simpl never.

Lemma granting_trucks (s1 : state) : trucks (granting s1) = trucks s1.
Proof. unfold granting. destruct (queue _); [done|]. by destruct (_ <? _). Qed.

Lemma trucks_step (s s' : state) : transition cfg s s' -> trucks s' = trucks s.
Proof.
  intros T. destruct T; leaves; try reflexivity.
  - by rewrite granting_trucks.
  - pose proof (requested_queued (logged (VesselArrives v) (taken x rest s)) p v) as Hrq.
    change (next_obj (logged (VesselArrives v) (taken x rest s))) with (next_obj s) in Hrq.
    rewrite Hrq. clear Hrq. by rewrite granting_trucks.
Qed.

(** X6: the list of trucks that [Terminal.__init__] builds is never
    changed: once the terminal exists, in every state the program reaches
    it is [T1 .. T{NUM_TRUCKS}], in this order. *)
Theorem trucks_stay_in_the_pool n seed :
  NUM_BERTHS cfg <> 0 ->
  trucks (snd (after cfg n seed)) = seq 1 (NUM_TRUCKS cfg).
Proof.
  intros Hnb.
  apply (after_ind cfg (fun s => NUM_BERTHS cfg <> 0 -> trucks s = seq 1 (NUM_TRUCKS cfg)));
    try done.
  intros s s' _ Hs T Hn. rewrite (trucks_step _ _ T). by apply Hs.
Qed.

End Trucks.

(** The three trucks of main.py. *)
Lemma trucks_stay_in_the_pool_witness :
  trucks (snd (@after scripted main_config 14 [0%Q; 0%Q; 0%Q; 0%Q])) = seq 1 3.
Proof. apply (@trucks_stay_in_the_pool scripted main_config). cbn. lia. Defined.

(** ** The log of a vessel that has left *)

Section Departure.
Context `{Random} (cfg : config).
Hypothesis some_containers : (0 <= CONTAINERS_PER_VESSEL cfg)%Z.

(** X7: when [CONTAINERS_PER_VESSEL] is not negative, a vessel that has
    logged that it leaves has exactly [CONTAINERS_PER_VESSEL] lines "loads
    container" in the log, and nothing works on it any more: no process
    runs its [arrive] or a crane step for it. *)
Theorem leaves_after_all_containers n seed v t :
  (t, VesselLeaves v) ∈ stdout (snd (after cfg n seed)) ->
  Z.of_nat (count_loads v (stdout (snd (after cfg n seed)))) = CONTAINERS_PER_VESSEL cfg /\
  forall q g t', procs (snd (after cfg n seed)) !! q = Some (Process g t') ->
    vessel_of g <> Some v /\ load_of g <> Some v.
Proof.
  intros Hin.
  pose proof (fleet_after cfg some_containers n seed) as F.
  pose proof (kernel_after cfg n seed) as K.
  destruct (fl_left _ _ F _ _ Hin) as [Hz Hnone].
  destruct (fl_logged _ _ F _ _ v Hin eq_refl) as [x Hx].
  pose proof (fl_count _ _ F _ _ Hx) as Hc.
  unfold the_vessel in Hz. rewrite Hx in Hz. cbn in Hz. split; [lia|].
  intros q g t' Hq. split; [by eapply Hnone|].
  intros Hl. destruct (loader_parent _ _ _ _ _ K Hq Hl) as (qq & r & c & Hqq).
  by apply (Hnone _ _ _ Hqq).
Qed.

End Departure.

(** The vessel of the run with three containers. *)
Lemma leaves_after_all_containers_witness :
  Z.of_nat (count_loads 1 (stdout (snd (@after scripted c5_config 30 [0%Q])))) =
    CONTAINERS_PER_VESSEL c5_config /\
  forall q g t', procs (snd (@after scripted c5_config 30 [0%Q])) !! q = Some (Process g t') ->
    vessel_of g <> Some 1 /\ load_of g <> Some 1.
Proof.
  apply (@leaves_after_all_containers scripted c5_config) with (t := 9%Q).
  - cbn. lia.
  - vm_compute. repeat constructor.
Defined.

(** ** The cranes *)

Section Cranes.
Context `{Random} (cfg : config).

Local Arguments granting : simpl never.
Local Arguments requested : simpl never.

(** The pool holds distinct cranes of the terminal, a crane that a vessel
    holds is not in the pool, and no two vessels hold the same crane. *)
Record cranes (s : state) : Prop := {
  cr_nodup : NoDup (quay_cranes s);
  cr_range : forall c, c ∈ quay_cranes s -> 1 <= c <= NUM_QUAY_CRANES cfg;
  cr_held : forall p v r c t,
      procs s !! p = Some (Process (ArriveUnload v r c) t) ->
      (c ∉ quay_cranes s) /\ 1 <= c <= NUM_QUAY_CRANES cfg;
  cr_one : forall p1 p2 v1 v2 r1 r2 c t1 t2,
      procs s !! p1 = Some (Process (ArriveUnload v1 r1 c) t1) ->
      procs s !! p2 = Some (Process (ArriveUnload v2 r2 c) t2) -> p1 = p2
}.

Lemma granting_cranes (s1 : state) : quay_cranes (granting s1) = quay_cranes s1.
Proof. unfold granting. destruct (queue _); [done|]. by destruct (_ <? _). Qed.

(** A step that takes no crane and returns none. *)
Lemma cranes_keep (s s' : state) :
  cranes s -> quay_cranes s' = quay_cranes s ->
  (forall q v r c t, procs s' !! q = Some (Process (ArriveUnload v r c) t) ->
     exists t', procs s !! q = Some (Process (ArriveUnload v r c) t')) ->
  cranes s'.
Proof.
  intros [Hnd Hrange Hheld Hone] Hq Hprocs. split; rewrite ?Hq; try done.
  - intros p v r c t Hp. destruct (Hprocs _ _ _ _ _ Hp) as (t' & Hp'). by eapply Hheld.
  - intros p1 p2 v1 v2 r1 r2 c t1 t2 H1 H2.
    destruct (Hprocs _ _ _ _ _ H1) as (t1' & H1').
    destruct (Hprocs _ _ _ _ _ H2) as (t2' & H2'). by eapply Hone.
Qed.

Ltac held_frames :=
  let q := fresh "q" in
  let Hq := fresh "Hq" in
  intros q ? ? ? ?; rewrite ?granting_procs; cbn;
  repeat (rewrite lookup_insert; case_decide;
          [subst; first [by intros [=] | intros [= <- <- <- <-]; eexists; eassumption]|]);
  intros Hq; eexists; exact Hq.

Lemma cranes_step (s s' : state) :
  cranes s -> transition cfg s s' -> cranes s'.
Proof.
  intros C T. destruct T; leaves.
  all: try solve [apply (cranes_keep s); [exact C|rewrite ?granting_cranes; reflexivity
                                         |held_frames]].
  - (* a vessel asks for a berth *)
    pose proof (requested_queued (logged (VesselArrives v) (taken x rest s)) p v) as Hrq.
    change (next_obj (logged (VesselArrives v) (taken x rest s))) with (next_obj s) in Hrq.
    rewrite Hrq. clear Hrq.
    apply (cranes_keep s); [exact C|by rewrite granting_cranes|held_frames].
  - (* the vessel takes the first crane of the pool *)
    destruct C as [Hnd Hrange Hheld Hone]. cbn in Heql. rewrite Heql in *.
    apply NoDup_cons in Hnd as [Hn Hnd].
    split; cbn.
    + done.
    + intros c Hc. apply Hrange. by right.
    + intros q v' r' c' t'. rewrite lookup_insert. case_decide.
      * intros [= <- <- <- <-]. split; [done|]. apply Hrange. by left.
      * rewrite lookup_insert. case_decide; [by intros [=]|]. intros Hq.
        destruct (Hheld _ _ _ _ _ Hq) as [Hno Hr]. split; [|done].
        intros Hin. apply Hno. by right.
    + intros p1 p2 v1 v2 r1 r2 c t1 t2. rewrite !lookup_insert.
      repeat case_decide; subst; try done; try (by intros [=]); try (by intros ? [=]).
      * intros [= <- <- <- <-] Hq. destruct (Hheld _ _ _ _ _ Hq) as [Hno _].
        destruct Hno. by left.
      * intros Hq [= <- <- <- <-]. destruct (Hheld _ _ _ _ _ Hq) as [Hno _].
        destruct Hno. by left.
      * by eapply Hone.
  - (* a vessel without containers puts the crane back at once *)
    destruct C as [Hnd Hrange Hheld Hone]. cbn in Heql. rewrite Heql in *.
    split; cbn.
    + by rewrite <- Permutation_cons_append.
    + intros c Hc. apply Hrange. by rewrite Permutation_cons_append.
    + intros q v' r' c' t'. rewrite lookup_insert. case_decide; [by intros [=]|].
      intros Hq. destruct (Hheld _ _ _ _ _ Hq) as [Hno Hr]. split; [|done].
      by rewrite <- Permutation_cons_append.
    + intros p1 p2 v1 v2 r1 r2 c t1 t2. rewrite !lookup_insert.
      repeat case_decide; subst; try done; try (by intros [=]); try (by intros ? [=]).
      by eapply Hone.
  - (* the vessel puts its crane back *)
    destruct C as [Hnd Hrange Hheld Hone].
    destruct (Hheld _ _ _ _ _ H2) as [Hno Hr].
    split; cbn.
    + rewrite <- Permutation_cons_append. by apply NoDup_cons.
    + intros c. rewrite <- Permutation_cons_append.
      intros [->|Hc]%elem_of_cons; [done|by apply Hrange].
    + intros q v' r' c' t'. rewrite lookup_insert. case_decide; [by intros [=]|].
      intros Hq. destruct (Hheld _ _ _ _ _ Hq) as [Hno' Hr']. split; [|done].
      rewrite <- Permutation_cons_append. apply not_elem_of_cons. split; [|done].
      intros ->. by pose proof (Hone _ _ _ _ _ _ _ _ _ Hq H2).
    + intros p1 p2 v1 v2 r1 r2 c t1 t2. rewrite !lookup_insert.
      repeat case_decide; subst; try done; try (by intros [=]); try (by intros ? [=]).
      by eapply Hone.
Qed.

Lemma cranes_after n seed : cranes (snd (after cfg n seed)).
Proof.
  assert (forall seed' : rng_state, cranes (terminal cfg seed')) as Ht.
  { intros seed'. split; cbn; try done.
    - apply NoDup_seq.
    - intros c Hc%elem_of_seq. lia. }
  assert (forall s0 : state, cranes s0 -> procs s0 = ∅ ->
            cranes (spawned ArrivalsStart s0)) as Hs.
  { intros s0 C Hp. apply (cranes_keep s0); [done|done|].
    intros q v r c t. cbn. rewrite Hp, lookup_insert. by case_decide. }
  apply (after_ind cfg cranes).
  - intros _ seed'. split; cbn; try done; [apply NoDup_nil_2|].
    by intros c ?%elem_of_nil.
  - intros _ seed'. by apply Hs.
  - intros _ seed'. apply (cranes_keep (spawned ArrivalsStart (terminal cfg seed'))); [|done|].
    + by apply Hs.
    + intros q v r c t Hq. by exists t.
  - intros s s' _ C T. by apply (cranes_step s).
Qed.

(** X8: in every state the program reaches, the cranes in the pool are
    distinct cranes of [QC1 .. QC{NUM_QUAY_CRANES}]; the crane with which a
    vessel unloads is one of them, is not in the pool, and is not the crane
    of another vessel. *)
Theorem cranes_are_exclusive n seed :
  NoDup (quay_cranes (snd (after cfg n seed))) /\
  (forall c, c ∈ quay_cranes (snd (after cfg n seed)) -> 1 <= c <= NUM_QUAY_CRANES cfg) /\
  (forall p v r c t,
     procs (snd (after cfg n seed)) !! p = Some (Process (ArriveUnload v r c) t) ->
     (c ∉ quay_cranes (snd (after cfg n seed))) /\ 1 <= c <= NUM_QUAY_CRANES cfg) /\
  (forall p1 p2 v1 v2 r1 r2 c t1 t2,
     procs (snd (after cfg n seed)) !! p1 = Some (Process (ArriveUnload v1 r1 c) t1) ->
     procs (snd (after cfg n seed)) !! p2 = Some (Process (ArriveUnload v2 r2 c) t2) ->
     p1 = p2).
Proof. by destruct (cranes_after n seed). Qed.

End Cranes.

(** ** The names of the vessels *)

Section Names.
Context `{Random} (cfg : config).

Local Arguments granting : simpl never.
Local Arguments requested : simpl never.

(** The vessels are named by the index of the loop of
    [vessel_on_the_terminal], which runs from 1 to [NUM_VESSEL]. *)
Record named (s : state) : Prop := {
  nm_known : forall v, known s v -> 1 <= v <= NUM_VESSEL cfg;
  nm_index : forall q i t, procs s !! q = Some (Process (ArrivalsYield i) t) ->
             1 <= i <= NUM_VESSEL cfg
}.

Lemma named_keep (s s' : state) :
  named s ->
  (forall v, known s' v -> known s v \/ 1 <= v <= NUM_VESSEL cfg) ->
  (forall q j t, procs s' !! q = Some (Process (ArrivalsYield j) t) ->
     1 <= j <= NUM_VESSEL cfg \/
     exists t', procs s !! q = Some (Process (ArrivalsYield j) t')) ->
  named s'.
Proof.
  intros [Hk Hi] Hknown Hprocs. split.
  - intros v [Hv|Hv]%Hknown; [by apply Hk|done].
  - intros q i t [Hq|(t' & Hq)]%Hprocs; [done|by eapply Hi].
Qed.

Ltac nm_known Hi :=
  let v0 := fresh "v0" in
  intros v0; unfold known; rewrite ?granting_vessels; cbn;
  repeat first
    [ rewrite lookup_alter; case_decide;
      [ subst; first [ rewrite fmap_is_Some; by left
                     | intros _; right; eapply Hi; eassumption ] |]
    | rewrite lookup_insert_ne by done ];
  by left.

Ltac nm_index :=
  let q := fresh "q" in
  let Hq := fresh "Hq" in
  intros q ? ?; rewrite ?granting_procs; cbn;
  repeat (rewrite lookup_insert; case_decide;
          [subst; first [by intros [=] | intros [= <- <-]; left; lia]|]);
  intros Hq; right; eexists; exact Hq.

Lemma named_step (s s' : state) :
  named s -> transition cfg s s' -> named s'.
Proof.
  intros N T. pose proof (nm_index _ N) as Hi. destruct T; leaves.
  all: repeat match goal with
              | Hb : (_ <=? _) = true |- _ => apply Nat.leb_le in Hb
              end.
  all: try match goal with
           | Hp : procs _ !! _ = Some (Process (ArrivalsYield _) _) |- _ =>
               pose proof (Hi _ _ _ Hp)
           end.
  all: try solve [apply (named_keep s); [exact N|nm_known Hi|nm_index]].
  pose proof (requested_queued (logged (VesselArrives v) (taken x rest s)) p v) as Hrq.
  change (next_obj (logged (VesselArrives v) (taken x rest s))) with (next_obj s) in Hrq.
  rewrite Hrq. clear Hrq.
  apply (named_keep s); [exact N|nm_known Hi|nm_index].
Qed.

Lemma named_after n seed : named (snd (after cfg n seed)).
Proof.
  assert (forall s0 : state, vessels s0 = ∅ -> procs s0 = ∅ ->
            named (spawned ArrivalsStart s0)) as Hs.
  { intros s0 Hv Hp. split.
    - intros v. unfold known. cbn. rewrite Hv. by intros ?%is_Some_None.
    - intros q i t. cbn. rewrite Hp, lookup_insert. by case_decide. }
  apply (after_ind cfg named).
  - intros _ seed'. split.
    + intros v. unfold known. cbn. by intros ?%is_Some_None.
    + by intros q i t.
  - intros _ seed'. by apply Hs.
  - intros _ seed'. destruct (Hs (terminal cfg seed') eq_refl eq_refl) as [Hk Hi].
    by split.
  - intros s s' _ N T. by apply (named_step s).
Qed.

(** X9: every vessel the program creates is one of [V1 .. V{NUM_VESSEL}]:
    in every state the program reaches, the name of every vessel is an index
    of the loop of [vessel_on_the_terminal], and the index at which that loop
    is suspended is one too, whether or not a vessel exists yet. *)
Theorem vessel_names_in_range n seed :
  (forall v x, vessels (snd (after cfg n seed)) !! v = Some x ->
     1 <= v <= NUM_VESSEL cfg) /\
  (forall q i t,
     procs (snd (after cfg n seed)) !! q = Some (Process (ArrivalsYield i) t) ->
     1 <= i <= NUM_VESSEL cfg).
Proof.
  destruct (named_after n seed) as [Hk Hi]. split; [|exact Hi].
  intros v x Hx. apply Hk. by exists x.
Qed.

End Names.
